(** * radioactive: random-walk escape simulation (simpleradioactive.ts)

    A shallow embedding of the simulation core: the iterator helpers
    ([map], [take], [pairStreams]), the rejection sampler
    ([createThetaStream]), the law-of-cosines step ([calculateDistance]),
    the path simulator ([createDistanceStream]), the radius sweep
    ([createRadiusStream]) and the per-radius aggregation ([results]).

    JavaScript's [number] is kept abstract behind the interface [Number],
    which lists exactly the operations the program applies to numbers.
    The program is written once against that interface and read in two
    arithmetics:
    - [Binary64]: IEEE 754 double precision, the arithmetic the program
      runs in (Rocq's primitive floats); [Math.cos] and [Math.sin], which
      ECMAScript leaves implementation-approximated, stay parameters;
    - [Exact]: the real numbers, the arithmetic the specification's data
      model speaks of (real-valued distances and angles). *)

From Stdlib Require Import List Sorted Bool Arith ZArith Lia.
From Stdlib Require Import Reals Lra.
From Stdlib Require Import Floats.
Import ListNotations.

Set Implicit Arguments.

(** ** The operations the program applies to a [number] *)

Declare Scope num_scope.
Delimit Scope num_scope with num.

Class Number (num : Type) : Type := {
  (** an integer literal, or an integer count such as [distances.length] *)
  of_Z : Z -> num;
  (** what [undefined] converts to where a number is expected *)
  NaN : num;
  add : num -> num -> num;
  sub : num -> num -> num;
  mul : num -> num -> num;
  div : num -> num -> num;
  (** [b ** e]; the program only raises to integer exponents *)
  pow : num -> Z -> num;
  Math_sqrt : num -> num;
  Math_cos : num -> num;
  Math_sin : num -> num;
  Math_PI : num;
  (** [a <= b] *)
  leb : num -> num -> bool;
  (** [a >= Infinity] *)
  geb_Infinity : num -> bool
}.

(** [a >= b] is [b <= a], also on NaN (both are false). *)
Definition geb {num} `{Number num} (a b : num) : bool := leb b a.

Notation "a + b" := (add a b) : num_scope.
Notation "a - b" := (sub a b) : num_scope.
Notation "a * b" := (mul a b) : num_scope.
Notation "a / b" := (div a b) : num_scope.
Notation "a ** e" := (pow a e) (at level 30, right associativity) : num_scope.
Notation "a <=? b" := (leb a b) : num_scope.
Notation "a >=? b" := (geb a b) (at level 70) : num_scope.
Notation "# z" := (of_Z z) (at level 1, format "# z") : num_scope.

(** ** Exact arithmetic: the real numbers *)

Definition Rleb (a b : R) : bool := if Rle_dec a b then true else false.

(** The reals have neither NaN nor infinities: [NaN] is a junk value in
    the way [1 / 0] is one in [R], and no real reaches [Infinity]. *)
#[export] Instance Exact : Number R := {
  of_Z := IZR;
  NaN := 0%R;
  add := Rplus;
  sub := Rminus;
  mul := Rmult;
  div := Rdiv;
  pow := powerRZ;
  Math_sqrt := R_sqrt.sqrt;
  Math_cos := Rtrigo_def.cos;
  Math_sin := Rtrigo_def.sin;
  Math_PI := PI;
  leb := Rleb;
  geb_Infinity := fun _ => false
}.

(** ** IEEE 754 binary64: the arithmetic of a JavaScript [number] *)

Definition float_of_Z (z : Z) : float :=
  match z with
  | Z0 => PrimFloat.zero
  | Zpos _ => PrimFloat.of_uint63 (Uint63.of_Z z)
  | Zneg p => PrimFloat.opp (PrimFloat.of_uint63 (Uint63.of_Z (Zpos p)))
  end.

(** [b ** e] for an integer [e], by repeated rounded multiplication; it is
    exact where the program uses it to name a power of ten, and for
    [e = 2] it is the correctly rounded square. *)
Definition float_pow (b : float) (e : Z) : float :=
  match e with
  | Z0 => PrimFloat.one
  | Zpos p => Pos.iter (PrimFloat.mul b) PrimFloat.one p
  | Zneg p => PrimFloat.div PrimFloat.one (Pos.iter (PrimFloat.mul b) PrimFloat.one p)
  end.

(** [Math.PI], the double nearest to pi. *)
Definition float_PI : float := 0x1.921fb54442d18p+1%float.

Definition Binary64 (cos64 sin64 : float -> float) : Number float := {|
  of_Z := float_of_Z;
  NaN := PrimFloat.nan;
  add := PrimFloat.add;
  sub := PrimFloat.sub;
  mul := PrimFloat.mul;
  div := PrimFloat.div;
  pow := float_pow;
  Math_sqrt := PrimFloat.sqrt;
  Math_cos := cos64;
  Math_sin := sin64;
  Math_PI := float_PI;
  leb := PrimFloat.leb;
  geb_Infinity := fun a => PrimFloat.leb PrimFloat.infinity a
|}.

(** ** Effects and iterables

    The program's only mutable state sits behind its generator objects.
    [W] is that state; a computation either returns a value and the next
    state, or has not returned within the fuel it was given ([None]): the
    rejection loop of [createThetaStream] has no bound of its own. *)

Section Iterables.

Context {W : Type}.

Definition M (X : Type) : Type := W -> option (X * W).

Definition ret {X} (x : X) : M X := fun w => Some (x, w).

Definition bind {X Y} (c : M X) (k : X -> M Y) : M Y :=
  fun w => match c w with
           | Some (x, w') => k x w'
           | None => None
           end.

(** An [Iterable<A>] as the helpers meet it. An array hands out a fresh
    iterator, positioned at index 0, at every [[Symbol.iterator]()]; a
    generator object hands out itself, so its [next()] resumes the one
    body. [None] is [undefined]: the [value] of a finished iterator. *)
Inductive Iterable (A : Type) : Type :=
| JSArray (elements : list A)
| JSGenerator (next : M (option A)).

End Iterables.

Arguments M W X : clear implicits.
Arguments Iterable W A : clear implicits.
Arguments JSArray {W A} elements.
Arguments JSGenerator {W A} next.

Notation "x <- c ;; k" := (bind c (fun x => k))
  (at level 61, c at next level, right associativity).

Section Helpers.

Context {W : Type}.

(** [it[Symbol.iterator]().next().value] *)
Definition pull {A} (it : Iterable W A) : M W (option A) :=
  match it with
  | JSArray elements => ret (nth_error elements 0)
  | JSGenerator next => next
  end.

(** [map(it, f)] for a generator object [it]: [for (const i of it)] asks
    [it] for its iterator once, which is [it] itself, and resumes it once
    per round; the loop ends when [it] is done. The program maps over
    generator objects only. *)
Definition map {A B} (it : M W (option A)) (f : A -> B) : Iterable W B :=
  JSGenerator (i <- it ;; ret (option_map f i)).

(** [[...take(it, n)]]: the values [take(it, n)] yields, in order. Each
    round evaluates [it[Symbol.iterator]().next().value] anew. *)
Fixpoint take {A} (it : Iterable W A) (n : nat) : M W (list (option A)) :=
  match n with
  | O => ret []
  | S n' => v <- pull it ;; vs <- take it n' ;; ret (v :: vs)
  end.

(** [pairStreams(it1, it2)]: never done; each round pulls [it1], then
    [it2]. *)
Definition pairStreams {A B} (it1 : Iterable W A) (it2 : Iterable W B)
  : Iterable W (option A * option B) :=
  JSGenerator (a <- pull it1 ;; b <- pull it2 ;; ret (Some (a, b))).

End Helpers.

(** ** The program *)

Section Program.

Context {num : Type} `{Number num}.
Local Open Scope num_scope.

(** A value read where a number is expected. *)
Definition to_number (v : option num) : num :=
  match v with
  | Some x => x
  | None => NaN
  end.

(** [Math.random()]: [random i] is the value of the [i]-th call, and the
    state counts the calls made so far. *)
Section Sampler.

Variable random : nat -> num.

Definition createRandomNumberStream : Iterable nat num :=
  JSGenerator (fun calls => Some (Some (random calls), S calls)).

Definition pointStream : Iterable nat (option num * option num) :=
  pairStreams
    (map (pull createRandomNumberStream) (fun x => x * Math_PI))
    createRandomNumberStream.

(** One [next()] of [createThetaStream()]: pull points until one passes
    [p[1] <= Math.sin(p[0])]. A comparison against [undefined] is false. *)
Fixpoint theta_next (fuel : nat) : M nat (option num) :=
  match fuel with
  | O => fun _ => None
  | S fuel' =>
      p <- pull pointStream ;;
      match p with
      | None => ret None
      | Some (Some p0, Some p1) =>
          if p1 <=? Math_sin p0 then ret (Some p0) else theta_next fuel'
      | Some _ => theta_next fuel'
      end
  end.

Definition createThetaStream (fuel : nat) : Iterable nat num :=
  JSGenerator (theta_next fuel).

End Sampler.

(** [calculateDistance(d, theta)]:
    [Math.sqrt(1 + d ** 2 - 2 * d * Math.cos(theta))]. *)
Definition calculateDistance (d theta : num) : num :=
  Math_sqrt (#1 + d ** 2 - #2 * d * Math_cos theta).

(** [p >= radiusLimit]; [None] is the default [radiusLimit = Infinity]. *)
Definition reached (p : num) (radiusLimit : option num) : bool :=
  match radiusLimit with
  | Some r => p >=? r
  | None => geb_Infinity p
  end.

(** The callback of [thetaArray.reduce(..., 0)]. *)
Definition step (radiusLimit : option num) (p : num) (c : option num) : num :=
  if reached p radiusLimit then p else calculateDistance p (to_number c).

Definition reduce (radiusLimit : option num) (thetaArray : list (option num)) : num :=
  fold_left (step radiusLimit) thetaArray #0.

(** [createDistanceStream(steps, thetaStream, radiusLimit)]: never done;
    each round takes [steps] angles, then folds them. *)
Definition createDistanceStream {W} (steps : nat) (thetaStream : Iterable W num)
    (radiusLimit : option num) : Iterable W num :=
  JSGenerator (thetaArray <- take thetaStream steps ;;
               ret (Some (reduce radiusLimit thetaArray))).

(** [const steps = 5] *)
Definition steps : Z := 5.

(** [const sampleSize = 10000000] *)
Definition sampleSize : nat := Z.to_nat 10000000.

(** [const significantFigures = 3] *)
Definition significantFigures : Z := 3.

(** The loop of [createRadiusStream]:
    [for (let i = 1; i <= steps * n; i++) yield unit * i]. *)
Fixpoint radius_loop (fuel : nat) (unit bound i : num) : option (list num) :=
  match fuel with
  | O => None
  | S fuel' =>
      if i <=? bound
      then option_map (cons (unit * i)) (radius_loop fuel' unit bound (i + #1))
      else Some []
  end.

(** [[...createRadiusStream(significantFigures)]], if the loop ends within
    [fuel] rounds. *)
Definition createRadiusStream (fuel : nat) (significantFigures : Z) : option (list num) :=
  let n := #10 ** (significantFigures - 1) in
  let unit := #1 / n in
  radius_loop fuel unit (#steps * n) #1.

Record SimulationResults : Type := {
  radius : num;
  averageDistance : num;
  percentEscaped : num
}.

(** The statistics the callback of [results] computes from [distances]. *)
Definition aggregate (radius : num) (distances : list (option num)) : SimulationResults :=
  let length := #(Z.of_nat (length distances)) in
  let averageDistance :=
    fold_left (fun accumulated d => accumulated + to_number d) distances #0 / length in
  let escapedDistances := filter (fun d => to_number d >=? radius) distances in
  let percentEscaped := #(Z.of_nat (List.length escapedDistances)) / length * #100 in
  {| radius := radius;
     averageDistance := averageDistance;
     percentEscaped := percentEscaped |}.

(** The callback of [results], for a batch of [sampleSize] paths. *)
Definition simulate {W} (sampleSize : nat) (thetaStram : Iterable W num) (radius : num)
  : M W SimulationResults :=
  distances <- take (createDistanceStream 5 thetaStram (Some radius)) sampleSize ;;
  ret (aggregate radius distances).

(** [[...results]]: one batch per radius, in the order of the radii, all
    drawing on the one [thetaStram]. *)
Fixpoint results {W} (sampleSize : nat) (thetaStram : Iterable W num) (radiusStream : list num)
  : M W (list SimulationResults) :=
  match radiusStream with
  | [] => ret []
  | radius :: rest =>
      r <- simulate sampleSize thetaStram radius ;;
      rs <- results sampleSize thetaStram rest ;;
      ret (r :: rs)
  end.

End Program.

Arguments SimulationResults num : clear implicits.

(** ** The run *)

(** [data.results] of [writeResults], which is [[...results]]: the whole
    sweep, over the radii of [createRadiusStream(significantFigures)], of
    [sampleSize] paths each, all drawn from the one [createThetaStream()];
    [fuel] bounds the rounds of the radius loop and the rejections of one
    draw of an angle. *)
Definition data_results {num} `{Number num} (random : nat -> num) (fuel : nat)
  : M nat (list (SimulationResults num)) :=
  match createRadiusStream fuel significantFigures with
  | Some radiusStream => results sampleSize (createThetaStream random fuel) radiusStream
  | None => fun _ => None
  end.

(** [[...results]] with the console: the callback of [results] first
    prints [Simulating at r=${radius}], then simulates the batch. A line
    of the console is kept as the radius it names, together with the
    state of the angle stream at the time it was printed. *)
Fixpoint results_logged {num} `{Number num} {W} (sampleSize : nat)
    (thetaStram : Iterable W num) (radiusStream : list num)
  : M (W * list (num * W)) (list (SimulationResults num)) :=
  match radiusStream with
  | [] => ret []
  | radius :: rest =>
      fun '(w, console) =>
        let console := console ++ [(radius, w)] in
        match simulate sampleSize thetaStram radius w with
        | Some (r, w') =>
            match results_logged sampleSize thetaStram rest (w', console) with
            | Some (rs, state) => Some (r :: rs, state)
            | None => None
            end
        | None => None
        end
  end.

(** ** Test harness: injected sources and instrumentation *)

(** A generator object that yields [a 0], [a 1], ... for ever; its state
    is the index of the next element. *)
Definition sequenceGenerator {A} (a : nat -> A) : Iterable nat A :=
  JSGenerator (fun i => Some (Some (a i), S i)).

(** [it] with a counter of the values pulled from it. *)
Definition counted {W A} (it : Iterable W A) : Iterable (W * nat) A :=
  JSGenerator (fun '(w, pulls) =>
    match pull it w with
    | Some (v, w') => Some (v, (w', S pulls))
    | None => None
    end).

(** Two iterables with separate states, side by side. *)
Definition on_fst {W1 W2 A} (it : Iterable W1 A) : Iterable (W1 * W2) A :=
  JSGenerator (fun '(w1, w2) =>
    match pull it w1 with
    | Some (v, w1') => Some (v, (w1', w2))
    | None => None
    end).

Definition on_snd {W1 W2 A} (it : Iterable W2 A) : Iterable (W1 * W2) A :=
  JSGenerator (fun '(w1, w2) =>
    match pull it w2 with
    | Some (v, w2') => Some (v, (w1, w2'))
    | None => None
    end).

(** The [j]-th point [pointStream] yields from the state [calls]: the
    candidate angle, the value it is tested against, and the test of
    [createThetaStream]. *)
Section Candidates.

Context {num : Type} `{Number num}.
Variable random : nat -> num.

Definition candidate (calls j : nat) : num :=
  (random (calls + 2 * j) * Math_PI)%num.

Definition coin (calls j : nat) : num :=
  random (calls + 2 * j + 1).

Definition accepted (calls j : nat) : bool :=
  (coin calls j <=? Math_sin (candidate calls j))%num.

End Candidates.

(** A binary64 arithmetic whose [Math.cos] is constantly [-1] (every step
    straight away from the origin) and whose [Math.sin] is constantly [1]
    (every candidate accepted): enough to run the program on. *)
Definition Straight64 : Number float :=
  Binary64 (fun _ => (-1)%float) (fun _ => 1%float).

(** Neither an infinity nor NaN. *)
Definition is_finite64 (x : float) : bool :=
  match Prim2SF x with
  | S754_zero _ | S754_finite _ _ _ => true
  | S754_infinity _ | S754_nan => false
  end.

(** The doubles that the literals [1e308], [1e200] and [0.3] denote, and
    the double [1 + 2 ** -30]. *)
Definition d_1e308 : float := 0x1.1ccf385ebc8ap+1023%float.
Definition d_1e200 : float := 0x1.4e718d7d7625ap+664%float.
Definition d_0_3 : float := 0x1.3333333333333p-2%float.
Definition d_1_plus_2p30 : float := 0x1.00000004p+0%float.



(** The sum of a batch and the number of its distances at or beyond a
    radius, in exact arithmetic. *)
Definition sum (distances : list R) : R := fold_right Rplus 0%R distances.

Definition escaped (radius : R) (distances : list R) : nat :=
  length (filter (fun d => Rleb radius d) distances).


(** The iterator of an array, [elements.values()], or a generator that
    yields the elements and returns: an iterator object that is its own
    iterable. Its state is the index of the next element; past the end its
    [value] is [undefined], for good. *)
Definition arrayIterator {A} (elements : list A) : Iterable nat A :=
  JSGenerator (fun i => Some (nth_error elements i, S i)).

(** The batch of [sampleSize] paths of five steps against [radius] that
    reads the angles [a start, a (start + 1), ...]: the [k]-th path folds
    the five angles from position [start + k * 5]. *)
Definition batch {num} `{Number num} (a : nat -> num) (radius : num)
    (sampleSize start : nat) : list (option num) :=
  List.map
    (fun k => Some (reduce (Some radius)
                      (List.map (fun j => Some (a j)) (seq (start + k * 5) 5))))
    (seq 0 sampleSize).

(** ** Values of doubles

    A finite double is [m * 2 ^ e] for a significand [m] and an exponent
    [e] of at least [-1074]; the operations on two of them meet exponents
    no lower than [- bias]. Two such values are compared through the
    integers [m * 2 ^ (e + bias)]. *)

Definition bias : Z := 2200.

Definition scaled (m e : Z) : Z := (m * 2 ^ (e + bias))%Z.

(** The exponent that [shr_fexp] shifts [(M, E)] to. *)
Definition round_exponent (M E : Z) : Z :=
  Z.max E (SpecFloat.fexp prec emax (Zdigits2 M + E)).

(** A float between [P * 2 ^ eP] and [Q * 2 ^ eQ] in magnitude, of sign
    [s] unless it is a zero. *)
Definition bounded_by (s : bool) (P eP Q eQ : Z) (x : spec_float) : Prop :=
  match x with
  | S754_zero _ => P = 0%Z
  | S754_finite s' m e =>
      s' = s
      /\ (scaled P eP <= scaled (Z.pos m) e <= scaled Q eQ)%Z
      /\ (-1074 <= e <= eQ)%Z
  | _ => False
  end.

(** The doubles [1] and [2], and [2 ** 500]. *)
Definition one_SF : spec_float := S754_finite false 4503599627370496 (-52).
Definition two_SF : spec_float := S754_finite false 4503599627370496 (-51).
Definition d_2p500 : float := 0x1p+500%float.

(** ** Properties *)

Lemma powerRZ_2 (d : R) : powerRZ d 2 = (d * d)%R.
Proof. simpl. ring. Qed.

(** *** The step in exact arithmetic *)

Section ExactStep.

Local Open Scope R_scope.

Lemma calculateDistance_exact (d theta : R) :
  calculateDistance d theta = R_sqrt.sqrt (1 + d * d - 2 * d * cos theta).
Proof.
  unfold calculateDistance. cbn -[powerRZ]. now rewrite powerRZ_2.
Qed.

(** The radicand is the squared length of the vector from the origin to
    the end of the step, with the current point at [(d, 0)] and the step
    [(- cos theta, sin theta)]. *)
Lemma radicand_sum_of_squares (d theta : R) :
  1 + d * d - 2 * d * cos theta = Rsqr (d - cos theta) + Rsqr (sin theta).
Proof.
  pose proof (sin2_cos2 theta) as E. unfold Rsqr in *. lra.
Qed.

Lemma radicand_nonneg (d theta : R) : 0 <= 1 + d * d - 2 * d * cos theta.
Proof.
  rewrite radicand_sum_of_squares.
  pose proof (Rle_0_sqr (d - cos theta)).
  pose proof (Rle_0_sqr (sin theta)). lra.
Qed.

Lemma calculateDistance_from_origin (theta : R) : calculateDistance 0 theta = 1.
Proof.
  rewrite calculateDistance_exact.
  replace (1 + 0 * 0 - 2 * 0 * cos theta) with 1 by ring.
  apply sqrt_1.
Qed.

Lemma calculateDistance_towards_origin (d : R) :
  calculateDistance d 0 = Rabs (d - 1).
Proof.
  rewrite calculateDistance_exact, cos_0.
  replace (1 + d * d - 2 * d * 1) with (Rsqr (d - 1)) by (unfold Rsqr; ring).
  apply sqrt_Rsqr_abs.
Qed.

Lemma calculateDistance_away_from_origin (d : R) :
  0 <= d -> calculateDistance d PI = d + 1.
Proof.
  intros Hd. rewrite calculateDistance_exact, cos_PI.
  replace (1 + d * d - 2 * d * -1) with (Rsqr (d + 1)) by (unfold Rsqr; ring).
  apply sqrt_Rsqr. lra.
Qed.

End ExactStep.

(** *** The step in binary64 *)

(** Once [d ** 2] has overflowed, the radicand is [Infinity] minus
    something: [Infinity] or NaN, whatever [Math.cos] returned. *)
Lemma calculateDistance_binary64_1e200 cos64 sin64 (theta : float) :
  is_finite64 (@calculateDistance float (Binary64 cos64 sin64) d_1e200 theta) = false.
Proof.
  unfold calculateDistance, is_finite64. cbn.
  rewrite sqrt_spec, sub_spec.
  match goal with
  | |- context [SF64sub ?a ?b] => change a with (S754_infinity false); generalize b
  end.
  intros [s | s | | s m e]; try reflexivity.
  destruct s; reflexivity.
Qed.

(** With [2 * d] overflowed as well and [Math.cos(0) = 1], the radicand is
    [Infinity - Infinity]. *)
Lemma calculateDistance_binary64_1e308 cos64 sin64 :
  cos64 0%float = 1%float ->
  @calculateDistance float (Binary64 cos64 sin64) d_1e308 0%float = PrimFloat.nan.
Proof.
  intros Hcos. unfold calculateDistance. cbn. rewrite Hcos. reflexivity.
Qed.

(** The first step, from the origin: [2 * 0 * c] is a zero for every
    finite [c], and [1 - 0 = 1]. *)
Lemma calculateDistance_binary64_from_origin cos64 sin64 (theta : float) :
  is_finite64 (cos64 theta) = true ->
  @calculateDistance float (Binary64 cos64 sin64) 0%float theta = 1%float.
Proof.
  unfold calculateDistance, is_finite64. cbn. intros Hc.
  apply Prim2SF_inj. rewrite sqrt_spec, sub_spec, mul_spec.
  destruct (Prim2SF (cos64 theta)) as [s | s | | s m e]; try discriminate;
    destruct s; reflexivity.
Qed.

(** A rounded square root carries no minus sign. *)
Lemma binary_round_aux_positive (m e : Z) (l : location) :
  match binary_round_aux prec emax false m e l with
  | S754_zero s | S754_infinity s | S754_finite s _ _ => s = false
  | S754_nan => True
  end.
Proof.
  unfold binary_round_aux.
  destruct (shr_fexp prec emax m e l) as [mrs e1].
  destruct (shr_fexp prec emax _ e1 loc_Exact) as [mrs2 e2].
  destruct (shr_m mrs2); trivial.
  destruct (e2 <=? emax - prec)%Z; trivial.
Qed.

Lemma sqrt64_never_negative (x : float) :
  PrimFloat.leb 0 (PrimFloat.sqrt x) = true
  \/ PrimFloat.is_nan (PrimFloat.sqrt x) = true.
Proof.
  unfold PrimFloat.is_nan. rewrite leb_spec, eqb_spec, sqrt_spec.
  change (Prim2SF 0) with (S754_zero false).
  unfold SF64sqrt, SFsqrt.
  destruct (Prim2SF x) as [s | [|] | | [|] m e]; cbn; auto.
  destruct (SFsqrt_core_binary prec emax (Z.pos m) e) as [[mz ez] lz].
  pose proof (binary_round_aux_positive mz ez lz) as Hs.
  destruct (binary_round_aux prec emax false mz ez lz) as [s | s | | s m' e'];
    cbn; auto; subst; cbn; auto.
Qed.

Lemma mul64_comm (x y : float) : (x * y)%float = (y * x)%float.
Proof.
  apply Prim2SF_inj. rewrite !mul_spec. unfold SF64mul, SFmul.
  destruct (Prim2SF x) as [sx | sx | | sx mx ex], (Prim2SF y) as [sy | sy | | sy my ey];
    try reflexivity; try (now rewrite xorb_comm).
  now rewrite xorb_comm, Pos.mul_comm, Z.add_comm.
Qed.

(** *** Rounding in binary64

    What the specification of the primitive floats says about rounding:
    the shifts of [shr] are floor divisions by powers of two, rounding
    to nearest adds at most one unit in the last place, and so a rounded
    result stays between any two doubles that the exact result lies
    between. *)

Section Rounding.

Local Unset Implicit Arguments.
Local Open Scope Z_scope.

Lemma digits2_pos_size (p : positive) : digits2_pos p = Pos.size p.
Proof. induction p; cbn; now rewrite ?IHp. Qed.

Lemma Zdigits2_le (m a : Z) : 0 <= a -> 0 <= m < 2 ^ a -> Zdigits2 m <= a.
Proof.
  intros Ha [Hm0 Hm]. destruct m as [| p | p]; cbn; [lia | | lia].
  rewrite digits2_pos_size.
  pose proof (Pos.size_le p) as Hsize.
  apply Pos2Z.pos_le_pos in Hsize. rewrite Pos2Z.inj_pow in Hsize.
  change (Z.pos p~0) with (2 * Z.pos p) in Hsize.
  assert (Hlt : 2 ^ Z.pos (Pos.size p) < 2 ^ (a + 1)).
  { rewrite Z.pow_add_r by lia. lia. }
  apply Z.pow_lt_mono_r_iff in Hlt; lia.
Qed.

Lemma Zdigits2_gt (m : Z) : 0 <= m -> m < 2 ^ Zdigits2 m.
Proof.
  intros Hm. destruct m as [| p | p]; [reflexivity | | lia].
  cbn. rewrite digits2_pos_size.
  pose proof (Pos.size_gt p) as Hsize.
  apply Pos2Z.pos_lt_pos in Hsize. now rewrite Pos2Z.inj_pow in Hsize.
Qed.

Lemma Zdigits2_ge (m : Z) : 0 < m -> 2 ^ (Zdigits2 m - 1) <= m.
Proof.
  intros Hm. destruct m as [| p | p]; try lia.
  cbn [Zdigits2]. rewrite digits2_pos_size.
  pose proof (Pos.size_le p) as Hsize.
  apply Pos2Z.pos_le_pos in Hsize. rewrite Pos2Z.inj_pow in Hsize.
  change (Z.pos p~0) with (2 * Z.pos p) in Hsize.
  replace (Z.pos (Pos.size p)) with (Z.pos (Pos.size p) - 1 + 1) in Hsize by lia.
  rewrite Z.pow_add_r in Hsize by lia. lia.
Qed.

Lemma Zdigits2_nonneg (m : Z) : 0 <= Zdigits2 m.
Proof. destruct m; cbn; lia. Qed.

Lemma pow2_pos (k : Z) : 0 <= k -> 0 < 2 ^ k.
Proof. intros. apply Z.pow_pos_nonneg; lia. Qed.

Lemma pow2_xO (p : positive) : 2 ^ Z.pos p~0 = 2 ^ Z.pos p * 2 ^ Z.pos p.
Proof. rewrite <- Z.pow_add_r by lia. f_equal. lia. Qed.

Lemma pow2_xI (p : positive) : 2 ^ Z.pos p~1 = 2 * (2 ^ Z.pos p * 2 ^ Z.pos p).
Proof.
  replace (Z.pos p~1) with (1 + (Z.pos p + Z.pos p)) by lia.
  rewrite Z.pow_add_r by lia. now rewrite Z.pow_add_r by lia.
Qed.

(** Shifting right. *)

Lemma shr_1_m (r : shr_record) :
  0 <= shr_m r -> shr_m (shr_1 r) = shr_m r / 2.
Proof.
  destruct r as [m r s]. cbn [shr_m]. intros Hm.
  rewrite <- Z.div2_div.
  destruct m as [| [p | p |] | p]; cbn; try reflexivity; lia.
Qed.

Lemma iter_shr_1_m (p : positive) :
  forall r, 0 <= shr_m r ->
            shr_m (iter_pos shr_1 p r) = shr_m r / 2 ^ Z.pos p.
Proof.
  assert (Hpow : forall q : positive, 0 < 2 ^ Z.pos q) by (intros q; apply pow2_pos; lia).
  induction p as [p IH | p IH |]; intros r Hr; cbn [iter_pos].
  - assert (H1 : 0 <= shr_m (shr_1 r)) by (rewrite shr_1_m by lia; apply Z.div_pos; lia).
    assert (H2 : 0 <= shr_m (iter_pos shr_1 p (shr_1 r))).
    { rewrite IH by lia. apply Z.div_pos; [lia | apply Hpow]. }
    rewrite IH, IH, shr_1_m by lia. pose proof (Hpow p).
    rewrite !Z.div_div by lia. now rewrite pow2_xI.
  - assert (H2 : 0 <= shr_m (iter_pos shr_1 p r)).
    { rewrite IH by lia. apply Z.div_pos; [lia | apply Hpow]. }
    rewrite IH, IH by lia. pose proof (Hpow p).
    rewrite Z.div_div by lia. now rewrite pow2_xO.
  - rewrite shr_1_m by lia. reflexivity.
Qed.

(** Shifting out zeros leaves no round or sticky bit. *)
Lemma shr_1_exact (m : Z) :
  0 <= m -> shr_1 (Build_shr_record (2 * m) false false) = Build_shr_record m false false.
Proof. intros Hm. destruct m as [| p | p]; try reflexivity; lia. Qed.

Lemma iter_shr_1_exact (p : positive) :
  forall m, 0 <= m ->
            iter_pos shr_1 p (Build_shr_record (m * 2 ^ Z.pos p) false false)
            = Build_shr_record m false false.
Proof.
  induction p as [p IH | p IH |]; intros m Hm; cbn [iter_pos].
  - rewrite pow2_xI.
    replace (m * (2 * (2 ^ Z.pos p * 2 ^ Z.pos p)))
      with (2 * (m * 2 ^ Z.pos p * 2 ^ Z.pos p)) by ring.
    pose proof (pow2_pos (Z.pos p)).
    rewrite shr_1_exact by nia. rewrite IH by nia. now rewrite IH.
  - rewrite pow2_xO. rewrite Z.mul_assoc.
    pose proof (pow2_pos (Z.pos p)).
    rewrite IH by nia. now rewrite IH.
  - change (2 ^ 1) with 2. rewrite Z.mul_comm. now apply shr_1_exact.
Qed.

Lemma shr_record_of_loc_m (m : Z) (l : location) : shr_m (shr_record_of_loc m l) = m.
Proof. destruct l as [| []]; reflexivity. Qed.

Lemma round_nearest_even_bounds (m : Z) (l : location) :
  m <= round_nearest_even m l <= m + 1.
Proof.
  destruct l as [| []]; cbn; try lia. destruct (Z.even m); lia.
Qed.

Lemma shr_fexp_spec (M E : Z) (l : location) :
  0 <= M ->
  snd (shr_fexp prec emax M E l) = round_exponent M E
  /\ shr_m (fst (shr_fexp prec emax M E l)) = M / 2 ^ (round_exponent M E - E).
Proof.
  intros HM. unfold shr_fexp, round_exponent.
  set (n := SpecFloat.fexp prec emax (Zdigits2 M + E) - E).
  destruct n as [| p | p] eqn:En; cbn [shr fst snd].
  - rewrite shr_record_of_loc_m. replace (Z.max E _ - E) with 0 by lia.
    rewrite Z.div_1_r. lia.
  - rewrite iter_shr_1_m by (rewrite shr_record_of_loc_m; lia).
    rewrite shr_record_of_loc_m. replace (Z.max E _ - E) with (Z.pos p) by lia. lia.
  - rewrite shr_record_of_loc_m. replace (Z.max E _ - E) with 0 by lia.
    rewrite Z.div_1_r. lia.
Qed.

Lemma shr_fexp_exact (M E : Z) :
  0 <= M ->
  M mod 2 ^ (round_exponent M E - E) = 0 ->
  loc_of_shr_record (fst (shr_fexp prec emax M E loc_Exact)) = loc_Exact.
Proof.
  intros HM Hmod. unfold shr_fexp, round_exponent in *.
  set (n := SpecFloat.fexp prec emax (Zdigits2 M + E) - E) in *.
  destruct n as [| p | p] eqn:En; cbn [shr fst snd shr_record_of_loc]; try reflexivity.
  replace (Z.max E _ - E) with (Z.pos p) in Hmod by lia.
  pose proof (pow2_pos (Z.pos p) ltac:(lia)) as Hp.
  assert (HMdiv : M = M / 2 ^ Z.pos p * 2 ^ Z.pos p).
  { rewrite (Z.div_mod M (2 ^ Z.pos p)) at 1 by lia. lia. }
  rewrite HMdiv. rewrite iter_shr_1_exact by (apply Z.div_pos; lia). reflexivity.
Qed.

(** Values. *)

Lemma scaled_le_iff (M E P eP : Z) :
  - bias <= E <= eP -> (scaled M E <= scaled P eP <-> M <= P * 2 ^ (eP - E)).
Proof.
  intros HE. unfold scaled.
  replace (eP + bias) with (eP - E + (E + bias)) by lia.
  rewrite (Z.pow_add_r 2 (eP - E) (E + bias)) by lia. pose proof (pow2_pos (E + bias) ltac:(lia)). nia.
Qed.

Lemma scaled_lt_iff (M E P eP : Z) :
  - bias <= E <= eP -> (scaled M E < scaled P eP <-> M < P * 2 ^ (eP - E)).
Proof.
  intros HE. unfold scaled.
  replace (eP + bias) with (eP - E + (E + bias)) by lia.
  rewrite (Z.pow_add_r 2 (eP - E) (E + bias)) by lia. pose proof (pow2_pos (E + bias) ltac:(lia)). nia.
Qed.

Lemma scaled_shift (m e k : Z) : 0 <= k -> - bias <= e -> scaled (m * 2 ^ k) e = scaled m (e + k).
Proof.
  intros Hk He. unfold scaled. replace (e + k + bias) with (k + (e + bias)) by lia.
  rewrite (Z.pow_add_r 2 k (e + bias)) by lia. ring.
Qed.

Lemma scaled_mono (m m' e : Z) : - bias <= e -> m <= m' -> scaled m e <= scaled m' e.
Proof. intros He Hm. unfold scaled. pose proof (pow2_pos (e + bias) ltac:(lia)). nia. Qed.

Lemma scaled_floor (m e j : Z) : 0 <= j -> - bias <= e -> 0 <= m -> scaled (m / 2 ^ j) (e + j) <= scaled m e.
Proof.
  intros Hj He Hm. rewrite <- scaled_shift by lia. apply scaled_mono; [lia |].
  pose proof (pow2_pos j Hj). rewrite Z.mul_comm. now apply Z.mul_div_le.
Qed.

Lemma round_exponent_ge (M E : Z) : E <= round_exponent M E.
Proof. unfold round_exponent. lia. Qed.

Lemma round_exponent_emin (M E : Z) : -1074 <= round_exponent M E.
Proof. unfold round_exponent, SpecFloat.fexp, SpecFloat.emin, prec, emax. lia. Qed.

(** The two shifts of [binary_round_aux], named. *)
Lemma binary_round_aux_steps (s : bool) (M E : Z) (l : location) :
  0 <= M ->
  let e1 := round_exponent M E in
  let m1 := M / 2 ^ (e1 - E) in
  let l1 := loc_of_shr_record (fst (shr_fexp prec emax M E l)) in
  let m2 := round_nearest_even m1 l1 in
  let e3 := round_exponent m2 e1 in
  let m3 := m2 / 2 ^ (e3 - e1) in
  binary_round_aux prec emax s M E l
  = match m3 with
    | 0 => S754_zero s
    | Z.pos m => if e3 <=? emax - prec then S754_finite s m e3 else S754_infinity s
    | Z.neg _ => S754_nan
    end.
Proof.
  intros HM e1 m1 l1 m2 e3 m3. unfold binary_round_aux.
  destruct (shr_fexp_spec M E l HM) as [He1 Hm1].
  destruct (shr_fexp prec emax M E l) as [r1 e1'] eqn:E1. cbn [fst snd] in *.
  subst e1'. fold e1 in Hm1. fold m1 in Hm1.
  assert (Hm1pos : 0 <= m1) by (apply Z.div_pos; [lia | apply pow2_pos; pose proof (round_exponent_ge M E); lia]).
  subst l1. cbn [fst]. rewrite Hm1. fold m2.
  assert (Hm2pos : 0 <= m2) by (pose proof (round_nearest_even_bounds m1 (loc_of_shr_record r1)); lia).
  destruct (shr_fexp_spec m2 e1 loc_Exact Hm2pos) as [He3 Hm3].
  fold e1.
  destruct (shr_fexp prec emax m2 e1 loc_Exact) as [r3 e3'] eqn:E3. cbn [fst snd] in *.
  subst e3'. fold e3 in Hm3. fold m3 in Hm3. rewrite Hm3. reflexivity.
Qed.

(** Rounding does not step over an upper bound [(P, eP)] with [P] within
    the precision: into zero or a positive float of no greater value. The
    bound may be met only when nothing was lost before. *)
Lemma round_upper (s : bool) (M E : Z) (l : location) (P eP : Z) :
  0 <= M ->
  - bias <= E <= eP ->
  0 <= P < 2 ^ 53 ->
  -1074 <= eP <= 971 ->
  scaled M E < scaled P eP \/ (l = loc_Exact /\ scaled M E <= scaled P eP) ->
  match binary_round_aux prec emax s M E l with
  | S754_zero s' => s' = s
  | S754_finite s' m e => s' = s /\ scaled (Z.pos m) e <= scaled P eP /\ -1074 <= e <= eP
  | _ => False
  end.
Proof.
  intros HM HE HP HeP Hval.
  rewrite binary_round_aux_steps by exact HM. cbv zeta.
  set (e1 := round_exponent M E).
  set (m1 := M / 2 ^ (e1 - E)).
  set (l1 := loc_of_shr_record (fst (shr_fexp prec emax M E l))).
  set (m2 := round_nearest_even m1 l1).
  set (e3 := round_exponent m2 e1).
  set (m3 := m2 / 2 ^ (e3 - e1)).
  assert (HMle : M <= P * 2 ^ (eP - E)).
  { destruct Hval as [H | [_ H]]; [apply scaled_lt_iff in H | apply scaled_le_iff in H]; lia. }
  assert (Hpow : 2 ^ 53 * 2 ^ (eP - E) = 2 ^ (53 + eP - E)).
  { rewrite <- Z.pow_add_r by lia. f_equal. lia. }
  assert (HPpos : 0 < 2 ^ (eP - E)) by (apply pow2_pos; lia).
  assert (HD : Zdigits2 M <= 53 + eP - E).
  { apply Zdigits2_le; [lia |]. split; [lia |]. rewrite <- Hpow. nia. }
  assert (He1ge : E <= e1) by apply round_exponent_ge.
  assert (He1le : e1 <= eP).
  { unfold e1, round_exponent, SpecFloat.fexp, SpecFloat.emin, prec, emax. lia. }
  set (j := e1 - E) in *. set (k := eP - e1).
  assert (Hj : 0 <= j) by (unfold j; lia).
  assert (Hk : 0 <= k) by (unfold k; lia).
  assert (Hpj : 0 < 2 ^ j) by (apply pow2_pos; lia).
  assert (Hpk : 0 < 2 ^ k) by (apply pow2_pos; lia).
  assert (Hsplit : 2 ^ (eP - E) = 2 ^ k * 2 ^ j).
  { rewrite <- Z.pow_add_r by lia. f_equal. unfold k, j. lia. }
  assert (Hfloor : 2 ^ j * m1 <= M) by (apply Z.mul_div_le; lia).
  assert (Hm1ge : 0 <= m1) by (apply Z.div_pos; lia).
  assert (Hm2le : m2 <= P * 2 ^ k).
  { pose proof (round_nearest_even_bounds m1 l1) as Hround. fold m2 in Hround.
    destruct (Z_lt_le_dec m1 (P * 2 ^ k)) as [Hlt | Hge]; [lia |].
    (* the bound is met: nothing was shifted out *)
    assert (HMeq : M = P * 2 ^ k * 2 ^ j) by (rewrite Hsplit in HMle; nia).
    destruct Hval as [Hstrict | [-> _]].
    - apply scaled_lt_iff in Hstrict; [| lia]. rewrite Hsplit in Hstrict. nia.
    - assert (Hexact : l1 = loc_Exact).
      { unfold l1. apply shr_fexp_exact; [exact HM |]. fold e1. fold j.
        rewrite HMeq. apply Z.mod_mul. lia. }
      assert (Hm1eq : m1 = P * 2 ^ k).
      { unfold m1. rewrite HMeq. apply Z.div_mul. lia. }
      unfold m2. rewrite Hexact. cbn [round_nearest_even]. lia. }
  assert (Hm2ge : 0 <= m2).
  { pose proof (round_nearest_even_bounds m1 l1) as Hround. fold m2 in Hround. lia. }
  assert (HD2 : Zdigits2 m2 <= 53 + k).
  { apply Zdigits2_le; [lia |]. split; [lia |]. rewrite Z.pow_add_r by lia. nia. }
  assert (He3ge : e1 <= e3) by apply round_exponent_ge.
  assert (He3le : e3 <= eP).
  { unfold e3, round_exponent, SpecFloat.fexp, SpecFloat.emin, prec, emax, k in *. lia. }
  assert (He3min : -1074 <= e3) by apply round_exponent_emin.
  assert (Hm3ge : 0 <= m3) by (apply Z.div_pos; [lia | apply pow2_pos; lia]).
  destruct m3 as [| m3' | m3'] eqn:Em3; [reflexivity | | lia].
  replace (e3 <=? emax - prec) with true
    by (symmetry; apply Z.leb_le; unfold emax, prec; lia).
  split; [reflexivity |]. split; [| lia].
  rewrite <- Em3. unfold m3.
  replace e3 with (e1 + (e3 - e1)) at 2 by lia.
  eapply Z.le_trans; [apply scaled_floor; lia |].
  eapply Z.le_trans; [apply (scaled_mono m2 (P * 2 ^ k)); lia |].
  rewrite scaled_shift by lia. unfold k. replace (e1 + (eP - e1)) with eP by lia. lia.
Qed.

(** One shift keeps the value above a lower bound within the precision. *)
Lemma shift_lower (M E P eP : Z) :
  0 <= M ->
  - bias <= E ->
  0 <= P < 2 ^ 53 ->
  -1074 <= eP ->
  scaled P eP <= scaled M E ->
  scaled P eP <= scaled (M / 2 ^ (round_exponent M E - E)) (round_exponent M E).
Proof.
  intros HM HE HP HeP Hval.
  pose proof (round_exponent_ge M E) as Hge.
  set (e1 := round_exponent M E) in *.
  destruct (Z.eq_dec e1 E) as [Heq | Hne].
  { rewrite Heq, Z.sub_diag, Z.div_1_r. exact Hval. }
  assert (Hshift : e1 = SpecFloat.fexp prec emax (Zdigits2 M + E))
    by (unfold e1, round_exponent in *; lia).
  destruct (Z_le_gt_dec e1 eP) as [Hle | Hgt].
  - (* the bound is on the grid of the result *)
    unfold scaled in *.
    replace (eP + bias) with (eP - e1 + (e1 - E) + (E + bias)) in Hval by lia.
    rewrite !Z.pow_add_r in Hval by lia.
    replace (eP + bias) with (eP - e1 + (e1 + bias)) by lia.
    rewrite Z.pow_add_r by lia.
    pose proof (pow2_pos (E + bias) ltac:(lia)). pose proof (pow2_pos (e1 + bias) ltac:(lia)).
    pose proof (pow2_pos (e1 - E) ltac:(lia)).
    assert (Hdiv : P * 2 ^ (eP - e1) <= M / 2 ^ (e1 - E)).
    { apply Z.div_le_lower_bound; [lia |]. nia. }
    nia.
  - (* the result fills the precision, the bound lies a binade below *)
    assert (Hnorm : e1 = Zdigits2 M + E - 53).
    { unfold SpecFloat.fexp, SpecFloat.emin, prec, emax in Hshift. lia. }
    assert (HMpos : 0 < M).
    { destruct (Z.eq_dec M 0) as [-> |]; [cbn in Hnorm; lia | lia]. }
    pose proof (Zdigits2_ge M HMpos) as Hdig.
    assert (Hm1 : 2 ^ 52 <= M / 2 ^ (e1 - E)).
    { apply Z.div_le_lower_bound; [apply pow2_pos; lia |].
      rewrite <- Z.pow_add_r by lia.
      replace (e1 - E + 52) with (Zdigits2 M - 1) by lia. exact Hdig. }
    unfold scaled.
    replace (e1 + bias) with (e1 - eP - 1 + (1 + (eP + bias))) by lia.
    assert (HG : 0 <= eP + bias) by (unfold bias; lia).
    rewrite (Z.pow_add_r 2 (e1 - eP - 1)) by lia. rewrite (Z.pow_add_r 2 1) by lia.
    pose proof (pow2_pos (eP + bias) HG).
    pose proof (pow2_pos (e1 - eP - 1) ltac:(lia)). change (2 ^ 1) with 2.
    set (x := 2 ^ (eP + bias)) in *. set (y := 2 ^ (e1 - eP - 1)) in *.
    set (m1 := M / 2 ^ (e1 - E)) in *.
    apply Z.le_trans with (2 ^ 53 * x); [apply Z.mul_le_mono_nonneg_r; lia |].
    apply Z.le_trans with (2 ^ 52 * (y * (2 * x))).
    + change (2 ^ 53) with (2 ^ 52 * 2). rewrite <- Z.mul_assoc.
      apply Z.mul_le_mono_nonneg_l; [lia | nia].
    + apply Z.mul_le_mono_nonneg_r; [nia | exact Hm1].
Qed.

(** Rounding does not step below a lower bound [(P, eP)] with [P] within
    the precision. *)
Lemma round_lower (s : bool) (M E : Z) (l : location) (P eP : Z) :
  0 <= M ->
  - bias <= E ->
  0 <= P < 2 ^ 53 ->
  -1074 <= eP ->
  scaled P eP <= scaled M E ->
  match binary_round_aux prec emax s M E l with
  | S754_zero s' => s' = s /\ P = 0
  | S754_finite s' m e => s' = s /\ scaled P eP <= scaled (Z.pos m) e /\ -1074 <= e
  | S754_infinity s' => s' = s
  | S754_nan => False
  end.
Proof.
  intros HM HE HP HeP Hval.
  rewrite binary_round_aux_steps by exact HM. cbv zeta.
  set (e1 := round_exponent M E).
  set (m1 := M / 2 ^ (e1 - E)).
  set (l1 := loc_of_shr_record (fst (shr_fexp prec emax M E l))).
  set (m2 := round_nearest_even m1 l1).
  set (e3 := round_exponent m2 e1).
  set (m3 := m2 / 2 ^ (e3 - e1)).
  assert (He1ge : E <= e1) by apply round_exponent_ge.
  assert (Hm1ge : 0 <= m1) by (apply Z.div_pos; [lia | apply pow2_pos; lia]).
  assert (H1 : scaled P eP <= scaled m1 e1) by (apply shift_lower; assumption).
  pose proof (round_nearest_even_bounds m1 l1) as Hround. fold m2 in Hround.
  assert (H2 : scaled P eP <= scaled m2 e1).
  { eapply Z.le_trans; [exact H1 |]. apply scaled_mono; lia. }
  assert (H3 : scaled P eP <= scaled m3 e3) by (apply shift_lower; try assumption; lia).
  assert (He3min : -1074 <= e3) by apply round_exponent_emin.
  assert (He3ge : e1 <= e3) by apply round_exponent_ge.
  assert (Hm3ge : 0 <= m3) by (apply Z.div_pos; [lia | apply pow2_pos; lia]).
  destruct m3 as [| m3' | m3'] eqn:Em3; [| | lia].
  - split; [reflexivity |].
    unfold scaled in H3. pose proof (pow2_pos (eP + bias) ltac:(unfold bias; lia)). nia.
  - destruct (e3 <=? emax - prec); [| reflexivity]. repeat split; [exact H3 | lia].
Qed.

Lemma scaled_pos (m e : Z) : 0 < m -> - bias <= e -> 0 < scaled m e.
Proof. intros Hm He. unfold scaled. pose proof (pow2_pos (e + bias) ltac:(lia)). nia. Qed.

Lemma scaled_nonneg (m e : Z) : 0 <= m -> 0 <= scaled m e.
Proof. intros Hm. unfold scaled. pose proof (Z.pow_nonneg 2 (e + bias) ltac:(lia)). nia. Qed.

Lemma scaled_zero (e : Z) : scaled 0 e = 0.
Proof. reflexivity. Qed.

Lemma scaled_add (a b e : Z) : scaled (a + b) e = scaled a e + scaled b e.
Proof. unfold scaled. ring. Qed.

Lemma scaled_sub (a b e : Z) : scaled (a - b) e = scaled a e - scaled b e.
Proof. unfold scaled. ring. Qed.

Lemma scaled_mul (a e b f : Z) :
  -1074 <= e -> -1074 <= f -> scaled (a * b) (e + f) * 2 ^ bias = scaled a e * scaled b f.
Proof.
  intros He Hf. unfold scaled.
  replace (a * b * 2 ^ (e + f + bias) * 2 ^ bias) with (a * b * (2 ^ (e + f + bias) * 2 ^ bias)) by ring.
  rewrite <- Z.pow_add_r by (unfold bias; lia).
  replace (a * 2 ^ (e + bias) * (b * 2 ^ (f + bias))) with (a * b * (2 ^ (e + bias) * 2 ^ (f + bias))) by ring.
  rewrite <- Z.pow_add_r by (unfold bias; lia).
  do 2 f_equal. lia.
Qed.

Lemma round_bounds (s : bool) (M E : Z) (l : location) (P eP Q eQ : Z) :
  0 <= M ->
  - bias <= E <= eQ ->
  0 <= P < 2 ^ 53 -> -1074 <= eP ->
  0 <= Q < 2 ^ 53 -> -1074 <= eQ <= 971 ->
  scaled P eP <= scaled M E ->
  scaled M E < scaled Q eQ \/ (l = loc_Exact /\ scaled M E <= scaled Q eQ) ->
  bounded_by s P eP Q eQ (binary_round_aux prec emax s M E l).
Proof.
  intros HM HE HP HeP HQ HeQ Hlow Hup.
  pose proof (round_upper s M E l Q eQ HM HE HQ HeQ Hup) as U.
  pose proof (round_lower s M E l P eP HM (proj1 HE) HP HeP Hlow) as L.
  destruct (binary_round_aux prec emax s M E l) as [s' | s' | | s' m e]; cbn;
    try contradiction.
  - tauto.
  - destruct U as (-> & U1 & U2). destruct L as (_ & L1 & _). auto.
Qed.

Lemma iter_xO (m d : positive) : Z.pos (Pos.iter xO m d) = Z.pos m * 2 ^ Z.pos d.
Proof.
  induction d as [| d IH] using Pos.peano_ind.
  - cbn [Pos.iter]. rewrite Pos2Z.inj_xO. change (2 ^ 1) with 2. ring.
  - rewrite Pos.iter_succ, Pos2Z.inj_xO, IH, Pos2Z.inj_succ, Z.pow_succ_r by lia. ring.
Qed.

Lemma shl_align_spec (mx : positive) (ex ex' : Z) :
  snd (shl_align mx ex ex') = Z.min ex ex'
  /\ Z.pos (fst (shl_align mx ex ex')) = Z.pos mx * 2 ^ (ex - Z.min ex ex').
Proof.
  unfold shl_align. destruct (ex' - ex) as [| d | d] eqn:Hd; cbn [fst snd].
  - replace (Z.min ex ex') with ex by lia. rewrite Z.sub_diag. split; [reflexivity | cbn; lia].
  - replace (Z.min ex ex') with ex by lia. rewrite Z.sub_diag. split; [reflexivity | cbn; lia].
  - replace (Z.min ex ex') with ex' by lia. split; [reflexivity |].
    rewrite iter_xO. do 2 f_equal. lia.
Qed.

Lemma scaled_shl_align (mx : positive) (ex ex' : Z) :
  - bias <= Z.min ex ex' ->
  scaled (Z.pos (fst (shl_align mx ex ex'))) (Z.min ex ex') = scaled (Z.pos mx) ex.
Proof.
  intros H. destruct (shl_align_spec mx ex ex') as [_ ->].
  rewrite scaled_shift by lia. f_equal. lia.
Qed.

Lemma binary_round_bounds (s : bool) (mx : positive) (ex : Z) (P eP Q eQ : Z) :
  -1074 <= ex ->
  0 <= P < 2 ^ 53 -> -1074 <= eP ->
  0 <= Q < 2 ^ 53 -> -1074 <= eQ <= 971 ->
  scaled P eP <= scaled (Z.pos mx) ex <= scaled Q eQ ->
  bounded_by s P eP Q eQ (binary_round prec emax s mx ex).
Proof.
  intros Hex HP HeP HQ HeQ [Hlow Hup]. unfold binary_round.
  set (ex' := SpecFloat.fexp prec emax (Z.pos (digits2_pos mx) + ex)).
  pose proof (shl_align_spec mx ex ex') as [Hsnd Hfst].
  assert (Hex' : -1074 <= ex')
    by (unfold ex', SpecFloat.fexp, SpecFloat.emin, prec, emax; lia).
  assert (Hmin : - bias <= Z.min ex ex') by (unfold bias; lia).
  pose proof (scaled_shl_align mx ex ex' Hmin) as Hval.
  destruct (shl_align mx ex ex') as [mz ez]. cbn [fst snd] in *. subst ez.
  apply round_bounds; try assumption; try lia.
  - split; [lia |].
    (* the aligned exponent is at most that of the bound *)
    assert (Hdig : 2 ^ (Zdigits2 (Z.pos mx) - 1) <= Z.pos mx) by (apply Zdigits2_ge; lia).
    assert (Hlt : scaled (Z.pos mx) ex < 2 ^ (53 + eQ + bias)).
    { eapply Z.le_lt_trans; [exact Hup |]. unfold scaled.
      replace (53 + eQ + bias) with (53 + (eQ + bias)) by lia.
      rewrite (Z.pow_add_r 2 53 (eQ + bias)) by (unfold bias; lia).
      pose proof (pow2_pos (eQ + bias) ltac:(unfold bias; lia)). nia. }
    assert (Hge : 2 ^ (Zdigits2 (Z.pos mx) - 1 + (ex + bias)) <= scaled (Z.pos mx) ex).
    { unfold scaled. pose proof (Zdigits2_nonneg (Z.pos mx)).
      assert (0 < Zdigits2 (Z.pos mx)) by (cbn; lia).
      rewrite (Z.pow_add_r 2 (Zdigits2 (Z.pos mx) - 1) (ex + bias)) by (unfold bias; lia).
      pose proof (pow2_pos (ex + bias) ltac:(unfold bias; lia)). nia. }
    assert (Hexp : Zdigits2 (Z.pos mx) - 1 + (ex + bias) < 53 + eQ + bias).
    { apply (Z.pow_lt_mono_r_iff 2); [lia | unfold bias; lia | lia]. }
    change (Z.pos (digits2_pos mx)) with (Zdigits2 (Z.pos mx)) in ex'.
    unfold ex', SpecFloat.fexp, SpecFloat.emin, prec, emax. lia.
  - right. split; [reflexivity |]. rewrite Hval. exact Hup.
Qed.

Lemma scaled_le_inv (a b e : Z) : - bias <= e -> scaled a e <= scaled b e -> a <= b.
Proof. intros He H. unfold scaled in H. pose proof (pow2_pos (e + bias) ltac:(lia)). nia. Qed.

(** The sum of two positive floats. *)
Lemma SFadd_finite (mx : positive) (ex : Z) (my : positive) (ey : Z) (P eP Q eQ : Z) :
  -1074 <= ex -> -1074 <= ey ->
  0 <= P < 2 ^ 53 -> -1074 <= eP ->
  0 <= Q < 2 ^ 53 -> -1074 <= eQ <= 971 ->
  scaled P eP <= scaled (Z.pos mx) ex + scaled (Z.pos my) ey <= scaled Q eQ ->
  bounded_by false P eP Q eQ
    (SFadd prec emax (S754_finite false mx ex) (S754_finite false my ey)).
Proof.
  intros Hex Hey HP HeP HQ HeQ Hval. cbn [SFadd cond_Zopp].
  set (ez := Z.min ex ey).
  assert (Hx : scaled (Z.pos (fst (shl_align mx ex ez))) ez = scaled (Z.pos mx) ex).
  { replace ez with (Z.min ex ez) at 2 by (unfold ez; lia).
    apply scaled_shl_align. unfold ez, bias. lia. }
  assert (Hy : scaled (Z.pos (fst (shl_align my ey ez))) ez = scaled (Z.pos my) ey).
  { replace ez with (Z.min ey ez) at 2 by (unfold ez; lia).
    apply scaled_shl_align. unfold ez, bias. lia. }
  set (a := fst (shl_align mx ex ez)) in *.
  set (b := fst (shl_align my ey ez)) in *.
  change (Z.pos a + Z.pos b) with (Z.pos (a + b)). cbn [binary_normalize].
  apply binary_round_bounds; try assumption; [unfold ez; lia |].
  rewrite Pos2Z.inj_add, scaled_add, Hx, Hy. exact Hval.
Qed.

(** A positive float less a float of no greater value. *)
Lemma SFsub_finite (mx : positive) (ex : Z) (sy : bool) (my : positive) (ey : Z)
    (Q eQ : Z) :
  -1074 <= ex -> -1074 <= ey ->
  0 <= Q < 2 ^ 53 -> -1074 <= eQ <= 971 ->
  (sy = false -> scaled (Z.pos my) ey <= scaled (Z.pos mx) ex) ->
  scaled (Z.pos mx) ex + scaled (Z.pos my) ey <= scaled Q eQ ->
  bounded_by false 0 0 Q eQ
    (SFsub prec emax (S754_finite false mx ex) (S754_finite sy my ey)).
Proof.
  intros Hex Hey HQ HeQ Hle Hup. cbn [SFsub cond_Zopp].
  set (ez := Z.min ex ey).
  assert (Hez : - bias <= ez) by (unfold ez, bias; lia).
  assert (Hx : scaled (Z.pos (fst (shl_align mx ex ez))) ez = scaled (Z.pos mx) ex).
  { replace ez with (Z.min ex ez) at 2 by (unfold ez; lia).
    apply scaled_shl_align. unfold ez, bias. lia. }
  assert (Hy : scaled (Z.pos (fst (shl_align my ey ez))) ez = scaled (Z.pos my) ey).
  { replace ez with (Z.min ey ez) at 2 by (unfold ez; lia).
    apply scaled_shl_align. unfold ez, bias. lia. }
  set (a := Z.pos (fst (shl_align mx ex ez))) in *.
  set (b := Z.pos (fst (shl_align my ey ez))) in *.
  assert (Ha : 0 < a) by (unfold a; lia).
  assert (Hb : 0 < b) by (unfold b; lia).
  pose proof (scaled_pos (Z.pos mx) ex ltac:(lia) ltac:(unfold bias; lia)) as Hvx.
  pose proof (scaled_pos (Z.pos my) ey ltac:(lia) ltac:(unfold bias; lia)) as Hvy.
  assert (Hdiff : 0 <= a - cond_Zopp sy b
                  /\ scaled (a - cond_Zopp sy b) ez <= scaled Q eQ).
  { destruct sy; cbn [cond_Zopp].
    - split; [lia |]. replace (a - - b) with (a + b) by lia.
      rewrite scaled_add, Hx, Hy. exact Hup.
    - specialize (Hle eq_refl). split.
      + enough (b <= a) by lia. apply (scaled_le_inv b a ez); [exact Hez |].
        rewrite Hx, Hy. exact Hle.
      + rewrite scaled_sub, Hx, Hy. lia. }
  destruct Hdiff as [Hpos Hval].
  destruct (a - cond_Zopp sy b) as [| p | p] eqn:Ep; cbn [binary_normalize].
  - reflexivity.
  - apply binary_round_bounds; try assumption; try lia.
    split; [| exact Hval]. rewrite scaled_zero. apply scaled_nonneg. lia.
  - lia.
Qed.

Lemma div2_bounds (a : Z) : 2 * Z.div2 a <= a <= 2 * Z.div2 a + 1.
Proof. rewrite (Z.div2_odd a) at 2 3. destruct (Z.odd a); cbn [Z.b2z]; lia. Qed.

(** The square root of a positive float: zero or positive, and finite. *)
Lemma SFsqrt_finite (m : positive) (e : Z) :
  -1074 <= e ->
  scaled (Z.pos m) e < 2 ^ (1024 + bias) ->
  bounded_by false 0 0 (2 ^ 52) 460 (SFsqrt prec emax (S754_finite false m e)).
Proof.
  intros He Hval. cbn [SFsqrt]. unfold SFsqrt_core_binary.
  set (d := Zdigits2 (Z.pos m)).
  set (e' := Z.min (SpecFloat.fexp prec emax (Z.div2 (d + e + 1))) (Z.div2 e)).
  set (s := e - 2 * e').
  assert (Hd : 2 ^ (d - 1) <= Z.pos m) by (apply Zdigits2_ge; lia).
  assert (Hdpos : 0 < d) by (unfold d; cbn; lia).
  assert (Hde : d + e <= 1024).
  { assert (H : 2 ^ (d - 1 + (e + bias)) < 2 ^ (1024 + bias)).
    { eapply Z.le_lt_trans; [| exact Hval]. unfold scaled.
      rewrite (Z.pow_add_r 2 (d - 1) (e + bias)) by (unfold bias; lia).
      pose proof (pow2_pos (e + bias) ltac:(unfold bias; lia)). nia. }
    apply (Z.pow_lt_mono_r_iff 2) in H; unfold bias in *; lia. }
  pose proof (div2_bounds (d + e + 1)) as Hhalf1.
  pose proof (div2_bounds e) as Hhalf2.
  assert (He'up : e' <= 459).
  { unfold e', SpecFloat.fexp, SpecFloat.emin, prec, emax. lia. }
  assert (He'low : -1074 <= e').
  { unfold e', SpecFloat.fexp, SpecFloat.emin, prec, emax. lia. }
  assert (Hs : 0 <= s).
  { unfold s, e'. lia. }
  set (m' := match s with
             | 0 => Z.pos m
             | Z.pos _ => Z.shiftl (Z.pos m) s
             | Z.neg _ => 0
             end).
  assert (Hm' : m' = Z.pos m * 2 ^ s).
  { unfold m'. destruct s as [| p | p] eqn:Es.
    - cbn. lia.
    - now rewrite Z.shiftl_mul_pow2 by lia.
    - lia. }
  pose proof (Z.sqrtrem_spec m' ltac:(rewrite Hm'; pose proof (pow2_pos s Hs); nia)) as Hroot.
  destruct (Z.sqrtrem m') as [q r].
  destruct Hroot as [Hsq Hr].
  assert (Hq : 0 <= q) by lia.
  set (X := 2 ^ (512 - e')).
  assert (HX : 0 < X) by (apply pow2_pos; lia).
  assert (HqX : q < X).
  { destruct (Z_lt_le_dec q X) as [Hlt | Hge]; [exact Hlt | exfalso].
    assert (HXX : X * X = 2 ^ (1024 - 2 * e')).
    { unfold X. rewrite <- Z.pow_add_r by lia. f_equal. lia. }
    assert (H1 : 2 ^ (1024 - 2 * e') <= Z.pos m * 2 ^ s) by nia.
    assert (H2 : 2 ^ (1024 - 2 * e') * 2 ^ (2 * e' + bias) = 2 ^ (1024 + bias)).
    { rewrite <- Z.pow_add_r by (unfold bias; lia). f_equal. lia. }
    assert (H3 : 2 ^ s * 2 ^ (2 * e' + bias) = 2 ^ (e + bias)).
    { rewrite <- Z.pow_add_r by (unfold bias; lia). f_equal. unfold s. lia. }
    pose proof (pow2_pos (2 * e' + bias) ltac:(unfold bias; lia)) as Hp.
    unfold scaled in Hval. rewrite <- H2, <- H3 in Hval. nia. }
  apply round_bounds; try lia.
  - unfold bias. lia.
  - rewrite scaled_zero. apply scaled_nonneg. exact Hq.
  - left. unfold scaled.
    replace (460 + bias) with (512 - e' + (e' + bias) - 52) by lia.
    pose proof (pow2_pos (e' + bias) ltac:(unfold bias; lia)) as Hp.
    assert (H4 : 2 ^ 52 * 2 ^ (512 - e' + (e' + bias) - 52) = X * 2 ^ (e' + bias)).
    { unfold X. rewrite <- !Z.pow_add_r by (unfold bias; lia). f_equal. lia. }
    rewrite H4. nia.
Qed.

(** The distance after a step. *)

Lemma bias_ge : 2200 <= bias.
Proof. unfold bias. lia. Qed.

Lemma scaled_pow2 (j k : Z) : 0 <= j -> - bias <= k -> scaled (2 ^ j) k = 2 ^ (j + k + bias).
Proof.
  intros Hj Hk. unfold scaled. rewrite <- Z.pow_add_r by lia. f_equal. lia.
Qed.

Lemma scaled_one : scaled 4503599627370496 (-52) = 2 ^ bias.
Proof.
  change 4503599627370496 with (2 ^ 52). rewrite scaled_pow2 by (pose proof bias_ge; lia).
  now replace (52 + -52 + bias) with bias by lia.
Qed.

Lemma pow2_le (a b : Z) : 0 <= a <= b -> 2 ^ a <= 2 ^ b.
Proof. intros H. apply Z.pow_le_mono_r; lia. Qed.

Lemma pow2_double (a : Z) : 0 <= a -> 2 ^ a + 2 ^ a = 2 ^ (a + 1).
Proof. intros H. rewrite Z.pow_add_r by lia. change (2 ^ 1) with 2. lia. Qed.

Lemma bounded_by_finite (s : bool) (P eP Q eQ : Z) (x : spec_float) :
  0 < P ->
  bounded_by s P eP Q eQ x ->
  exists m e, x = S754_finite s m e
              /\ scaled P eP <= scaled (Z.pos m) e <= scaled Q eQ /\ -1074 <= e <= eQ.
Proof.
  intros HP H. destruct x as [s' | s' | | s' m e]; cbn [bounded_by] in H; try contradiction.
  - lia.
  - destruct H as (-> & H1 & H2). now exists m, e.
Qed.

(** [d * 1] has the value of [d]. *)
Lemma SFmul_one (md : positive) (ed : Z) :
  Z.pos md < 2 ^ 53 -> -1074 <= ed <= 971 ->
  exists m1 e1,
    SFmul prec emax (S754_finite false md ed) one_SF = S754_finite false m1 e1
    /\ scaled (Z.pos m1) e1 = scaled (Z.pos md) ed /\ -1074 <= e1 <= ed.
Proof.
  intros Hmd Hed. unfold one_SF. cbn [SFmul xorb].
  assert (Hval : scaled (Z.pos (md * 4503599627370496)) (ed + -52) = scaled (Z.pos md) ed).
  { rewrite Pos2Z.inj_mul. change (Z.pos 4503599627370496) with (2 ^ 52).
    rewrite scaled_shift by (pose proof bias_ge; lia). f_equal. lia. }
  destruct (bounded_by_finite false (Z.pos md) ed (Z.pos md) ed
              (binary_round_aux prec emax false (Z.pos (md * 4503599627370496))
                 (ed + -52) loc_Exact)) as (m1 & e1 & H1 & H2 & H3); [lia | |].
  - apply round_bounds; try lia.
    + pose proof bias_ge. lia.
    + right. split; [reflexivity | lia].
  - exists m1, e1. split; [exact H1 |]. split; lia.
Qed.

(** [2 * d] has twice the value of [d]. *)
Lemma SFmul_two (md : positive) (ed : Z) :
  Z.pos md < 2 ^ 53 -> -1074 <= ed <= 970 ->
  exists mC eC,
    SFmul prec emax two_SF (S754_finite false md ed) = S754_finite false mC eC
    /\ scaled (Z.pos mC) eC = scaled (Z.pos md) (ed + 1) /\ -1074 <= eC <= ed + 1.
Proof.
  intros Hmd Hed. unfold two_SF. cbn [SFmul xorb].
  assert (Hval : scaled (Z.pos (4503599627370496 * md)) (-51 + ed) = scaled (Z.pos md) (ed + 1)).
  { rewrite Pos2Z.inj_mul, Z.mul_comm. change (Z.pos 4503599627370496) with (2 ^ 52).
    rewrite scaled_shift by (pose proof bias_ge; lia). f_equal. lia. }
  destruct (bounded_by_finite false (Z.pos md) (ed + 1) (Z.pos md) (ed + 1)
              (binary_round_aux prec emax false (Z.pos (4503599627370496 * md))
                 (-51 + ed) loc_Exact)) as (mC & eC & H1 & H2 & H3); [lia | |].
  - apply round_bounds; try lia.
    + pose proof bias_ge. lia.
    + right. split; [reflexivity | lia].
  - exists mC, eC. split; [exact H1 |]. split; lia.
Qed.

(** [d * d], for [d] up to [2 ^ 500], above any bound that the exact
    square is above. *)
Lemma SFmul_square (md : positive) (ed : Z) (m1 : positive) (e1 : Z) (PL eL : Z) :
  scaled (Z.pos m1) e1 = scaled (Z.pos md) ed ->
  scaled (Z.pos md) ed <= 2 ^ (500 + bias) ->
  -1074 <= ed <= 448 -> -1074 <= e1 <= ed ->
  0 <= PL < 2 ^ 53 -> -1074 <= eL ->
  scaled PL eL * 2 ^ bias <= scaled (Z.pos md) ed * scaled (Z.pos md) ed ->
  bounded_by false PL eL (2 ^ 52) 948
    (SFmul prec emax (S754_finite false md ed) (S754_finite false m1 e1)).
Proof.
  intros H1 Hup Hed He1 HPL HeL Hlow. cbn [SFmul xorb].
  pose proof bias_ge as HG.
  pose proof (scaled_mul (Z.pos md) ed (Z.pos m1) e1 ltac:(lia) ltac:(lia)) as Hprod.
  rewrite H1, <- Pos2Z.inj_mul in Hprod.
  pose proof (pow2_pos bias ltac:(lia)) as HpG.
  pose proof (scaled_pos (Z.pos md) ed ltac:(lia) ltac:(lia)) as Hv.
  set (v := scaled (Z.pos md) ed) in *.
  set (w := scaled (Z.pos (md * m1)) (ed + e1)) in *.
  apply round_bounds; try lia.
  - fold w. nia.
  - right. split; [reflexivity |]. fold w.
    rewrite scaled_pow2 by lia. replace (52 + 948 + bias) with (1000 + bias) by lia.
    assert (Hsq : v * v <= 2 ^ (500 + bias) * 2 ^ (500 + bias)) by (apply Z.mul_le_mono_nonneg; lia).
    assert (Hpow : 2 ^ (500 + bias) * 2 ^ (500 + bias) = 2 ^ (1000 + bias) * 2 ^ bias).
    { rewrite <- !Z.pow_add_r by lia. apply (f_equal (Z.pow 2)). lia. }
    pose proof (pow2_pos (1000 + bias) ltac:(lia)). nia.
Qed.

(** [1 + a]. *)
Lemma SFadd_one (a : spec_float) (PL eL Pb eb : Z) :
  bounded_by false PL eL (2 ^ 52) 948 a ->
  0 <= PL ->
  0 < Pb < 2 ^ 53 -> -1074 <= eb ->
  scaled Pb eb <= 2 ^ bias + scaled PL eL ->
  bounded_by false Pb eb (2 ^ 52) 949 (SFadd prec emax one_SF a).
Proof.
  intros Ha HPL HPb Heb Hlow. pose proof bias_ge as HG.
  assert (Hup : 2 ^ bias + scaled (2 ^ 52) 948 <= scaled (2 ^ 52) 949).
  { rewrite !scaled_pow2 by lia.
    replace (52 + 949 + bias) with (52 + 948 + bias + 1) by lia.
    rewrite <- pow2_double by lia.
    pose proof (pow2_le bias (52 + 948 + bias) ltac:(lia)). lia. }
  destruct a as [sa | sa | | sa ma ea]; cbn [bounded_by] in Ha; try contradiction.
  - subst PL. rewrite scaled_zero in Hlow. unfold one_SF. cbn [SFadd bounded_by].
    rewrite scaled_one. split; [reflexivity |]. split; [| lia].
    split; [lia |]. pose proof (scaled_nonneg (2 ^ 52) 948 ltac:(lia)). lia.
  - destruct Ha as (-> & [Ha1 Ha2] & Ha3). unfold one_SF.
    apply SFadd_finite; try lia. rewrite scaled_one. lia.
Qed.

(** [x * c] for [|c| <= 1]. *)
Lemma SFmul_within_one (mC : positive) (eC : Z) (c : spec_float) (Q eQ : Z) :
  -1074 <= eC <= eQ ->
  0 <= Q < 2 ^ 53 -> -1074 <= eQ <= 971 ->
  scaled (Z.pos mC) eC <= scaled Q eQ ->
  (exists sc, bounded_by sc 0 0 4503599627370496 (-52) c) ->
  exists sD, bounded_by sD 0 0 Q eQ (SFmul prec emax (S754_finite false mC eC) c).
Proof.
  intros HeC HQ HeQ Hval [sc Hc]. pose proof bias_ge as HG.
  destruct c as [s | s | | s mc ec]; cbn [bounded_by] in Hc; try contradiction.
  - exists false. reflexivity.
  - destruct Hc as (-> & [_ Hc1] & Hc2). exists sc. cbn [SFmul xorb].
    rewrite scaled_one in Hc1.
    pose proof (scaled_mul (Z.pos mC) eC (Z.pos mc) ec ltac:(lia) ltac:(lia)) as Hprod.
    rewrite <- Pos2Z.inj_mul in Hprod.
    pose proof (pow2_pos bias ltac:(lia)) as HpG.
    pose proof (scaled_pos (Z.pos mC) eC ltac:(lia) ltac:(lia)) as Hv.
    pose proof (scaled_pos (Z.pos mc) ec ltac:(lia) ltac:(lia)) as Hw.
    set (v := scaled (Z.pos mC) eC) in *. set (w := scaled (Z.pos mc) ec) in *.
    set (p := scaled (Z.pos (mC * mc)) (eC + ec)) in *.
    apply round_bounds; try lia.
    + rewrite scaled_zero. fold p. nia.
    + right. split; [reflexivity |]. fold p.
      assert (p * 2 ^ bias <= v * 2 ^ bias) by (rewrite Hprod; apply Z.mul_le_mono_nonneg_l; lia).
      nia.
Qed.

(** [b - x] for [x] of magnitude at most [b], with [b] up to [2 ^ 1001]. *)
Lemma SFsub_within (mB : positive) (eB : Z) (x : spec_float) (sx : bool) (P eP : Z) :
  scaled P eP <= scaled (Z.pos mB) eB <= scaled (2 ^ 52) 949 ->
  -1074 <= eB <= 949 ->
  bounded_by sx 0 0 P eP x ->
  bounded_by false 0 0 (2 ^ 52) 950 (SFsub prec emax (S754_finite false mB eB) x).
Proof.
  intros [HB1 HB2] HeB Hx. pose proof bias_ge as HG.
  assert (Hup : scaled (2 ^ 52) 949 + scaled (2 ^ 52) 949 = scaled (2 ^ 52) 950).
  { rewrite !scaled_pow2 by lia. rewrite pow2_double by lia. apply (f_equal (Z.pow 2)). lia. }
  pose proof (scaled_nonneg (2 ^ 52) 949 ltac:(lia)) as Hnn.
  pose proof (scaled_nonneg P eP) as HnnP.
  destruct x as [s | s | | s mx ex]; cbn [bounded_by] in Hx; try contradiction.
  - cbn [SFsub bounded_by]. split; [reflexivity |]. split; [| lia].
    split; [rewrite scaled_zero; apply scaled_nonneg; lia | lia].
  - destruct Hx as (-> & [_ Hx1] & Hx2).
    apply SFsub_finite; try lia.
Qed.

(** The square root of a non-negative float is a non-negative float. *)
Lemma SFsqrt_bounds (x : spec_float) :
  bounded_by false 0 0 (2 ^ 52) 950 x ->
  bounded_by false 0 0 (2 ^ 52) 460 (SFsqrt prec emax x).
Proof.
  intros Hx. pose proof bias_ge as HG.
  destruct x as [s | s | | s m e]; cbn [bounded_by] in Hx; try contradiction.
  - reflexivity.
  - destruct Hx as (-> & [_ Hx1] & Hx2). apply SFsqrt_finite; [lia |].
    eapply Z.le_lt_trans; [exact Hx1 |]. rewrite scaled_pow2 by lia.
    apply Z.pow_lt_mono_r; lia.
Qed.

(** What validity says of a finite double. *)
Lemma valid_finite (s : bool) (m : positive) (e : Z) :
  SpecFloat.valid_binary prec emax (S754_finite s m e) = true ->
  Z.pos m < 2 ^ 53 /\ -1074 <= e <= 971 /\ (-1074 < e -> 2 ^ 52 <= Z.pos m).
Proof.
  cbn [SpecFloat.valid_binary]. unfold bounded, canonical_mantissa.
  intros H. apply andb_true_iff in H. destruct H as [Hc Hb].
  apply Z.eqb_eq in Hc. apply Z.leb_le in Hb.
  change (Z.pos (digits2_pos m)) with (Zdigits2 (Z.pos m)) in Hc.
  pose proof (Zdigits2_gt (Z.pos m) ltac:(lia)) as Hgt.
  pose proof (Zdigits2_ge (Z.pos m) ltac:(lia)) as Hge.
  assert (Hdpos : 0 < Zdigits2 (Z.pos m)) by (cbn; lia).
  unfold SpecFloat.fexp, SpecFloat.emin, prec, emax in *.
  assert (Hd : Zdigits2 (Z.pos m) <= 53) by lia.
  split; [| split; [lia |]].
  - eapply Z.lt_le_trans; [exact Hgt |]. apply pow2_le. lia.
  - intros Hn. replace 52 with (Zdigits2 (Z.pos m) - 1) by lia. exact Hge.
Qed.

Lemma compare_cont_Eq (p q : positive) :
  Pos.compare_cont Eq p q = (Z.pos p ?= Z.pos q).
Proof. reflexivity. Qed.

(** A valid non-negative double below the power of two [2 ^ (52 + k)]. *)
Lemma SFleb_below_pow2 (mx : positive) (ex k : Z) :
  Z.pos mx < 2 ^ 53 -> -1074 <= ex -> -1074 <= k ->
  SFleb (S754_finite false mx ex) (S754_finite false 4503599627370496 k) = true ->
  ex <= k /\ scaled (Z.pos mx) ex <= scaled (2 ^ 52) k.
Proof.
  intros Hmx Hex Hk. unfold SFleb. cbn [SFcompare]. rewrite compare_cont_Eq.
  pose proof bias_ge as HG.
  destruct (Z.compare_spec ex k) as [-> | Hlt | Hgt]; [| | discriminate].
  - destruct (Z.compare_spec (Z.pos mx) (Z.pos 4503599627370496)) as [Heq | Hl | Hg];
      [| | discriminate]; intros _; (split; [lia |]); apply scaled_mono; lia.
  - intros _. split; [lia |]. rewrite scaled_pow2 by lia. unfold scaled.
    apply Z.le_trans with (2 ^ 53 * 2 ^ (ex + bias)).
    + apply Z.mul_le_mono_nonneg_r; [apply Z.pow_nonneg; lia | lia].
    + rewrite <- Z.pow_add_r by lia. apply pow2_le. lia.
Qed.

(** A valid negative double above [- 2 ^ (52 + k)]. *)
Lemma SFleb_above_neg_pow2 (mx : positive) (ex k : Z) :
  Z.pos mx < 2 ^ 53 -> -1074 <= ex -> -1074 <= k ->
  SFleb (S754_finite true 4503599627370496 k) (S754_finite true mx ex) = true ->
  ex <= k /\ scaled (Z.pos mx) ex <= scaled (2 ^ 52) k.
Proof.
  intros Hmx Hex Hk. unfold SFleb. cbn [SFcompare]. rewrite compare_cont_Eq.
  pose proof bias_ge as HG.
  destruct (Z.compare_spec k ex) as [<- | Hlt | Hgt]; [| discriminate |].
  - destruct (Z.compare_spec (Z.pos 4503599627370496) (Z.pos mx)) as [Heq | Hl | Hg];
      cbn [CompOpp]; [| discriminate |]; intros _; (split; [lia |]); apply scaled_mono; lia.
  - intros _. split; [lia |]. rewrite scaled_pow2 by lia. unfold scaled.
    apply Z.le_trans with (2 ^ 53 * 2 ^ (ex + bias)).
    + apply Z.mul_le_mono_nonneg_r; [apply Z.pow_nonneg; lia | lia].
    + rewrite <- Z.pow_add_r by lia. apply pow2_le. lia.
Qed.

(** A double between [-1] and [1]. *)
Lemma within_one (c : spec_float) :
  SpecFloat.valid_binary prec emax c = true ->
  SFleb (S754_finite true 4503599627370496 (-52)) c = true ->
  SFleb c one_SF = true ->
  exists sc, bounded_by sc 0 0 4503599627370496 (-52) c.
Proof.
  intros Hv Hlow Hup.
  destruct c as [s | s | | s m e].
  - exists false. reflexivity.
  - destruct s; discriminate.
  - discriminate.
  - exists s. destruct (valid_finite s m e Hv) as (Hm & He & _).
    cbn [bounded_by]. split; [reflexivity |].
    assert (H : e <= -52 /\ scaled (Z.pos m) e <= scaled (2 ^ 52) (-52)).
    { destruct s.
      - apply SFleb_above_neg_pow2; try lia. exact Hlow.
      - apply SFleb_below_pow2; try lia. exact Hup. }
    destruct H as [H1 H2]. split; [| lia].
    split; [rewrite scaled_zero; apply scaled_nonneg; lia | exact H2].
Qed.

Lemma bounded_by_one_SF : bounded_by false 0 0 (2 ^ 52) 950 one_SF.
Proof.
  unfold one_SF. cbn [bounded_by]. pose proof bias_ge as HG.
  split; [reflexivity |]. split; [| lia]. rewrite scaled_one, scaled_zero, scaled_pow2 by lia.
  split; [apply Z.pow_nonneg; lia | apply pow2_le; lia].
Qed.

(** The chain of roundings from a positive [d], given a lower bound
    [(PL, eL)] of [d * d] that makes [1 + d * d] at least [2 * d]. *)
Lemma distance_SF_from (md : positive) (ed : Z) (c : spec_float) (PL eL : Z) :
  Z.pos md < 2 ^ 53 -> -1074 <= ed <= 448 ->
  scaled (Z.pos md) ed <= 2 ^ (500 + bias) ->
  (exists sc, bounded_by sc 0 0 4503599627370496 (-52) c) ->
  0 <= PL < 2 ^ 53 -> -1074 <= eL ->
  scaled PL eL * 2 ^ bias <= scaled (Z.pos md) ed * scaled (Z.pos md) ed ->
  scaled (Z.pos md) (ed + 1) <= 2 ^ bias + scaled PL eL ->
  bounded_by false 0 0 (2 ^ 52) 460
    (SFsqrt prec emax
       (SFsub prec emax
          (SFadd prec emax one_SF
             (SFmul prec emax (S754_finite false md ed)
                (SFmul prec emax (S754_finite false md ed) one_SF)))
          (SFmul prec emax (SFmul prec emax two_SF (S754_finite false md ed)) c))).
Proof.
  intros Hmd Hed Hup Hc HPL HeL Hsq Hone. pose proof bias_ge as HG.
  destruct (SFmul_one md ed Hmd ltac:(lia)) as (m1 & e1 & -> & Hv1 & He1).
  destruct (SFmul_two md ed Hmd ltac:(lia)) as (mC & eC & -> & HvC & HeC).
  pose proof (SFmul_square md ed m1 e1 PL eL Hv1 Hup Hed He1 HPL HeL Hsq) as HA.
  pose proof (SFadd_one _ PL eL (Z.pos md) (ed + 1) HA (proj1 HPL)
                ltac:(lia) ltac:(lia) Hone) as HB.
  destruct (bounded_by_finite false (Z.pos md) (ed + 1) (2 ^ 52) 949 _ ltac:(lia) HB)
    as (mB & eB & -> & HvB & HeB).
  destruct (SFmul_within_one mC eC c (Z.pos md) (ed + 1)
              ltac:(lia) ltac:(lia) ltac:(lia) ltac:(lia) Hc) as [sD HD].
  apply SFsqrt_bounds.
  apply (SFsub_within mB eB _ sD (Z.pos md) (ed + 1)); [exact HvB | lia | exact HD].
Qed.

Lemma scaled_succ (m e : Z) : - bias <= e -> scaled m (e + 1) = 2 * scaled m e.
Proof.
  intros He. unfold scaled. replace (e + 1 + bias) with (e + bias + 1) by lia.
  rewrite (Z.pow_add_r 2 (e + bias) 1) by lia. change (2 ^ 1) with 2. ring.
Qed.

(** [Math.sqrt(1 + d * (d * 1) - 2 * d * c)] on the doubles [0 <= d <= 2 ^ 500]
    and [-1 <= c <= 1]: a non-negative double, zero or finite. *)
Lemma distance_SF (d c : spec_float) :
  SpecFloat.valid_binary prec emax d = true ->
  SpecFloat.valid_binary prec emax c = true ->
  SFleb (S754_zero false) d = true ->
  SFleb d (S754_finite false 4503599627370496 448) = true ->
  SFleb (S754_finite true 4503599627370496 (-52)) c = true ->
  SFleb c one_SF = true ->
  bounded_by false 0 0 (2 ^ 52) 460
    (SFsqrt prec emax
       (SFsub prec emax
          (SFadd prec emax one_SF (SFmul prec emax d (SFmul prec emax d one_SF)))
          (SFmul prec emax (SFmul prec emax two_SF d) c))).
Proof.
  intros Hvd Hvc Hd0 Hd1 Hc0 Hc1. pose proof bias_ge as HG.
  pose proof (within_one c Hvc Hc0 Hc1) as Hc.
  destruct d as [sd | sd | | sd md ed].
  - (* from the origin *)
    apply SFsqrt_bounds. destruct Hc as [sc Hc].
    destruct c as [s | s | | s m e]; cbn [bounded_by] in Hc; try contradiction;
      destruct sd; exact bounded_by_one_SF.
  - destruct sd; discriminate.
  - discriminate.
  - destruct sd; [discriminate |].
    destruct (valid_finite false md ed Hvd) as (Hmd & Hed & Hnormal).
    destruct (SFleb_below_pow2 md ed 448 Hmd ltac:(lia) ltac:(lia) Hd1) as [Hed' Hup].
    rewrite scaled_pow2 in Hup by lia. replace (52 + 448 + bias) with (500 + bias) in Hup by lia.
    pose proof (scaled_pos (Z.pos md) ed ltac:(lia) ltac:(lia)) as Hv.
    pose proof (scaled_succ (Z.pos md) ed ltac:(lia)) as Htwice.
    pose proof (pow2_pos bias ltac:(lia)) as HpG.
    destruct (Z_le_gt_dec ed (-54)) as [Hsmall | Hbig];
      [| destruct (Z_le_gt_dec ed (-1)) as [Hmid | Hlarge]].
    + (* d < 1/2: 2 * d <= 1 *)
      apply (distance_SF_from md ed c 0 0); try assumption; try lia.
      * rewrite scaled_zero. nia.
      * rewrite scaled_zero, Z.add_0_r. unfold scaled.
        apply Z.le_trans with (2 ^ 53 * 2 ^ (ed + 1 + bias)).
        -- apply Z.mul_le_mono_nonneg_r; [apply Z.pow_nonneg; lia | lia].
        -- rewrite <- Z.pow_add_r by lia. apply pow2_le. lia.
    + (* 1/2 <= d < 2 ^ 52: d * d >= 2 * d - 1, a double *)
      specialize (Hnormal ltac:(lia)).
      assert (Hk : 2 ^ (- ed - 1) <= 2 ^ 52) by (apply pow2_le; lia).
      pose proof (pow2_pos (- ed - 1) ltac:(lia)) as Hkpos.
      assert (HL : scaled (Z.pos md - 2 ^ (- ed - 1)) (ed + 1) = 2 * scaled (Z.pos md) ed - 2 ^ bias).
      { rewrite scaled_sub, Htwice, scaled_pow2 by lia.
        now replace (- ed - 1 + (ed + 1) + bias) with bias by lia. }
      apply (distance_SF_from md ed c (Z.pos md - 2 ^ (- ed - 1)) (ed + 1));
        try assumption; try lia.
      rewrite HL. set (v := scaled (Z.pos md) ed) in *. set (t := 2 ^ bias) in *.
      assert (0 <= (v - t) * (v - t)) by apply Z.square_nonneg. lia.
    + (* 2 ^ 52 <= d: d * d >= 2 * d *)
      specialize (Hnormal ltac:(lia)).
      assert (Hv2 : 2 * 2 ^ bias <= scaled (Z.pos md) ed).
      { unfold scaled. apply Z.le_trans with (2 ^ 52 * 2 ^ bias); [lia |].
        apply Z.mul_le_mono_nonneg; try lia. apply pow2_le. lia. }
      apply (distance_SF_from md ed c (Z.pos md) (ed + 1)); try assumption; try lia.
      rewrite Htwice. set (v := scaled (Z.pos md) ed) in *. set (t := 2 ^ bias) in *. nia.
Qed.

End Rounding.

(** The constants of the step, as the specification of the primitive
    floats reads them. *)
Lemma Prim2SF_zero : Prim2SF 0 = S754_zero false.
Proof. vm_compute. reflexivity. Qed.

Lemma Prim2SF_one : Prim2SF 1 = S754_finite false 4503599627370496 (-52).
Proof. vm_compute. reflexivity. Qed.

Lemma Prim2SF_two : Prim2SF 2 = S754_finite false 4503599627370496 (-51).
Proof. vm_compute. reflexivity. Qed.

Lemma Prim2SF_minus_one : Prim2SF (-1) = S754_finite true 4503599627370496 (-52).
Proof. vm_compute. reflexivity. Qed.

Lemma Prim2SF_2p500 : Prim2SF d_2p500 = S754_finite false 4503599627370496 448.
Proof. vm_compute. reflexivity. Qed.

(** For a double [0 <= d <= 2 ** 500] and a cosine in [[-1, 1]], the
    step is a non-negative double: neither an infinity nor NaN. *)
Lemma calculateDistance_binary64_bounded (cos64 sin64 : float -> float) (d theta : float) :
  PrimFloat.leb 0 d = true ->
  PrimFloat.leb d d_2p500 = true ->
  PrimFloat.leb (-1) (cos64 theta) = true ->
  PrimFloat.leb (cos64 theta) 1 = true ->
  is_finite64 (@calculateDistance float (Binary64 cos64 sin64) d theta) = true
  /\ PrimFloat.leb 0 (@calculateDistance float (Binary64 cos64 sin64) d theta) = true.
Proof.
  intros Hd0 Hd1 Hc0 Hc1.
  rewrite leb_spec in Hd0, Hd1, Hc0, Hc1.
  rewrite Prim2SF_zero in Hd0. rewrite Prim2SF_2p500 in Hd1.
  rewrite Prim2SF_minus_one in Hc0. rewrite Prim2SF_one in Hc1.
  pose proof (distance_SF (Prim2SF d) (Prim2SF (cos64 theta))
                (Prim2SF_valid d) (Prim2SF_valid (cos64 theta)) Hd0 Hd1 Hc0 Hc1) as H.
  unfold calculateDistance, is_finite64. cbn.
  rewrite leb_spec, sqrt_spec, sub_spec, add_spec, !mul_spec.
  rewrite Prim2SF_zero, Prim2SF_one, Prim2SF_two.
  unfold one_SF, two_SF in H. unfold SF64sqrt, SF64sub, SF64add, SF64mul.
  destruct (SFsqrt prec emax _) as [s | s | | s m e]; cbn [bounded_by] in H;
    try contradiction.
  - split; reflexivity.
  - destruct H as (-> & _). split; reflexivity.
Qed.

(** **** C1 *)

(** C1. [calculateDistance] is a function of [(d, theta)] alone: it reads
    and writes no state, and in every arithmetic its value is
    [Math.sqrt(1 + d ** 2 - 2 * d * Math.cos(theta))]. In exact arithmetic
    that is [sqrt (1 + d^2 - 2 d cos theta)], the law-of-cosines distance
    from the origin to the point one unit step away from [(d, 0)] in the
    direction that makes the angle [theta] with the way back to the
    origin; this holds for every [d] and [theta], so for [d >= 0] and
    [theta] in [[0, pi]]. *)
Theorem calculateDistance_law_of_cosines :
  (forall (num : Type) (N : Number num) (d theta : num),
      calculateDistance d theta
      = Math_sqrt (#1 + d ** 2 - #2 * d * Math_cos theta)%num)
  /\ (forall d theta : R,
         calculateDistance d theta = R_sqrt.sqrt (1 + d ^ 2 - 2 * d * cos theta)%R
         /\ calculateDistance d theta
            = R_sqrt.sqrt (Rsqr (d - cos theta) + Rsqr (sin theta))%R).
Proof.
  split; [reflexivity |].
  intros d theta. rewrite calculateDistance_exact. split.
  - f_equal. ring.
  - now rewrite radicand_sum_of_squares.
Qed.

(** **** C2 *)

(** C2, as stated, fails in the program's arithmetic. [d = 1e200] and
    [d = 1e308] are non-negative finite doubles and [theta = 0] lies in
    [[0, pi]]; yet [calculateDistance(1e200, theta)] is not finite for any
    [theta], and [calculateDistance(1e308, 0)] is NaN for every
    [Math.cos] with [Math.cos(0) = 1]. *)
Lemma calculateDistance_binary64_not_finite :
  (PrimFloat.leb 0 d_1e200 = true /\ is_finite64 d_1e200 = true)
  /\ (PrimFloat.leb 0 d_1e308 = true /\ is_finite64 d_1e308 = true)
  /\ (PrimFloat.leb 0 0 = true /\ PrimFloat.leb 0 float_PI = true)
  /\ (forall cos64 sin64 theta,
         is_finite64 (@calculateDistance float (Binary64 cos64 sin64) d_1e200 theta)
         = false)
  /\ (forall cos64 sin64, cos64 0%float = 1%float ->
         PrimFloat.is_nan (@calculateDistance float (Binary64 cos64 sin64) d_1e308 0%float)
         = true).
Proof.
  repeat split; try reflexivity.
  - apply calculateDistance_binary64_1e200.
  - intros cos64 sin64 Hcos.
    now rewrite (calculateDistance_binary64_1e308 cos64 sin64 Hcos).
Qed.

(** C2, amended. In exact arithmetic, for every [d >= 0] and every [theta]
    in [[0, pi]], the radicand [1 + d^2 - 2 d cos theta] is non-negative,
    so the square root is taken of a non-negative real and the result is
    a non-negative real. In binary64 the result is never a negative
    number, for any arguments: it is [>= 0] or NaN. And for every double
    [0 <= d <= 2 ** 500], every [theta] and every [Math.cos] whose value
    at [theta] lies in [[-1, 1]], the result in binary64 is a finite
    double [>= 0]: no rounding of [1 + d ** 2] and [2 * d * Math.cos(theta)]
    makes the radicand negative, and nothing overflows. *)
Theorem calculateDistance_nonneg :
  (forall d theta : R,
      (0 <= d)%R -> (0 <= theta <= PI)%R ->
      (0 <= 1 + d ^ 2 - 2 * d * cos theta)%R
      /\ calculateDistance d theta = R_sqrt.sqrt (1 + d ^ 2 - 2 * d * cos theta)%R
      /\ (0 <= calculateDistance d theta)%R)
  /\ (forall (cos64 sin64 : float -> float) (d theta : float),
         PrimFloat.leb 0 (@calculateDistance float (Binary64 cos64 sin64) d theta) = true
         \/ PrimFloat.is_nan (@calculateDistance float (Binary64 cos64 sin64) d theta)
            = true)
  /\ (forall (cos64 sin64 : float -> float) (d theta : float),
         PrimFloat.leb 0 d = true ->
         PrimFloat.leb d d_2p500 = true ->
         PrimFloat.leb (-1) (cos64 theta) = true ->
         PrimFloat.leb (cos64 theta) 1 = true ->
         is_finite64 (@calculateDistance float (Binary64 cos64 sin64) d theta) = true
         /\ PrimFloat.leb 0 (@calculateDistance float (Binary64 cos64 sin64) d theta)
            = true).
Proof.
  split; [| split].
  - intros d theta _ _.
    replace (1 + d ^ 2 - 2 * d * cos theta)%R
      with (1 + d * d - 2 * d * cos theta)%R by ring.
    split; [apply radicand_nonneg |].
    rewrite calculateDistance_exact. split; [reflexivity | apply sqrt_pos].
  - intros cos64 sin64 d theta. unfold calculateDistance. cbn [Math_sqrt Binary64].
    apply sqrt64_never_negative.
  - exact calculateDistance_binary64_bounded.
Qed.

Lemma calculateDistance_nonneg_witness :
  ((0 <= 2)%R /\ (0 <= 0 <= PI)%R /\ (0 <= calculateDistance 2%R 0%R)%R)
  /\ (PrimFloat.leb 0 2 = true
      /\ PrimFloat.leb 2 d_2p500 = true
      /\ PrimFloat.leb (-1) (-1) = true
      /\ PrimFloat.leb (-1) 1 = true
      /\ is_finite64 (@calculateDistance float Straight64 2%float 0%float) = true
      /\ PrimFloat.leb 0 (@calculateDistance float Straight64 2%float 0%float) = true).
Proof.
  assert (Hd : (0 <= 2)%R) by lra.
  assert (Ht : (0 <= 0 <= PI)%R) by (pose proof PI_RGT_0; lra).
  split.
  - repeat split; try tauto.
    apply (proj1 calculateDistance_nonneg 2%R 0%R Hd Ht).
  - do 4 (split; [reflexivity |]).
    exact (proj2 (proj2 calculateDistance_nonneg)
             (fun _ => (-1)%float) (fun _ => 1%float) 2%float 0%float
             eq_refl eq_refl eq_refl eq_refl).
Defined.

(** **** C9 *)

(** C9, as stated, fails in the program's arithmetic, where the identity
    [calculateDistance(d, 0) == |d - 1|] is not an equality of doubles.
    With [Math.cos(0) = 1], as ECMAScript fixes it:
    - at [d = 0.3]: [1 + d ** 2] is [1.0900000000000001], [2 * d] is
      [0.6], their difference is [0.4900000000000001] and its root is
      [0.7000000000000001], while [|0.3 - 1|] is [0.7];
    - at [d = 1 + 2 ** -30]: [d ** 2] rounds to [1 + 2 ** -29], so
      [1 + d ** 2] and [2 * d] are both [2 + 2 ** -29] and the result is
      [0], while [|d - 1|] is [2 ** -30].
    And whatever [Math.cos] returns, [calculateDistance(1e200, Math.PI)]
    is not finite, while [1e200 + 1] is. *)
Lemma calculateDistance_binary64_towards_origin :
  (PrimFloat.leb 0 d_0_3 = true
   /\ (forall cos64 sin64, cos64 0%float = 1%float ->
          @calculateDistance float (Binary64 cos64 sin64) d_0_3 0%float
          = 0x1.6666666666667p-1%float)
   /\ PrimFloat.abs (d_0_3 - 1) = 0x1.6666666666666p-1%float
   /\ PrimFloat.eqb 0x1.6666666666667p-1 0x1.6666666666666p-1 = false)
  /\ (PrimFloat.leb 0 d_1_plus_2p30 = true
      /\ (forall cos64 sin64, cos64 0%float = 1%float ->
             @calculateDistance float (Binary64 cos64 sin64) d_1_plus_2p30 0%float
             = 0%float)
      /\ PrimFloat.abs (d_1_plus_2p30 - 1) = 0x1p-30%float
      /\ PrimFloat.eqb 0 0x1p-30 = false)
  /\ (PrimFloat.leb 0 d_1e200 = true
      /\ (forall cos64 sin64,
             is_finite64 (@calculateDistance float (Binary64 cos64 sin64) d_1e200 float_PI)
             = false)
      /\ is_finite64 (d_1e200 + 1) = true).
Proof.
  split; [| split].
  - repeat split; try reflexivity.
    intros cos64 sin64 Hcos. unfold calculateDistance. cbn. rewrite Hcos. reflexivity.
  - repeat split; try reflexivity.
    intros cos64 sin64 Hcos. unfold calculateDistance. cbn. rewrite Hcos. reflexivity.
  - repeat split; try reflexivity.
    intros cos64 sin64. apply calculateDistance_binary64_1e200.
Qed.

(** C9, amended. In exact arithmetic the three identities hold:
    [calculateDistance 0 theta = 1] for every [theta] in [[0, pi]], and
    for every [d >= 0], [calculateDistance d 0 = |d - 1|] and
    [calculateDistance d pi = d + 1]. In binary64 the first one holds as
    an equality of doubles as well, whenever [Math.cos(theta)] is
    finite. *)
Theorem calculateDistance_degenerate_cases :
  (forall theta : R, (0 <= theta <= PI)%R -> calculateDistance 0%R theta = 1%R)
  /\ (forall d : R, (0 <= d)%R ->
         calculateDistance d 0%R = Rabs (d - 1)
         /\ calculateDistance d PI = (d + 1)%R)
  /\ (forall cos64 sin64 (theta : float),
         is_finite64 (cos64 theta) = true ->
         @calculateDistance float (Binary64 cos64 sin64) 0%float theta = 1%float).
Proof.
  split; [| split].
  - intros theta _. apply calculateDistance_from_origin.
  - intros d Hd. split.
    + apply calculateDistance_towards_origin.
    + now apply calculateDistance_away_from_origin.
  - apply calculateDistance_binary64_from_origin.
Qed.

Lemma calculateDistance_degenerate_cases_witness :
  calculateDistance 0%R (PI / 2)%R = 1%R
  /\ calculateDistance 3%R 0%R = Rabs (3 - 1)
  /\ calculateDistance 3%R PI = (3 + 1)%R
  /\ @calculateDistance float (Binary64 (fun _ => 0.5%float) (fun _ => 0.5%float))
       0%float 1%float = 1%float.
Proof.
  destruct calculateDistance_degenerate_cases as (H0 & Hd & H64).
  assert (H3 : (0 <= 3)%R) by lra.
  assert (H1 : (0 <= PI / 2 <= PI)%R) by (pose proof PI_RGT_0; lra).
  split; [| split; [| split]].
  - apply (H0 (PI / 2)%R H1).
  - apply (proj1 (Hd 3%R H3)).
  - apply (proj2 (Hd 3%R H3)).
  - apply H64. reflexivity.
Defined.

(** *** Pulling from iterables *)

Section TakeFacts.

Context {W A : Type}.

Lemma take_S (it : Iterable W A) (n : nat) (w : W) :
  take it (S n) w
  = match pull it w with
    | Some (v, w') =>
        match take it n w' with
        | Some (vs, w'') => Some (v :: vs, w'')
        | None => None
        end
    | None => None
    end.
Proof.
  cbn [take]. unfold bind, ret.
  destruct (pull it w) as [[v w'] |]; [| reflexivity].
  destruct (take it n w') as [[vs w''] |]; reflexivity.
Qed.

Lemma take_length (it : Iterable W A) (n : nat) :
  forall w vs w', take it n w = Some (vs, w') -> length vs = n.
Proof.
  induction n as [| n IH]; intros w vs w'.
  - cbn. intros [= <- _]. reflexivity.
  - rewrite take_S.
    destruct (pull it w) as [[v w1] |]; [| discriminate].
    destruct (take it n w1) as [[vs1 w2] |] eqn:E; [| discriminate].
    intros [= <- _]. cbn. f_equal. eapply IH, E.
Qed.

Lemma take_JSArray (elements : list A) (n : nat) (w : W) :
  take (JSArray elements) n w = Some (repeat (nth_error elements 0) n, w).
Proof.
  induction n as [| n IH]; [reflexivity |].
  rewrite take_S. cbn [pull]. unfold ret. now rewrite IH.
Qed.

End TakeFacts.

Lemma take_sequenceGenerator {A} (a : nat -> A) (n : nat) :
  forall i, take (sequenceGenerator a) n i
            = Some (List.map (fun j => Some (a j)) (seq i n), i + n).
Proof.
  induction n as [| n IH]; intros i.
  - cbn. unfold ret. now rewrite Nat.add_0_r.
  - rewrite take_S. cbn [pull sequenceGenerator]. rewrite IH. cbn [seq List.map].
    do 2 f_equal. lia.
Qed.

Lemma take_counted {W A} (it : Iterable W A) (n : nat) :
  forall w pulls,
    take (counted it) n (w, pulls)
    = match take it n w with
      | Some (vs, w') => Some (vs, (w', pulls + n))
      | None => None
      end.
Proof.
  induction n as [| n IH]; intros w pulls.
  - cbn. unfold ret. now rewrite Nat.add_0_r.
  - rewrite !take_S. cbn [pull counted].
    destruct (pull it w) as [[v w1] |]; [| reflexivity].
    rewrite IH. destruct (take it n w1) as [[vs w2] |]; [| reflexivity].
    do 3 f_equal. lia.
Qed.

Lemma take_pairStreams_separate {A B} (a : nat -> A) (b : nat -> B) (n : nat) :
  forall i j,
    take (pairStreams (on_fst (sequenceGenerator a)) (on_snd (sequenceGenerator b)))
         n (i, j)
    = Some (List.map (fun k => Some (Some (a (i + k)), Some (b (j + k)))) (seq 0 n),
            (i + n, j + n)).
Proof.
  induction n as [| n IH]; intros i j.
  - cbn. unfold ret. now rewrite !Nat.add_0_r.
  - rewrite take_S.
    cbn [pull pairStreams on_fst on_snd sequenceGenerator]. unfold bind, ret.
    rewrite IH. cbn [seq List.map]. rewrite <- seq_shift, map_map, !Nat.add_0_r.
    do 2 f_equal.
    + f_equal. apply map_ext. intros k. now rewrite !Nat.add_succ_comm.
    + f_equal; lia.
Qed.

Lemma take_pairStreams_shared {A} (a : nat -> A) (n : nat) :
  forall i,
    take (pairStreams (sequenceGenerator a) (sequenceGenerator a)) n i
    = Some (List.map (fun k => Some (Some (a (i + 2 * k)), Some (a (i + 2 * k + 1))))
                     (seq 0 n),
            i + 2 * n).
Proof.
  induction n as [| n IH]; intros i.
  - cbn. unfold ret. now rewrite !Nat.add_0_r.
  - rewrite take_S.
    cbn [pull pairStreams sequenceGenerator]. unfold bind, ret.
    rewrite IH. cbn [seq List.map]. rewrite <- seq_shift, map_map.
    f_equal. f_equal.
    + f_equal.
      * replace (i + 2 * 0) with i by lia. replace (i + 1) with (S i) by lia.
        reflexivity.
      * apply map_ext. intros k.
        replace (i + 2 * S k) with (S (S i) + 2 * k) by lia. reflexivity.
    + lia.
Qed.

(** *** Folding the angles *)

Section ReduceFacts.

Context {num : Type} `{Number num}.

Lemma fold_step_frozen (radiusLimit : option num) (thetaArray : list (option num)) :
  forall p, reached p radiusLimit = true ->
            fold_left (step radiusLimit) thetaArray p = p.
Proof.
  induction thetaArray as [| c rest IH]; intros p Hp; [reflexivity |].
  cbn [fold_left]. unfold step at 2. rewrite Hp. now apply IH.
Qed.

Lemma reduce_app (radiusLimit : option num) (l1 l2 : list (option num)) :
  reduce radiusLimit (l1 ++ l2)
  = fold_left (step radiusLimit) l2 (reduce radiusLimit l1).
Proof. unfold reduce. apply fold_left_app. Qed.

Lemma reduce_frozen (radiusLimit : option num) (thetaArray : list (option num)) (k : nat) :
  reached (reduce radiusLimit (firstn k thetaArray)) radiusLimit = true ->
  reduce radiusLimit thetaArray = reduce radiusLimit (firstn k thetaArray).
Proof.
  intros Hk. rewrite <- (firstn_skipn k thetaArray) at 1.
  rewrite reduce_app. now apply fold_step_frozen.
Qed.

Lemma pull_createDistanceStream {W} (stepCount : nat) (thetaStream : Iterable W num)
    (radiusLimit : option num) (w : W) :
  pull (createDistanceStream stepCount thetaStream radiusLimit) w
  = match take thetaStream stepCount w with
    | Some (thetaArray, w') => Some (Some (reduce radiusLimit thetaArray), w')
    | None => None
    end.
Proof.
  cbn [pull createDistanceStream]. unfold bind, ret.
  destruct (take thetaStream stepCount w) as [[thetaArray w'] |]; reflexivity.
Qed.

End ReduceFacts.

(** The program runs: two paths at radius 3 with every step straight away
    from the origin. Each path is frozen at distance 3 after three steps,
    and still takes its five angles, two draws each. *)
Example simulate_straight64 :
  simulate (H := Straight64) 2
    (createThetaStream (H := Straight64) (fun _ => 0.5%float) 1) 3%float 0
  = Some ({| radius := 3%float; averageDistance := 3%float;
             percentEscaped := 100%float |}, 20).
Proof. vm_compute. reflexivity. Qed.

(** **** C3 *)

(** C3. Early-exit freeze, for any injected angle sequence [a] read from
    any position [i]: if the distance folded from the first [k] of the
    [stepCount] angles ([k < stepCount]) meets or exceeds [escapeRadius],
    the path's round of [createDistanceStream] returns exactly that
    distance: the remaining [stepCount - k] angles change nothing. *)
Theorem createDistanceStream_early_exit
    (num : Type) (N : Number num) (a : nat -> num)
    (stepCount k i : nat) (escapeRadius : num) :
  let thetaArray := List.map (fun j => Some (a j)) (seq i stepCount) in
  let distance_at_k := reduce (Some escapeRadius) (firstn k thetaArray) in
  k < stepCount ->
  (distance_at_k >=? escapeRadius)%num = true ->
  pull (createDistanceStream stepCount (sequenceGenerator a) (Some escapeRadius)) i
  = Some (Some distance_at_k, i + stepCount).
Proof.
  intros thetaArray distance_at_k _ Hk.
  rewrite pull_createDistanceStream, take_sequenceGenerator.
  fold thetaArray. do 3 f_equal.
  now apply reduce_frozen.
Qed.

Lemma createDistanceStream_early_exit_witness :
  pull (createDistanceStream (H := Straight64) 3
          (sequenceGenerator (fun _ => float_PI)) (Some 2%float)) 0
  = Some (Some 2%float, 3).
Proof.
  apply (@createDistanceStream_early_exit float Straight64
           (fun _ => float_PI) 3 2 0 2%float).
  - lia.
  - reflexivity.
Defined.

(** **** C4 *)

(** C4. One round of [createDistanceStream] pulls exactly [stepCount]
    angles from its angle source, whatever [radiusLimit] is and whether or
    when the path reaches it: with the pulls counted, the counter grows by
    [stepCount]; and the state the round leaves the source in is the same
    for every other [radiusLimit]. On an injected sequence the round
    always returns, and the cursor moves from [i] to [i + stepCount]. *)
Theorem createDistanceStream_consumes_stepCount
    (num : Type) (N : Number num) (W : Type) (thetaStream : Iterable W num)
    (stepCount : nat) (radiusLimit : option num)
    (w w' : W) (pulls pulls' : nat) (d : option num) :
  pull (createDistanceStream stepCount (counted thetaStream) radiusLimit) (w, pulls)
  = Some (d, (w', pulls')) ->
  pulls' = pulls + stepCount
  /\ (forall radiusLimit' : option num,
         exists d', pull (createDistanceStream stepCount (counted thetaStream) radiusLimit')
                         (w, pulls)
                    = Some (d', (w', pulls')))
  /\ (forall (a : nat -> num) (i : nat) (radiusLimit' : option num),
         pull (createDistanceStream stepCount (sequenceGenerator a) radiusLimit') i
         = Some (Some (reduce radiusLimit'
                         (List.map (fun j => Some (a j)) (seq i stepCount))),
                 i + stepCount)).
Proof.
  rewrite pull_createDistanceStream, take_counted.
  destruct (take thetaStream stepCount w) as [[thetaArray w1] |] eqn:E; [| discriminate].
  intros [= _ <- <-]. split; [reflexivity | split].
  - intros radiusLimit'. rewrite pull_createDistanceStream, take_counted, E.
    eexists. reflexivity.
  - intros a i radiusLimit'.
    now rewrite pull_createDistanceStream, take_sequenceGenerator.
Qed.

Lemma createDistanceStream_consumes_stepCount_witness :
  pull (createDistanceStream (H := Straight64) 5
          (counted (sequenceGenerator (fun _ => float_PI))) (Some 2%float)) (0, 0)
  = Some (Some 2%float, (5, 5))
  /\ 5 = 0 + 5.
Proof.
  split; [reflexivity |].
  apply (@createDistanceStream_consumes_stepCount float Straight64 nat
           (sequenceGenerator (fun _ => float_PI)) 5 (Some 2%float)
           0 5 0 5 (Some 2%float)).
  reflexivity.
Defined.

(** **** C10 *)

(** C10. [take] evaluates [it[Symbol.iterator]().next().value] at every
    round. On a generator object, which is its own iterator, [take(it, n)]
    yields the next [n] elements and leaves the generator [n] elements
    further. On an array, which hands out a fresh iterator each time,
    it yields the first element [n] times over ([undefined] when the
    array is empty), so for [[x, y]] and [n = 2] it yields [x, x] and not
    [x, y]. [pairStreams] does the same to both arguments: on two arrays
    every pair is the pair of the first elements; on two generator
    objects the [k]-th pair holds the [k]-th element of each; on one
    generator object given twice, the pairs hold consecutive elements. *)
Theorem take_re_requests_the_iterator :
  (forall (A : Type) (a : nat -> A) (n i : nat),
      take (sequenceGenerator a) n i
      = Some (List.map (fun j => Some (a j)) (seq i n), i + n))
  /\ (forall (W A : Type) (x : A) (rest : list A) (n : nat) (w : W),
         take (JSArray (x :: rest)) n w = Some (repeat (Some x) n, w))
  /\ (forall (W A : Type) (n : nat) (w : W),
         take (JSArray (@nil A)) n w = Some (repeat None n, w))
  /\ (forall (W A : Type) (x y : A) (w : W),
         take (JSArray [x; y]) 2 w = Some ([Some x; Some x], w))
  /\ (forall (W A B : Type) (x : A) (rest1 : list A) (y : B) (rest2 : list B)
             (n : nat) (w : W),
         take (pairStreams (JSArray (x :: rest1)) (JSArray (y :: rest2))) n w
         = Some (repeat (Some (Some x, Some y)) n, w))
  /\ (forall (A B : Type) (a : nat -> A) (b : nat -> B) (n i j : nat),
         take (pairStreams (on_fst (sequenceGenerator a)) (on_snd (sequenceGenerator b)))
              n (i, j)
         = Some (List.map (fun k => Some (Some (a (i + k)), Some (b (j + k)))) (seq 0 n),
                 (i + n, j + n)))
  /\ (forall (A : Type) (a : nat -> A) (n i : nat),
         take (pairStreams (sequenceGenerator a) (sequenceGenerator a)) n i
         = Some (List.map (fun k => Some (Some (a (i + 2 * k)), Some (a (i + 2 * k + 1))))
                          (seq 0 n),
                 i + 2 * n)).
Proof.
  repeat apply conj.
  - intros. apply take_sequenceGenerator.
  - intros. now rewrite take_JSArray.
  - intros. now rewrite take_JSArray.
  - intros. now rewrite take_JSArray.
  - intros W A B x rest1 y rest2 n w.
    induction n as [| n IH]; [reflexivity |].
    rewrite take_S. cbn [pull pairStreams]. unfold bind, ret. cbn [nth_error].
    now rewrite IH.
  - intros. apply take_pairStreams_separate.
  - intros. apply take_pairStreams_shared.
Qed.

(** *** Scaling a draw by [Math.PI] *)

Section AngleRange.

Local Open Scope Z_scope.

Lemma Prim2SF_PI : Prim2SF float_PI = S754_finite false 7074237752028440 (-51).
Proof. vm_compute. reflexivity. Qed.

Lemma compare_cont_Eq_lt (p q : positive) :
  Pos.compare_cont Eq p q = Lt -> (p < q)%positive.
Proof. exact (proj1 (Pos.compare_lt_iff p q)). Qed.

Lemma compare_cont_Eq_le (p q : positive) :
  (p <= q)%positive -> Pos.compare_cont Eq p q <> Gt.
Proof. exact (proj1 (Pos.compare_le_iff p q)). Qed.

(** The product of a double below 1 and a double [(P, eP)] rounds to a
    double that is at most [(P, eP)] in the order [SFcompare] uses. *)
Lemma SF64mul_below_one (m : positive) (e : Z) (P : positive) (eP : Z) :
  -1074 <= e <= 0 ->
  Z.pos m < 2 ^ (- e) ->
  Z.pos P < 2 ^ 53 ->
  -1074 <= eP <= 971 ->
  match SF64mul (S754_finite false m e) (S754_finite false P eP) with
  | S754_zero _ => True
  | S754_finite s m' e' => s = false /\ (e' < eP \/ (e' = eP /\ (m' <= P)%positive))
  | _ => False
  end.
Proof.
  intros He Hm HP HeP. unfold SF64mul, SFmul. cbn [xorb].
  pose proof bias_ge as Hbias.
  assert (Hlt : scaled (Z.pos (m * P)) (e + eP) < scaled (Z.pos P) eP).
  { apply scaled_lt_iff; [lia |].
    replace (eP - (e + eP)) with (- e) by lia. rewrite Pos2Z.inj_mul. nia. }
  pose proof (round_upper false (Z.pos (m * P)) (e + eP) loc_Exact (Z.pos P) eP
                ltac:(lia) ltac:(lia) ltac:(lia) HeP (or_introl Hlt)) as Hround.
  destruct (binary_round_aux prec emax false (Z.pos (m * P)) (e + eP) loc_Exact)
    as [s' | s' | | s' m' e']; try contradiction; [exact I |].
  destruct Hround as (-> & Hval & Hexp). split; [reflexivity |].
  destruct (Z.eq_dec e' eP) as [-> | Hne]; [right | left; lia].
  split; [reflexivity |].
  exact (scaled_le_inv (Z.pos m') (Z.pos P) eP ltac:(lia) Hval).
Qed.

(** A valid double below 1 is [m * 2 ^ e] with [m < 2 ^ - e]. *)
Lemma below_one_bound (m : positive) (e : Z) :
  SpecFloat.valid_binary prec emax (S754_finite false m e) = true ->
  SFltb (S754_finite false m e) (Prim2SF 1) = true ->
  e <= 0 /\ Z.pos m < 2 ^ (- e).
Proof.
  cbn [SpecFloat.valid_binary]. unfold bounded, canonical_mantissa.
  intros Hvalid Hlt. apply andb_true_iff in Hvalid. destruct Hvalid as [Hcanon _].
  apply Z.eqb_eq in Hcanon.
  assert (Hdigits : Zdigits2 (Z.pos m) <= 53).
  { cbn [Zdigits2]. unfold SpecFloat.fexp, SpecFloat.emin, prec, emax in Hcanon. lia. }
  pose proof (Zdigits2_gt (Z.pos m) ltac:(lia)) as Hm.
  assert (Hm53 : Z.pos m < 2 ^ 53).
  { eapply Z.lt_le_trans; [exact Hm |]. apply Z.pow_le_mono_r; lia. }
  rewrite Prim2SF_one in Hlt.
  unfold SFltb, SFcompare in Hlt.
  destruct (Z.compare_spec e (-52)) as [-> | He | He]; try discriminate.
  - split; [lia |].
    destruct (Pos.compare_cont Eq m 4503599627370496) eqn:Ecmp; try discriminate.
    apply compare_cont_Eq_lt, Pos2Z.pos_lt_pos in Ecmp.
    replace (2 ^ (- -52)) with 4503599627370496 by (vm_compute; reflexivity).
    exact Ecmp.
  - split; [lia |]. eapply Z.lt_le_trans; [exact Hm53 |]. apply Z.pow_le_mono_r; lia.
Qed.

(** A draw in [[0, 1)], scaled by [Math.PI], is a double in
    [[0, Math.PI]]. *)
Lemma mul_PI_range (x : float) :
  PrimFloat.leb 0 x = true ->
  PrimFloat.ltb x 1 = true ->
  PrimFloat.leb 0 (x * float_PI)%float = true
  /\ PrimFloat.leb (x * float_PI)%float float_PI = true.
Proof.
  rewrite !leb_spec, ltb_spec, mul_spec, Prim2SF_PI, Prim2SF_zero.
  pose proof (Prim2SF_valid x) as Hvalid.
  destruct (Prim2SF x) as [s | s | | s m e]; try discriminate.
  - intros _ _. destruct s; split; reflexivity.
  - destruct s; discriminate.
  - intros Hpos Hlt. destruct s; [discriminate |].
    destruct (below_one_bound m e Hvalid Hlt) as [He Hm].
    assert (HP : (7074237752028440 < 2 ^ 53)%Z) by (vm_compute; reflexivity).
    destruct (valid_finite false m e Hvalid) as (_ & Hexp & _).
    pose proof (@SF64mul_below_one m e 7074237752028440 (-51) ltac:(lia) Hm HP
                  ltac:(lia)) as Hmul.
    destruct (SF64mul (S754_finite false m e) (S754_finite false 7074237752028440 (-51)))
      as [s' | s' | | s' m' e']; try contradiction.
    + split; reflexivity.
    + destruct Hmul as [-> Hle]. split; [reflexivity |].
      unfold SFleb, SFcompare.
      destruct Hle as [Hlt' | [-> Hm']].
      * apply Z.compare_lt_iff in Hlt'. now rewrite Hlt'.
      * rewrite Z.compare_refl. apply compare_cont_Eq_le in Hm'.
        destruct (Pos.compare_cont Eq m' 7074237752028440); try reflexivity.
        now contradiction Hm'.
Qed.

End AngleRange.


(** *** The rejection sampler *)

Section SamplerFacts.

Context {num : Type} `{Number num}.
Variable random : nat -> num.

Lemma pull_pointStream (calls : nat) :
  pull (pointStream random) calls
  = Some (Some (Some (candidate random calls 0), Some (coin random calls 0)),
          calls + 2).
Proof.
  cbn. unfold bind, ret, candidate, coin. cbn.
  rewrite !Nat.add_0_r. do 2 f_equal.
  - now replace (calls + 1) with (S calls) by lia.
  - lia.
Qed.

Lemma theta_next_S (fuel calls : nat) :
  theta_next random (S fuel) calls
  = if accepted random calls 0
    then Some (Some (candidate random calls 0), calls + 2)
    else theta_next random fuel (calls + 2).
Proof.
  cbn [theta_next]. unfold bind at 1. rewrite pull_pointStream.
  fold (accepted random calls 0). now destruct (accepted random calls 0).
Qed.

Lemma candidate_shift (calls j : nat) :
  candidate random (calls + 2) j = candidate random calls (S j).
Proof. unfold candidate. f_equal. f_equal. lia. Qed.

Lemma accepted_shift (calls j : nat) :
  accepted random (calls + 2) j = accepted random calls (S j).
Proof.
  unfold accepted, coin. rewrite candidate_shift. do 2 f_equal. lia.
Qed.

(** What one [next()] of the sampler does with its fuel. *)
Lemma theta_next_spec (fuel : nat) :
  forall calls,
    match theta_next random fuel calls with
    | Some (Some theta, calls') =>
        exists k, k < fuel
                  /\ (forall j, j < k -> accepted random calls j = false)
                  /\ accepted random calls k = true
                  /\ theta = candidate random calls k
                  /\ calls' = calls + 2 * (k + 1)
    | Some (None, _) => False
    | None => forall j, j < fuel -> accepted random calls j = false
    end.
Proof.
  induction fuel as [| fuel IH]; intros calls.
  - cbn. intros j Hj. lia.
  - rewrite theta_next_S. destruct (accepted random calls 0) eqn:E0.
    + exists 0.
      split; [lia | split; [intros j Hj; lia | split; [exact E0 | split; [reflexivity | lia]]]].
    + specialize (IH (calls + 2)).
      destruct (theta_next random fuel (calls + 2)) as [[[theta |] calls'] |].
      * destruct IH as (k & Hk & Hrej & Hacc & Htheta & Hcalls).
        exists (S k). split; [| split; [| split; [| split]]].
        -- lia.
        -- intros [| j] Hj; [exact E0 |].
           rewrite <- accepted_shift. apply Hrej. lia.
        -- now rewrite <- accepted_shift.
        -- now rewrite <- candidate_shift.
        -- lia.
      * exact IH.
      * intros [| j] Hj; [exact E0 |].
        rewrite <- accepted_shift. apply IH. lia.
Qed.

(** The sampler returns as soon as the fuel covers the first accepted
    candidate. *)
Lemma theta_next_first_accepted (k : nat) :
  forall fuel calls,
    k < fuel ->
    (forall j, j < k -> accepted random calls j = false) ->
    accepted random calls k = true ->
    theta_next random fuel calls
    = Some (Some (candidate random calls k), calls + 2 * (k + 1)).
Proof.
  induction k as [| k IH]; intros fuel calls Hfuel Hrej Hacc;
    (destruct fuel as [| fuel]; [lia |]); rewrite theta_next_S.
  - rewrite Hacc. now replace (calls + 2 * (0 + 1)) with (calls + 2) by lia.
  - rewrite (Hrej 0) by lia.
    rewrite (IH fuel (calls + 2)).
    + rewrite candidate_shift.
      now replace (calls + 2 + 2 * (k + 1)) with (calls + 2 * (S k + 1)) by lia.
    + lia.
    + intros j Hj. rewrite accepted_shift. apply Hrej. lia.
    + now rewrite accepted_shift.
Qed.

End SamplerFacts.

Lemma Rleb_true (a b : R) : Rleb a b = true <-> (a <= b)%R.
Proof. unfold Rleb. destruct (Rle_dec a b); split; intros; try easy. Qed.

Lemma Rleb_false (a b : R) : Rleb a b = false <-> (b < a)%R.
Proof.
  unfold Rleb. destruct (Rle_dec a b); split; intros; try easy; lra.
Qed.

Lemma candidate_range (random : nat -> R) (calls j : nat) :
  (forall i, (0 <= random i < 1)%R) ->
  (0 <= candidate random calls j < PI)%R.
Proof.
  intros Hr. unfold candidate. cbn [mul Math_PI Exact].
  destruct (Hr (calls + 2 * j)) as [H0 H1]. pose proof PI_RGT_0 as Hpi. split.
  - apply Rmult_le_pos; lra.
  - rewrite <- (Rmult_1_l PI) at 2. apply Rmult_lt_compat_r; assumption.
Qed.

(** **** C5 *)

(** C5. One [next()] of [createThetaStream()], started when [calls] calls
    of [Math.random()] have been made, in any arithmetic: it looks at the
    candidates [random (calls + 2 j) * Math.PI] in turn, each paired with
    the following draw [random (calls + 2 j + 1)]; it returns the first
    candidate whose paired draw [u] passes [u <= Math.sin(theta)], having
    discarded every earlier one because its draw failed the test, and it
    is never done. It does return once the fuel covers the first
    candidate that passes. With every draw in [[0, 1)], every candidate
    lies in [[0, pi]]: in exact arithmetic, where the test is the
    comparison of reals, and in binary64, where the bounds are [0] and
    [Math.PI]. *)
Theorem createThetaStream_rejection_sampling :
  (forall (num : Type) (N : Number num) (random : nat -> num) (fuel calls : nat),
      match pull (createThetaStream random fuel) calls with
      | Some (Some theta, calls') =>
          exists k, k < fuel
                    /\ (forall j, j < k -> accepted random calls j = false)
                    /\ accepted random calls k = true
                    /\ theta = (random (calls + 2 * k)%nat * Math_PI)%num
                    /\ calls' = calls + 2 * (k + 1)
      | Some (None, _) => False
      | None => forall j, j < fuel -> accepted random calls j = false
      end)
  /\ (forall (num : Type) (N : Number num) (random : nat -> num) (k fuel calls : nat),
         k < fuel ->
         (forall j, j < k -> accepted random calls j = false) ->
         accepted random calls k = true ->
         pull (createThetaStream random fuel) calls
         = Some (Some (random (calls + 2 * k)%nat * Math_PI)%num, calls + 2 * (k + 1)))
  /\ (forall (random : nat -> R) (calls j : nat),
         (forall i, (0 <= random i < 1)%R) ->
         candidate random calls j = (random (calls + 2 * j)%nat * PI)%R
         /\ (0 <= candidate random calls j <= PI)%R
         /\ (accepted random calls j = true
             <-> (random (calls + 2 * j + 1)%nat <= sin (candidate random calls j))%R))
  /\ (forall (cos64 sin64 : float -> float) (random : nat -> float) (calls j : nat),
         (forall i, PrimFloat.leb 0 (random i) = true
                    /\ PrimFloat.ltb (random i) 1 = true) ->
         PrimFloat.leb 0 (candidate (H := Binary64 cos64 sin64) random calls j) = true
         /\ PrimFloat.leb (candidate (H := Binary64 cos64 sin64) random calls j) float_PI
            = true).
Proof.
  split; [| split; [| split]].
  - intros num N random fuel calls. apply (theta_next_spec random fuel calls).
  - intros num N random k fuel calls. apply theta_next_first_accepted.
  - intros random calls j Hr. split; [reflexivity | split].
    + pose proof (candidate_range random calls j Hr). lra.
    + unfold accepted, coin. cbn. apply Rleb_true.
  - intros cos64 sin64 random calls j Hr. unfold candidate. cbn [mul Math_PI Binary64].
    destruct (Hr (calls + 2 * j)) as [H0 H1]. now apply mul_PI_range.
Qed.

Lemma createThetaStream_rejection_sampling_witness :
  pull (createThetaStream (fun _ => (1 / 2)%R) 1) 0 = Some (Some (1 / 2 * PI)%R, 2)
  /\ (0 <= 1 / 2 * PI <= PI)%R.
Proof.
  destruct createThetaStream_rejection_sampling as (_ & Hreturns & Hexact & _).
  assert (Hdraws : forall i : nat, (0 <= (fun _ : nat => 1 / 2) i < 1)%R)
    by (intros i; cbn; lra).
  destruct (Hexact (fun _ => (1 / 2)%R) 0 0 Hdraws) as (_ & Hrange & Htest).
  split; [| exact Hrange].
  apply (Hreturns R Exact (fun _ => (1 / 2)%R) 0 1 0).
  - lia.
  - intros j Hj. lia.
  - apply Htest. unfold candidate. cbn [mul Math_PI Exact].
    replace (1 / 2 * PI)%R with (PI / 2)%R by lra. rewrite sin_PI2. lra.
Defined.

(** *** The aggregation *)

Ltac eval_Rleb :=
  repeat match goal with
    | |- context [Rleb ?a ?b] =>
        first [ rewrite (proj2 (Rleb_true a b)) by lra
              | rewrite (proj2 (Rleb_false a b)) by lra ]
    end.

Lemma fold_left_sum (distances : list R) :
  forall accumulated : R,
    fold_left (fun accumulated d => (accumulated + to_number d)%num)
              (List.map Some distances) accumulated
    = (accumulated + sum distances)%R.
Proof.
  induction distances as [| d rest IH]; intros accumulated; cbn.
  - lra.
  - rewrite IH. unfold sum. cbn. lra.
Qed.

Lemma filter_escaped (radius : R) (distances : list R) :
  length (filter (fun d => (to_number d >=? radius)%num) (List.map Some distances))
  = escaped radius distances.
Proof.
  unfold escaped. induction distances as [| d rest IH]; [reflexivity |].
  cbn [List.map filter to_number]. unfold geb at 1. cbn [leb Exact].
  destruct (Rleb radius d); cbn [length]; now rewrite IH.
Qed.

Lemma aggregate_exact (radius : R) (distances : list R) :
  averageDistance (aggregate radius (List.map Some distances))
  = (sum distances / INR (length distances))%R
  /\ percentEscaped (aggregate radius (List.map Some distances))
     = (100 * (INR (escaped radius distances) / INR (length distances)))%R.
Proof.
  unfold aggregate. cbn [averageDistance percentEscaped].
  rewrite filter_escaped, fold_left_sum, length_map. cbn [of_Z Exact div mul].
  rewrite <- !INR_IZR_INZ. split.
  - f_equal. lra.
  - lra.
Qed.

(** **** C6 *)

(** C6. For a batch of distances, in every arithmetic [averageDistance] is
    the left-to-right sum of the batch divided by its length, and
    [percentEscaped] is the number of distances with [d >= radius],
    divided by the length and multiplied by 100. In exact arithmetic, for
    a non-empty batch, these are the arithmetic mean and 100 times the
    escaped count over the total count. For the distances [1, 2, 3, 4] and
    radius 3 the results are 2.5 and 50, in exact arithmetic and in
    binary64 alike. In binary64 [percentEscaped] is 100 times the
    quotient of the two counts, the quotient rounded first. *)
Theorem aggregate_mean_and_percentage :
  (forall (num : Type) (N : Number num) (radius : num) (distances : list (option num)),
      averageDistance (aggregate radius distances)
      = (fold_left (fun accumulated d => accumulated + to_number d) distances #0
         / #(Z.of_nat (length distances)))%num
      /\ percentEscaped (aggregate radius distances)
         = (#(Z.of_nat (length (filter (fun d => to_number d >=? radius) distances)))
            / #(Z.of_nat (length distances)) * #100)%num)
  /\ (forall (radius : R) (distances : list R),
         distances <> [] ->
         averageDistance (aggregate radius (List.map Some distances))
         = (sum distances / INR (length distances))%R
         /\ percentEscaped (aggregate radius (List.map Some distances))
            = (100 * (INR (escaped radius distances) / INR (length distances)))%R)
  /\ (averageDistance (aggregate 3%R [Some 1%R; Some 2%R; Some 3%R; Some 4%R]) = 2.5%R
      /\ percentEscaped (aggregate 3%R [Some 1%R; Some 2%R; Some 3%R; Some 4%R]) = 50%R)
  /\ (forall cos64 sin64 : float -> float,
         aggregate (H := Binary64 cos64 sin64) 3%float
           [Some 1%float; Some 2%float; Some 3%float; Some 4%float]
         = {| radius := 3%float; averageDistance := 2.5%float;
              percentEscaped := 50%float |})
  /\ (forall (cos64 sin64 : float -> float) (radius : float)
             (distances : list (option float)),
         let N := Binary64 cos64 sin64 in
         let count :=
           length (filter (fun d => (to_number (H := N) d >=? radius)%num) distances) in
         percentEscaped (aggregate (H := N) radius distances)
         = (100 * (float_of_Z (Z.of_nat count)
                   / float_of_Z (Z.of_nat (length distances))))%float).
Proof.
  split; [| split; [| split; [| split]]]; cycle 4.
  { intros cos64 sin64 radius distances N count.
    unfold aggregate. cbn [percentEscaped]. apply mul64_comm. }
  - intros. split; reflexivity.
  - intros radius distances _. apply aggregate_exact.
  - destruct (aggregate_exact 3%R [1; 2; 3; 4]%R) as [Hmean Hpercent].
    cbn [List.map] in Hmean, Hpercent. rewrite Hmean, Hpercent.
    unfold escaped, sum. cbn [filter fold_right length]. eval_Rleb.
    cbn [length INR]. split; lra.
  - intros cos64 sin64. reflexivity.
Qed.

(** In binary64 the grouping matters: [100 * count / total], with the
    product rounded first, is another double for 7 of 25. *)
Example percentEscaped_grouping_binary64 :
  (7 / 25 * 100)%float = 0x1.c000000000001p+4%float
  /\ (100 * 7 / 25)%float = 28%float.
Proof. split; reflexivity. Qed.

Lemma aggregate_mean_and_percentage_witness :
  averageDistance (aggregate 3%R (List.map Some [1; 2; 3; 4]%R))
  = (sum [1; 2; 3; 4] / INR 4)%R.
Proof.
  destruct aggregate_mean_and_percentage as (_ & Hexact & _).
  assert (Hbatch : [1; 2; 3; 4]%R <> []) by discriminate.
  exact (proj1 (Hexact 3%R [1; 2; 3; 4]%R Hbatch)).
Defined.

(** *** The radius sweep *)

Section RadiusFacts.

Local Open Scope R_scope.

(** The loop over the reals, its counter read as a natural number. *)
Lemma radius_loop_exact (unit : R) (count : nat) :
  forall (rounds i fuel : nat),
    (i + rounds = S count)%nat ->
    (rounds < fuel)%nat ->
    radius_loop fuel unit (INR count) (INR i)
    = Some (List.map (fun i => unit * INR i) (seq i rounds)).
Proof.
  induction rounds as [| rounds IH]; intros i fuel Hi Hfuel;
    (destruct fuel as [| fuel]; [lia |]); cbn [radius_loop leb Exact].
  - rewrite (proj2 (Rleb_false (INR i) (INR count))); [reflexivity |].
    apply lt_INR. lia.
  - rewrite (proj2 (Rleb_true (INR i) (INR count))) by (apply le_INR; lia).
    cbn [add of_Z Exact mul]. rewrite <- S_INR.
    rewrite (IH (S i) fuel) by lia. reflexivity.
Qed.



Lemma createRadiusStream_exact (significantFigures : Z) (fuel : nat) :
  (1 <= significantFigures)%Z ->
  let count := (5 * 10 ^ Z.to_nat (significantFigures - 1))%nat in
  let unit := powerRZ 10 (- (significantFigures - 1)) in
  (count < fuel)%nat ->
  createRadiusStream fuel significantFigures
  = Some (List.map (fun i => unit * INR i) (seq 1 count)).
Proof.
  intros Hsf count unit Hfuel. unfold createRadiusStream.
  cbn [of_Z pow div mul Exact]. change (IZR steps) with 5.
  set (e := Z.to_nat (significantFigures - 1)) in *.
  assert (He : (significantFigures - 1)%Z = Z.of_nat e) by (unfold e; lia).
  assert (Hunit : 1 / powerRZ 10 (significantFigures - 1) = unit).
  { unfold unit. rewrite powerRZ_neg'. lra. }
  assert (Hbound : 5 * powerRZ 10 (significantFigures - 1) = INR count).
  { unfold count. rewrite He, <- pow_powerRZ, mult_INR, pow_INR.
    change (INR 5) with (2 + 1 + 1 + 1). change (INR 10) with (2 + 1 + 1 + 1 + 1 + 1 + 1 + 1 + 1).
    f_equal; [lra | f_equal; lra]. }
  rewrite Hunit, Hbound. change 1 with (INR 1) at 1.
  apply radius_loop_exact; lia.
Qed.

End RadiusFacts.

(** **** C7 *)



(** *** Paths in exact arithmetic *)

Section ExactPaths.

Local Open Scope R_scope.

Lemma calculateDistance_pos (p theta : R) : 0 <= calculateDistance p theta.
Proof. rewrite calculateDistance_exact. apply sqrt_pos. Qed.

(** A step lengthens the path by at most one unit. *)
Lemma calculateDistance_le (p theta : R) :
  0 <= p -> calculateDistance p theta <= p + 1.
Proof.
  intros Hp. rewrite calculateDistance_exact.
  rewrite <- (sqrt_Rsqr (p + 1)) by lra.
  apply sqrt_le_1_alt. unfold Rsqr.
  pose proof (COS_bound theta) as [Hlow _]. nra.
Qed.

(** It lengthens it by a full unit only straight away from the origin. *)
Lemma calculateDistance_full_step (p theta : R) :
  0 < p -> (calculateDistance p theta = p + 1 <-> cos theta = -1).
Proof.
  intros Hp. rewrite calculateDistance_exact. split.
  - intros E.
    assert (Hsq : 1 + p * p - 2 * p * cos theta = (p + 1) * (p + 1)).
    { rewrite <- E. symmetry. apply sqrt_def. apply radicand_nonneg. }
    nra.
  - intros E. rewrite E.
    replace (1 + p * p - 2 * p * -1) with (Rsqr (p + 1)) by (unfold Rsqr; ring).
    apply sqrt_Rsqr. lra.
Qed.

Lemma cos_minus_one (theta : R) :
  0 <= theta <= PI -> (cos theta = -1 <-> theta = PI).
Proof.
  intros Ht. split.
  - intros E. apply cos_inj; [exact Ht | pose proof PI_RGT_0; lra |].
    now rewrite cos_PI.
  - intros ->. apply cos_PI.
Qed.

(** A path that starts at [p] with enough room below the limit is never
    frozen; it ends within [length angles] of [p], and at exactly that
    distance only if every step went straight away from the origin. *)
Lemma fold_step_bound (limit : R) (angles : list R) :
  forall p : R,
    0 <= p ->
    p + INR (length angles) <= limit ->
    let d := fold_left (step (Some limit)) (List.map Some angles) p in
    0 <= d <= p + INR (length angles)
    /\ (0 < p ->
        (d = p + INR (length angles) <-> Forall (fun theta => cos theta = -1) angles)).
Proof.
  induction angles as [| theta rest IH]; intros p Hp Hroom; cbn [List.map fold_left length].
  - cbn [INR]. split; [lra |]. intros _. split; [constructor | lra].
  - cbn [length] in Hroom. rewrite S_INR in Hroom |- *.
    pose proof (pos_INR (length rest)) as Hlen.
    assert (Hstep : step (Some limit) p (Some theta) = calculateDistance p theta).
    { unfold step, reached, geb. cbn [leb Exact to_number].
      now rewrite (proj2 (Rleb_false limit p)) by lra. }
    rewrite Hstep.
    pose proof (calculateDistance_pos p theta) as Hpos.
    pose proof (calculateDistance_le theta Hp) as Hle.
    destruct (IH (calculateDistance p theta) Hpos ltac:(lra)) as [Hbound Hmax].
    cbn zeta in *. split; [lra |].
    intros Hp0. split.
    + intros E.
      assert (Efull : calculateDistance p theta = p + 1) by lra.
      constructor.
      * now apply (calculateDistance_full_step theta Hp0).
      * apply Hmax; lra.
    + intros Hall. inversion Hall as [| ? ? Htheta Hrest]; subst.
      apply (calculateDistance_full_step theta Hp0) in Htheta.
      apply Hmax in Hrest; lra.
Qed.

(** Five steps against the radius 5: the first one lands at distance 1,
    the other four add at most one unit each. *)
Lemma reduce_five (theta1 : R) (rest : list R) :
  length rest = 4%nat ->
  let d := reduce (Some 5) (List.map Some (theta1 :: rest)) in
  0 <= d <= 5 /\ (d = 5 <-> Forall (fun theta => cos theta = -1) rest).
Proof.
  intros Hlen. unfold reduce. cbn [List.map fold_left].
  assert (Hfirst : step (Some 5) (@of_Z R Exact 0) (Some theta1) = 1).
  { unfold step, reached, geb. cbn [leb Exact to_number of_Z].
    rewrite (proj2 (Rleb_false 5 0)) by lra. apply calculateDistance_from_origin. }
  rewrite Hfirst.
  assert (H4 : INR (length rest) = 4) by (rewrite Hlen; cbn; lra).
  destruct (@fold_step_bound 5 rest 1 ltac:(lra) ltac:(lra)) as [Hbound Hmax].
  cbn zeta in *. rewrite H4 in *. split; [lra |].
  replace 5 with (1 + 4) at 2 by lra. apply Hmax. lra.
Qed.


End ExactPaths.

(** *** Batches *)

Lemma take_Forall {W A} (it : Iterable W A) (P : option A -> Prop) :
  (forall w v w', pull it w = Some (v, w') -> P v) ->
  forall n w vs w', take it n w = Some (vs, w') -> Forall P vs.
Proof.
  intros Hpull. induction n as [| n IH]; intros w vs w'.
  - cbn. intros [= <- _]. constructor.
  - rewrite take_S. destruct (pull it w) as [[v w1] |] eqn:E1; [| discriminate].
    destruct (take it n w1) as [[vs1 w2] |] eqn:E2; [| discriminate].
    intros [= <- _]. constructor; [eapply Hpull, E1 | eapply IH, E2].
Qed.

Lemma take_total {W A} (it : Iterable W A) :
  (forall w, exists v w', pull it w = Some (v, w')) ->
  forall n w, exists vs w', take it n w = Some (vs, w').
Proof.
  intros Hpull. induction n as [| n IH]; intros w.
  - exists [], w. reflexivity.
  - rewrite take_S. destruct (Hpull w) as (v & w1 & ->).
    destruct (IH w1) as (vs & w2 & ->). now exists (v :: vs), w2.
Qed.

Lemma Forall_defined {A} (P : A -> Prop) (vs : list (option A)) :
  Forall (fun v => exists x, v = Some x /\ P x) vs ->
  exists l, vs = List.map Some l /\ Forall P l.
Proof.
  induction 1 as [| v vs (x & -> & Hx) _ (l & -> & Hl)].
  - exists []. split; constructor.
  - exists (x :: l). split; [reflexivity | now constructor].
Qed.

Section ExactBatches.

Local Open Scope R_scope.

Variable random : nat -> R.
Hypothesis random_uniform : forall i, 0 <= random i < 1.

Lemma pull_createThetaStream_range (fuel calls calls' : nat) (v : option R) :
  pull (createThetaStream random fuel) calls = Some (v, calls') ->
  exists theta, v = Some theta /\ 0 <= theta < PI.
Proof.
  intros E. pose proof (theta_next_spec random fuel calls) as Hspec.
  cbn [pull createThetaStream] in E. rewrite E in Hspec.
  destruct v as [theta |]; [| contradiction].
  destruct Hspec as (k & _ & _ & _ & -> & _).
  exists (candidate random calls k). split; [reflexivity |].
  now apply candidate_range.
Qed.

(** Drawn from the sampler, no path of five steps reaches distance 5. *)
Lemma pull_createDistanceStream_below_five (fuel calls calls' : nat) (v : option R) :
  pull (createDistanceStream 5 (createThetaStream random fuel) (Some 5)) calls
  = Some (v, calls') ->
  exists d, v = Some d /\ d < 5.
Proof.
  rewrite pull_createDistanceStream.
  destruct (take (createThetaStream random fuel) 5 calls) as [[thetaArray w] |] eqn:E;
    [| discriminate].
  intros [= <- _]. eexists. split; [reflexivity |].
  pose proof (take_length _ _ _ E) as Hlen.
  apply (take_Forall (createThetaStream random fuel)
           (fun v => exists theta, v = Some theta /\ 0 <= theta < PI)) in E;
    [| intros w0 v0 w0'; apply pull_createThetaStream_range].
  apply Forall_defined in E. destruct E as (angles & -> & Hangles).
  rewrite length_map in Hlen.
  destruct angles as [| theta1 [| theta2 rest]]; try discriminate.
  assert (Hrest : length (theta2 :: rest) = 4%nat) by (cbn in *; lia).
  destruct (reduce_five theta1 (theta2 :: rest) Hrest) as [Hbound Hmax].
  cbn zeta in *.
  assert (Hne : reduce (Some 5) (List.map Some (theta1 :: theta2 :: rest)) <> 5).
  { intros E5. apply Hmax in E5. inversion E5 as [| ? ? Hcos _]; subst.
    inversion Hangles as [| ? ? _ Htail]; subst.
    inversion Htail as [| ? ? Htheta2 _]; subst.
    apply cos_minus_one in Hcos; lra. }
  lra.
Qed.

End ExactBatches.

Lemma aggregate_none_escaped (radius : R) (distances : list (option R)) :
  Forall (fun v => exists d, v = Some d /\ (d < radius)%R) distances ->
  percentEscaped (aggregate radius distances) = 0%R.
Proof.
  intros Hall. unfold aggregate. cbn [percentEscaped].
  replace (filter (fun d => (to_number d >=? radius)%num) distances) with (@nil (option R)).
  - cbn. unfold Rdiv. ring.
  - symmetry. induction Hall as [| v vs (d & -> & Hd) _ IH]; [reflexivity |].
    cbn [filter to_number]. unfold geb at 1. cbn [leb Exact].
    now rewrite (proj2 (Rleb_false radius d)) by exact Hd.
Qed.


(** **** C8 *)





(** ** Further properties of the code *)

(** *** The iterator helpers *)

Lemma take_arrayIterator {A} (elements : list A) (n : nat) :
  forall i, take (arrayIterator elements) n i
            = Some (List.map (nth_error elements) (seq i n), i + n).
Proof.
  induction n as [| n IH]; intros i.
  - cbn. unfold ret. now rewrite Nat.add_0_r.
  - rewrite take_S. cbn [pull arrayIterator]. rewrite IH. cbn [seq List.map].
    do 2 f_equal. lia.
Qed.

Lemma nth_error_seq_all {A} (elements : list A) :
  List.map (nth_error elements) (seq 0 (length elements)) = List.map Some elements.
Proof.
  induction elements as [| x rest IH]; [reflexivity |].
  cbn [length seq List.map nth_error]. f_equal.
  rewrite <- seq_shift, map_map. exact IH.
Qed.

Lemma nth_error_seq_beyond {A} (elements : list A) (k : nat) :
  forall i, length elements <= i ->
            List.map (nth_error elements) (seq i k) = repeat None k.
Proof.
  induction k as [| k IH]; intros i Hi; [reflexivity |].
  cbn [seq List.map repeat]. f_equal.
  - now apply nth_error_None.
  - apply IH. lia.
Qed.

(** Past its end an array iterator pads with [undefined]. *)
Lemma take_arrayIterator_beyond {A} (elements : list A) (k : nat) :
  take (arrayIterator elements) (length elements + k) 0
  = Some (List.map Some elements ++ repeat None k, length elements + k).
Proof.
  rewrite take_arrayIterator, seq_app, map_app, nth_error_seq_all.
  now rewrite nth_error_seq_beyond by lia.
Qed.

Lemma take_add {W A} (it : Iterable W A) (n m : nat) :
  forall w,
    take it (n + m) w
    = match take it n w with
      | Some (vs1, w1) =>
          match take it m w1 with
          | Some (vs2, w2) => Some (vs1 ++ vs2, w2)
          | None => None
          end
      | None => None
      end.
Proof.
  induction n as [| n IH]; intros w.
  - cbn [Nat.add take]. unfold ret.
    destruct (take it m w) as [[vs2 w2] |]; reflexivity.
  - cbn [Nat.add]. rewrite !take_S.
    destruct (pull it w) as [[v w0] |]; [| reflexivity].
    rewrite IH. destruct (take it n w0) as [[vs1 w1] |]; [| reflexivity].
    destruct (take it m w1) as [[vs2 w2] |]; reflexivity.
Qed.



(** X2. [take(it, n)] yields [n] values whatever is left of [it]: taking
    [n + m] values is taking [n] and then [m] from where the first round
    left [it]; taking none leaves [it] alone; and an iterator that runs
    out after [length elements] values pads the rest with [undefined]. *)
Theorem take_yields_n_values :
  (forall (W A : Type) (it : Iterable W A) (n m : nat) (w : W),
      take it (n + m) w
      = (vs1 <- take it n ;; vs2 <- take it m ;; ret (vs1 ++ vs2)) w)
  /\ (forall (W A : Type) (it : Iterable W A) (n : nat) (w : W),
         match take it n w with
         | Some (vs, _) => length vs = n
         | None => True
         end)
  /\ (forall (W A : Type) (it : Iterable W A) (w : W), take it 0 w = Some ([], w))
  /\ (forall (A : Type) (elements : list A) (k : nat),
         take (arrayIterator elements) (length elements + k) 0
         = Some (List.map Some elements ++ repeat None k, length elements + k)).
Proof.
  split; [| split; [| split]].
  - intros W A it n m w. rewrite take_add. unfold bind, ret.
    destruct (take it n w) as [[vs1 w1] |]; [| reflexivity].
    destruct (take it m w1) as [[vs2 w2] |]; reflexivity.
  - intros W A it n w. destruct (take it n w) as [[vs w'] |] eqn:E; [| exact I].
    eapply take_length, E.
  - reflexivity.
  - intros. apply take_arrayIterator_beyond.
Qed.

(** *** The step *)

(** X3. Triangle inequality, in exact arithmetic: from a distance
    [d >= 0] a step moves the distance by at most one unit, whatever the
    angle: the result lies between [|d - 1|] and [d + 1]. *)
Theorem calculateDistance_triangle_inequality (d theta : R) :
  (0 <= d)%R ->
  (Rabs (d - 1) <= calculateDistance d theta <= d + 1)%R
  /\ (Rabs (calculateDistance d theta - d) <= 1)%R.
Proof.
  intros Hd.
  assert (Hlow : (Rabs (d - 1) <= calculateDistance d theta)%R).
  { rewrite calculateDistance_exact, <- sqrt_Rsqr_abs.
    apply sqrt_le_1_alt. unfold Rsqr.
    pose proof (COS_bound theta) as [_ Hup]. nra. }
  pose proof (calculateDistance_le theta Hd) as Hup.
  split; [split; assumption |].
  apply Rabs_le. split; [| lra].
  pose proof (Rle_abs (d - 1)). lra.
Qed.

Lemma calculateDistance_triangle_inequality_witness :
  (0 <= 2)%R
  /\ (Rabs (2 - 1) <= calculateDistance 2%R 1%R <= 2 + 1)%R.
Proof.
  assert (Hd : (0 <= 2)%R) by lra.
  split; [exact Hd |].
  exact (proj1 (calculateDistance_triangle_inequality 1%R Hd)).
Defined.

(** X4. In exact arithmetic the step depends on the angle through its
    cosine only, so it is even and [2 pi]-periodic in the angle; and on
    [[0, pi]] it grows with the angle, from the step straight towards the
    origin to the step straight away from it. *)
Theorem calculateDistance_grows_with_theta :
  (forall d theta1 theta2 : R,
      (0 <= d)%R -> (0 <= theta1)%R -> (theta1 <= theta2)%R -> (theta2 <= PI)%R ->
      (calculateDistance d theta1 <= calculateDistance d theta2)%R)
  /\ (forall d theta theta' : R,
         cos theta = cos theta' -> calculateDistance d theta = calculateDistance d theta')
  /\ (forall d theta : R, calculateDistance d (- theta)%R = calculateDistance d theta)
  /\ (forall d theta : R, calculateDistance d (theta + 2 * PI)%R = calculateDistance d theta).
Proof.
  split; [| split; [| split]].
  - intros d theta1 theta2 Hd H1 H12 H2. rewrite !calculateDistance_exact.
    apply sqrt_le_1_alt.
    assert (Hcos : (cos theta2 <= cos theta1)%R) by (apply cos_decr_1; lra).
    nra.
  - intros d theta theta' E. now rewrite !calculateDistance_exact, E.
  - intros d theta. now rewrite !calculateDistance_exact, cos_neg.
  - intros d theta. rewrite !calculateDistance_exact.
    replace (theta + 2 * PI)%R with (theta + 2 * INR 1 * PI)%R by (cbn; lra).
    now rewrite cos_period.
Qed.

Lemma calculateDistance_grows_with_theta_witness :
  (calculateDistance 2%R 0%R <= calculateDistance 2%R PI)%R.
Proof.
  pose proof PI_RGT_0 as Hpi.
  apply (proj1 calculateDistance_grows_with_theta 2%R 0%R PI); lra.
Defined.

(** *** The path simulator *)

Lemma take_createDistanceStream_sequence {num} `{Number num} (a : nat -> num)
    (stepCount : nat) (radiusLimit : option num) (n : nat) :
  forall i,
    take (createDistanceStream stepCount (sequenceGenerator a) radiusLimit) n i
    = Some (List.map
              (fun k => Some (reduce radiusLimit
                                (List.map (fun j => Some (a j))
                                          (seq (i + k * stepCount) stepCount))))
              (seq 0 n),
            i + n * stepCount).
Proof.
  induction n as [| n IH]; intros i.
  - cbn. unfold ret. now rewrite Nat.add_0_r.
  - rewrite take_S, pull_createDistanceStream, take_sequenceGenerator, IH.
    cbn [seq List.map]. rewrite <- seq_shift, map_map.
    replace (i + 0 * stepCount) with i by lia. f_equal. f_equal.
    + f_equal. apply map_ext. intros k.
      now replace (i + stepCount + k * stepCount) with (i + S k * stepCount) by lia.
    + lia.
Qed.

(** X5. Successive paths read successive blocks of angles: from a
    generator of angles [a i, a (i + 1), ...], the [k]-th of [n] distances
    is folded from the [stepCount] angles at positions
    [i + k * stepCount, ...], whatever the other paths did, and the [n]
    paths leave the generator [n * stepCount] angles further. With
    [stepCount = 0] every distance is [0] and no angle is read. *)
Theorem createDistanceStream_paths_use_consecutive_blocks :
  (forall (num : Type) (N : Number num) (a : nat -> num) (stepCount : nat)
          (radiusLimit : option num) (n i : nat),
      take (createDistanceStream stepCount (sequenceGenerator a) radiusLimit) n i
      = Some (List.map
                (fun k => Some (reduce radiusLimit
                                  (List.map (fun j => Some (a j))
                                            (seq (i + k * stepCount) stepCount))))
                (seq 0 n),
              i + n * stepCount))
  /\ (forall (num : Type) (N : Number num) (W : Type) (thetaStream : Iterable W num)
             (radiusLimit : option num) (n : nat) (w : W),
         take (createDistanceStream 0 thetaStream radiusLimit) n w
         = Some (repeat (Some #0%num) n, w)).
Proof.
  split.
  - intros. apply take_createDistanceStream_sequence.
  - intros num N W thetaStream radiusLimit n w. induction n as [| n IH]; [reflexivity |].
    rewrite take_S, pull_createDistanceStream. cbn [take]. unfold ret.
    now rewrite IH.
Qed.

(** X6. An escape radius that is not above [0] is reached before the
    first step: in every arithmetic the distance is the initial [0], for
    any angles; in exact arithmetic a batch of paths then has
    [averageDistance = 0] and [percentEscaped = 100]. *)
Theorem nonpositive_radius_freezes_at_origin :
  (forall (num : Type) (N : Number num) (radius : num) (thetaArray : list (option num)),
      (radius <=? #0)%num = true ->
      reduce (Some radius) thetaArray = #0%num)
  /\ (forall (W : Type) (thetaStram : Iterable W R) (radius : R) (sampleSize : nat)
             (w w' : W) (r : SimulationResults R),
         (radius <= 0)%R ->
         0 < sampleSize ->
         simulate sampleSize thetaStram radius w = Some (r, w') ->
         averageDistance r = 0%R /\ percentEscaped r = 100%R).
Proof.
  split.
  - intros num N radius thetaArray Hr. unfold reduce.
    now apply fold_step_frozen.
  - intros W thetaStram radius sampleSize w w' r Hr Hn.
    unfold simulate, bind, ret.
    destruct (take (createDistanceStream 5 thetaStram (Some radius)) sampleSize w)
      as [[distances w1] |] eqn:E; [| discriminate].
    intros [= <- _].
    pose proof (take_length _ _ _ E) as Hlen.
    assert (Hzero : Forall (fun v => v = Some 0%R) distances).
    { eapply take_Forall; [| exact E].
      intros w0 v w0'. rewrite pull_createDistanceStream.
      destruct (take thetaStram 5 w0) as [[thetaArray w2] |]; [| discriminate].
      intros [= <- _]. f_equal. unfold reduce. apply fold_step_frozen.
      unfold reached, geb. cbn [leb Exact of_Z]. now apply Rleb_true. }
    assert (Hrepeat : distances = List.map Some (repeat 0%R sampleSize)).
    { rewrite <- Hlen. clear - Hzero.
      induction Hzero as [| v vs -> _ IH]; [reflexivity |]. cbn. now rewrite <- IH. }
    rewrite Hrepeat.
    destruct (aggregate_exact radius (repeat 0%R sampleSize)) as [-> ->].
    rewrite repeat_length.
    assert (Hsum : sum (repeat 0%R sampleSize) = 0%R).
    { unfold sum. clear. induction sampleSize as [| n IH]; cbn; [reflexivity | lra]. }
    assert (Hesc : escaped radius (repeat 0%R sampleSize) = sampleSize).
    { unfold escaped. clear - Hr.
      induction sampleSize as [| n IH]; [reflexivity |]. cbn [repeat filter].
      rewrite (proj2 (Rleb_true radius 0)) by exact Hr. cbn [length]. now rewrite IH. }
    rewrite Hsum, Hesc.
    assert (Hpos : (0 < INR sampleSize)%R) by now apply lt_0_INR.
    split; field; lra.
Qed.

Lemma nonpositive_radius_freezes_at_origin_witness :
  (PrimFloat.leb (-1) 0 = true
   /\ reduce (H := Straight64) (Some (-1)%float) [Some float_PI; Some float_PI] = 0%float)
  /\ ((-1 <= 0)%R
      /\ 0 < 1
      /\ exists (r : SimulationResults R) (w' : nat),
           simulate 1 (sequenceGenerator (fun _ => PI)) (-1)%R 0 = Some (r, w')
           /\ averageDistance r = 0%R /\ percentEscaped r = 100%R).
Proof.
  destruct nonpositive_radius_freezes_at_origin as [Hany Hexact].
  split.
  - split; [reflexivity |].
    exact (Hany float Straight64 (-1)%float [Some float_PI; Some float_PI] eq_refl).
  - assert (Hr : (-1 <= 0)%R) by lra.
    split; [exact Hr | split; [exact Nat.lt_0_1 |]].
    destruct (simulate 1 (sequenceGenerator (fun _ => PI)) (-1)%R 0)
      as [[r w'] |] eqn:E.
    + exists r, w'. split; [reflexivity |].
      exact (Hexact nat (sequenceGenerator (fun _ => PI)) (-1)%R 1 0 w' r Hr Nat.lt_0_1 E).
    + exfalso. unfold simulate, bind, ret in E.
      rewrite take_S, pull_createDistanceStream, take_sequenceGenerator in E.
      cbn [take] in E. unfold ret in E. discriminate.
Defined.

Section LimitedPaths.

Local Open Scope R_scope.

Lemma step_below_limit (radius p theta : R) :
  p < radius -> step (Some radius) p (Some theta) = calculateDistance p theta.
Proof.
  intros Hp. unfold step, reached, geb. cbn [leb Exact to_number].
  now rewrite (proj2 (Rleb_false radius p)) by exact Hp.
Qed.

Lemma step_at_limit (radius p : R) (c : option R) :
  radius <= p -> step (Some radius) p c = p.
Proof.
  intros Hp. unfold step, reached, geb. cbn [leb Exact].
  now rewrite (proj2 (Rleb_true radius p)) by exact Hp.
Qed.

Lemma fold_step_limited (radius : R) (angles : list R) :
  0 < radius ->
  forall p : R,
    0 <= p -> p < radius + 1 ->
    let d := fold_left (step (Some radius)) (List.map Some angles) p in
    0 <= d <= p + INR (length angles)
    /\ d < radius + 1
    /\ (d < radius -> d = fold_left (fun q theta => calculateDistance q theta) angles p).
Proof.
  intros Hr. induction angles as [| theta rest IH]; intros p Hp Hp1;
    cbn [List.map fold_left length].
  - cbn [INR]. repeat split; lra.
  - rewrite S_INR. pose proof (pos_INR (length rest)) as Hlen.
    destruct (Rle_lt_dec radius p) as [Hreached | Hbelow].
    + rewrite step_at_limit by exact Hreached.
      rewrite fold_step_frozen
        by (unfold reached, geb; cbn [leb Exact]; now apply Rleb_true).
      repeat split; lra.
    + rewrite step_below_limit by exact Hbelow.
      pose proof (calculateDistance_pos p theta) as Hpos.
      pose proof (calculateDistance_le theta Hp) as Hle.
      destruct (IH (calculateDistance p theta) Hpos ltac:(lra)) as (Hbound & Hover & Hfull).
      cbn zeta in *. repeat split; first [lra | exact Hfull].
Qed.

End LimitedPaths.

(** X7. In exact arithmetic, against an escape radius [radius > 0] and for
    any angles: the recorded distance lies between [0] and the number of
    steps, and it overshoots the radius by less than one step
    ([d < radius + 1]); a path recorded below the radius was never frozen:
    its distance is the plain composition of all its steps. *)
Theorem recorded_distance_overshoots_by_less_than_a_step (radius : R) (angles : list R) :
  (0 < radius)%R ->
  let d := reduce (Some radius) (List.map Some angles) in
  (0 <= d <= INR (length angles))%R
  /\ (d < radius + 1)%R
  /\ ((d < radius)%R ->
      d = fold_left (fun q theta => calculateDistance q theta) angles 0%R).
Proof.
  intros Hr d.
  destruct (@fold_step_limited radius angles Hr 0%R ltac:(lra) ltac:(lra))
    as (Hbound & Hover & Hfull).
  cbn zeta in *. unfold d, reduce. cbn [of_Z Exact].
  repeat split; first [lra | exact Hfull].
Qed.

Lemma recorded_distance_overshoots_by_less_than_a_step_witness :
  (0 < 3 / 2)%R
  /\ (reduce (Some (3 / 2)%R) (List.map Some [PI; PI; PI]) < 3 / 2 + 1)%R.
Proof.
  assert (Hr : (0 < 3 / 2)%R) by lra.
  split; [exact Hr |].
  exact (proj1 (proj2 (@recorded_distance_overshoots_by_less_than_a_step
                         (3 / 2)%R [PI; PI; PI] Hr))).
Defined.

Lemma fold_step_larger_limit (r1 r2 : R) (thetaArray : list (option R)) :
  (r1 <= r2)%R ->
  forall p : R,
    (fold_left (step (Some r1)) thetaArray p < r1)%R ->
    fold_left (step (Some r2)) thetaArray p = fold_left (step (Some r1)) thetaArray p.
Proof.
  intros Hr. induction thetaArray as [| c rest IH]; intros p Hp; [reflexivity |].
  cbn [fold_left] in *.
  destruct (Rle_lt_dec r1 p) as [Hreached | Hbelow].
  - exfalso. rewrite step_at_limit in Hp by exact Hreached.
    rewrite fold_step_frozen in Hp
      by (unfold reached, geb; cbn [leb Exact]; now apply Rleb_true).
    lra.
  - assert (E1 : step (Some r1) p c = calculateDistance p (to_number c)).
    { unfold step, reached, geb. cbn [leb Exact].
      now rewrite (proj2 (Rleb_false r1 p)) by exact Hbelow. }
    assert (E2 : step (Some r2) p c = calculateDistance p (to_number c)).
    { unfold step, reached, geb. cbn [leb Exact].
      now rewrite (proj2 (Rleb_false r2 p)) by lra. }
    rewrite E1 in *. rewrite E2. now apply IH.
Qed.

(** X8. Escape is monotone in the radius, in exact arithmetic: on the
    same angles, a path that is recorded at or beyond a radius is
    recorded at or beyond every smaller radius; and a path recorded below
    a radius is recorded at the same distance against every larger
    one. *)
Theorem escape_is_monotone_in_the_radius (r1 r2 : R) (thetaArray : list (option R)) :
  (r1 <= r2)%R ->
  ((r2 <= reduce (Some r2) thetaArray)%R -> (r1 <= reduce (Some r1) thetaArray)%R)
  /\ ((reduce (Some r1) thetaArray < r1)%R ->
      reduce (Some r2) thetaArray = reduce (Some r1) thetaArray).
Proof.
  intros Hr.
  assert (Hsame : (reduce (Some r1) thetaArray < r1)%R ->
                  reduce (Some r2) thetaArray = reduce (Some r1) thetaArray).
  { unfold reduce. now apply fold_step_larger_limit. }
  split; [| exact Hsame].
  intros Hescaped. destruct (Rle_lt_dec r1 (reduce (Some r1) thetaArray)) as [H1 | H1];
    [exact H1 |].
  rewrite (Hsame H1) in Hescaped. lra.
Qed.

Lemma escape_is_monotone_in_the_radius_witness :
  (1 <= 2)%R
  /\ (2 <= reduce (Some 2%R) [Some PI; Some PI])%R
  /\ (1 <= reduce (Some 1%R) [Some PI; Some PI])%R.
Proof.
  assert (Hr : (1 <= 2)%R) by lra.
  assert (Hescaped : (2 <= reduce (Some 2%R) [Some PI; Some PI])%R).
  { unfold reduce. cbn [fold_left of_Z Exact].
    rewrite (@step_below_limit 2 0 PI) by lra. rewrite calculateDistance_from_origin.
    rewrite (@step_below_limit 2 1 PI) by lra.
    rewrite calculateDistance_away_from_origin by lra. lra. }
  split; [exact Hr | split; [exact Hescaped |]].
  exact (proj1 (@escape_is_monotone_in_the_radius 1%R 2%R [Some PI; Some PI] Hr) Hescaped).
Defined.

Section UnlimitedPaths.

Local Open Scope R_scope.

Lemma fold_step_unlimited (angles : list R) :
  forall p : R,
    0 <= p ->
    let d := fold_left (step None) (List.map Some angles) p in
    d = fold_left (fun q theta => calculateDistance q theta) angles p
    /\ 0 <= d <= p + INR (length angles)
    /\ (Forall (fun theta => cos theta = -1) angles -> d = p + INR (length angles)).
Proof.
  induction angles as [| theta rest IH]; intros p Hp; cbn [List.map fold_left length].
  - cbn [INR]. repeat split; lra.
  - rewrite S_INR. pose proof (pos_INR (length rest)) as Hlen.
    change (step None p (Some theta)) with (calculateDistance p theta).
    pose proof (calculateDistance_pos p theta) as Hpos.
    pose proof (calculateDistance_le theta Hp) as Hle.
    destruct (IH (calculateDistance p theta) Hpos) as (Hfold & Hbound & Hmax).
    cbn zeta in *. split; [exact Hfold | split; [lra |]].
    intros Hall. inversion Hall as [| ? ? Htheta Hrest]; subst.
    rewrite (Hmax Hrest).
    assert (Estep : calculateDistance p theta = p + 1).
    { rewrite calculateDistance_exact, Htheta.
      replace (1 + p * p - 2 * p * -1) with (Rsqr (p + 1)) by (unfold Rsqr; ring).
      apply sqrt_Rsqr. lra. }
    lra.
Qed.

End UnlimitedPaths.

(** X9. With the default [radiusLimit = Infinity] a path is never frozen
    in exact arithmetic: the distance is the plain composition of its
    steps, it lies between [0] and the number of steps, and it is the
    number of steps when every step goes straight away from the origin.
    In binary64 a finite distance is below [Infinity], and a distance
    that has overflowed to [Infinity] is frozen. *)
Theorem unlimited_path_composes_every_step :
  (forall angles : list R,
      let d := reduce None (List.map Some angles) in
      d = fold_left (fun q theta => calculateDistance q theta) angles 0%R
      /\ (0 <= d <= INR (length angles))%R
      /\ (Forall (fun theta => cos theta = (-1)%R) angles -> d = INR (length angles)))
  /\ (forall (cos64 sin64 : float -> float) (p : float),
         is_finite64 p = true ->
         reached (H := Binary64 cos64 sin64) p None = false)
  /\ (forall (cos64 sin64 : float -> float) (thetaArray : list (option float)),
         fold_left (step (H := Binary64 cos64 sin64) None) thetaArray PrimFloat.infinity
         = PrimFloat.infinity).
Proof.
  split; [| split].
  - intros angles d.
    destruct (fold_step_unlimited angles (p := 0%R) ltac:(lra)) as (Hfold & Hbound & Hmax).
    cbn zeta in *. unfold d, reduce. cbn [of_Z Exact].
    split; [exact Hfold | split; [lra |]].
    intros Hall. rewrite (Hmax Hall). lra.
  - intros cos64 sin64 p. unfold is_finite64, reached. cbn [geb_Infinity Binary64].
    rewrite leb_spec. change (Prim2SF PrimFloat.infinity) with (S754_infinity false).
    destruct (Prim2SF p) as [s | s | | s m e]; try discriminate; reflexivity.
  - intros cos64 sin64 thetaArray. now apply fold_step_frozen.
Qed.

Lemma unlimited_path_composes_every_step_witness :
  Forall (fun theta => cos theta = (-1)%R) [PI; PI; PI]
  /\ reduce None (List.map Some [PI; PI; PI]) = INR 3
  /\ is_finite64 2%float = true
  /\ reached (H := Straight64) 2%float None = false.
Proof.
  destruct unlimited_path_composes_every_step as (Hexact & Hfinite & _).
  assert (Hall : Forall (fun theta => cos theta = (-1)%R) [PI; PI; PI])
    by (repeat constructor; apply cos_PI).
  split; [exact Hall | split; [| split; [reflexivity |]]].
  - exact (proj2 (proj2 (Hexact [PI; PI; PI])) Hall).
  - exact (Hfinite (fun _ => (-1)%float) (fun _ => 1%float) 2%float eq_refl).
Defined.

(** *** Undefined angles *)

Lemma Prim2SF_nan : Prim2SF PrimFloat.nan = S754_nan.
Proof. vm_compute. reflexivity. Qed.

Lemma is_nan_nan (x : float) : PrimFloat.is_nan x = true -> x = PrimFloat.nan.
Proof.
  unfold PrimFloat.is_nan. rewrite eqb_spec. intros Hx.
  apply Prim2SF_inj. rewrite Prim2SF_nan.
  destruct (Prim2SF x) as [s | s | | s m e]; try reflexivity; exfalso.
  - destruct s; discriminate.
  - destruct s; discriminate.
  - unfold SFeqb, SFcompare in Hx.
    rewrite Z.compare_refl, Pos.compare_cont_refl in Hx. destruct s; discriminate.
Qed.

Lemma add64_nan_l (x : float) : (PrimFloat.nan + x)%float = PrimFloat.nan.
Proof. apply Prim2SF_inj. now rewrite add_spec, Prim2SF_nan. Qed.

Lemma add64_nan_r (x : float) : (x + PrimFloat.nan)%float = PrimFloat.nan.
Proof.
  apply Prim2SF_inj. rewrite add_spec, Prim2SF_nan.
  now destruct (Prim2SF x) as [s | s | | s m e].
Qed.

Lemma sub64_nan_l (x : float) : (PrimFloat.nan - x)%float = PrimFloat.nan.
Proof. apply Prim2SF_inj. now rewrite sub_spec, Prim2SF_nan. Qed.

Lemma sub64_nan_r (x : float) : (x - PrimFloat.nan)%float = PrimFloat.nan.
Proof.
  apply Prim2SF_inj. rewrite sub_spec, Prim2SF_nan.
  now destruct (Prim2SF x) as [s | s | | s m e].
Qed.

Lemma mul64_nan_l (x : float) : (PrimFloat.nan * x)%float = PrimFloat.nan.
Proof. apply Prim2SF_inj. now rewrite mul_spec, Prim2SF_nan. Qed.

Lemma mul64_nan_r (x : float) : (x * PrimFloat.nan)%float = PrimFloat.nan.
Proof. now rewrite mul64_comm, mul64_nan_l. Qed.

Lemma div64_nan_l (x : float) : (PrimFloat.nan / x)%float = PrimFloat.nan.
Proof. apply Prim2SF_inj. now rewrite div_spec, Prim2SF_nan. Qed.

Lemma leb64_nan_r (x : float) : PrimFloat.leb x PrimFloat.nan = false.
Proof.
  rewrite leb_spec, Prim2SF_nan. unfold SFleb, SFcompare.
  now destruct (Prim2SF x) as [s | s | | s m e].
Qed.

Section UndefinedAngles.

Variables cos64 sin64 : float -> float.
Hypothesis cos64_nan : PrimFloat.is_nan (cos64 PrimFloat.nan) = true.

Lemma calculateDistance_nan_angle (p : float) :
  calculateDistance (H := Binary64 cos64 sin64) p PrimFloat.nan = PrimFloat.nan.
Proof.
  unfold calculateDistance. cbn [Math_sqrt Math_cos sub mul Binary64].
  rewrite (is_nan_nan _ cos64_nan), mul64_nan_r, sub64_nan_r. reflexivity.
Qed.

Lemma calculateDistance_nan_distance (theta : float) :
  calculateDistance (H := Binary64 cos64 sin64) PrimFloat.nan theta = PrimFloat.nan.
Proof.
  unfold calculateDistance. cbn [Math_sqrt Math_cos add sub mul pow of_Z Binary64].
  change (float_pow PrimFloat.nan 2) with PrimFloat.nan.
  now rewrite add64_nan_r, sub64_nan_l.
Qed.

Lemma reached_nan (radiusLimit : option float) :
  reached (H := Binary64 cos64 sin64) PrimFloat.nan radiusLimit = false.
Proof.
  destruct radiusLimit as [r |]; unfold reached, geb; cbn [leb geb_Infinity Binary64];
    apply leb64_nan_r.
Qed.

Lemma fold_step_nan (radiusLimit : option float) (thetaArray : list (option float)) :
  fold_left (step (H := Binary64 cos64 sin64) radiusLimit) thetaArray PrimFloat.nan = PrimFloat.nan.
Proof.
  induction thetaArray as [| c rest IH]; [reflexivity |].
  cbn [fold_left]. unfold step at 2.
  now rewrite reached_nan, calculateDistance_nan_distance.
Qed.

Lemma reduce_undefined_angle (radiusLimit : option float) (l1 l2 : list (option float)) :
  reached (H := Binary64 cos64 sin64) (reduce (H := Binary64 cos64 sin64) radiusLimit l1) radiusLimit = false ->
  reduce (H := Binary64 cos64 sin64) radiusLimit (l1 ++ None :: l2) = PrimFloat.nan.
Proof.
  intros Hfree. rewrite reduce_app. cbn [fold_left]. unfold step at 2.
  rewrite Hfree. cbn [to_number NaN Binary64].
  rewrite calculateDistance_nan_angle. apply fold_step_nan.
Qed.

Lemma fold_sum_nan (distances : list (option float)) :
  fold_left (fun accumulated d => (accumulated + to_number (H := Binary64 cos64 sin64) d)%float)
            distances PrimFloat.nan
  = PrimFloat.nan.
Proof.
  induction distances as [| d rest IH]; [reflexivity |].
  cbn [fold_left]. now rewrite add64_nan_l.
Qed.

Lemma fold_sum_with_nan (distances : list (option float)) :
  Exists (fun d => to_number (H := Binary64 cos64 sin64) d = PrimFloat.nan) distances ->
  forall accumulated,
    fold_left (fun accumulated d => (accumulated + to_number (H := Binary64 cos64 sin64) d)%float)
              distances accumulated
    = PrimFloat.nan.
Proof.
  induction 1 as [d rest Hd | d rest _ IH]; intros accumulated; cbn [fold_left].
  - rewrite Hd, add64_nan_r. apply fold_sum_nan.
  - apply IH.
Qed.

End UndefinedAngles.

(** X10. In binary64, with [Math.cos(NaN)] NaN: an [undefined] angle, as a
    thetaStream that has run out supplies, makes the step NaN; NaN is
    never [>=] a radius limit, so the path goes on and stays NaN. A path
    of more steps than an array iterator has angles is NaN unless it was
    frozen before the angles ran out. In the batch a NaN distance is not
    counted as escaped, and it makes [averageDistance] NaN. *)
Theorem undefined_angle_makes_the_path_NaN (cos64 sin64 : float -> float) :
  PrimFloat.is_nan (cos64 PrimFloat.nan) = true ->
  (forall (radiusLimit : option float) (l1 l2 : list (option float)),
      reached (H := Binary64 cos64 sin64)
        (reduce (H := Binary64 cos64 sin64) radiusLimit l1) radiusLimit = false ->
      reduce (H := Binary64 cos64 sin64) radiusLimit (l1 ++ None :: l2) = PrimFloat.nan)
  /\ (forall (radiusLimit : option float) (angles : list float) (k : nat),
         0 < k ->
         reached (H := Binary64 cos64 sin64)
           (reduce (H := Binary64 cos64 sin64) radiusLimit (List.map Some angles))
           radiusLimit = false ->
         pull (createDistanceStream (H := Binary64 cos64 sin64) (length angles + k)
                 (arrayIterator angles) radiusLimit) 0
         = Some (Some PrimFloat.nan, length angles + k))
  /\ (forall radius : float,
         geb (H := Binary64 cos64 sin64) PrimFloat.nan radius = false)
  /\ (forall (radius : float) (distances : list (option float)),
         Exists (fun d => to_number (H := Binary64 cos64 sin64) d = PrimFloat.nan)
                distances ->
         averageDistance (aggregate (H := Binary64 cos64 sin64) radius distances)
         = PrimFloat.nan).
Proof.
  intros Hcos. split; [| split; [| split]].
  - intros radiusLimit l1 l2. now apply reduce_undefined_angle.
  - intros radiusLimit angles k Hk Hfree.
    rewrite pull_createDistanceStream, take_arrayIterator_beyond.
    destruct k as [| k]; [lia |]. cbn [repeat].
    now rewrite (@reduce_undefined_angle cos64 sin64 Hcos).
  - intros radius. unfold geb. cbn [leb Binary64]. apply leb64_nan_r.
  - intros radius distances Hnan. unfold aggregate. cbn [averageDistance].
    cbn [div Binary64]. rewrite (@fold_sum_with_nan cos64 sin64 distances Hnan). apply div64_nan_l.
Qed.

Lemma undefined_angle_makes_the_path_NaN_witness :
  PrimFloat.is_nan PrimFloat.nan = true
  /\ 0 < 1
  /\ reached (H := Binary64 (fun x => x) (fun x => x))
       (reduce (H := Binary64 (fun x => x) (fun x => x)) (Some 5%float)
          (List.map Some [1%float]))
       (Some 5%float) = false
  /\ pull (createDistanceStream (H := Binary64 (fun x => x) (fun x => x)) (1 + 1)
             (arrayIterator [1%float]) (Some 5%float)) 0
     = Some (Some PrimFloat.nan, 1 + 1).
Proof.
  split; [reflexivity | split; [exact Nat.lt_0_1 | split; [reflexivity |]]].
  exact (proj1 (proj2 (@undefined_angle_makes_the_path_NaN (fun x => x) (fun x => x)
                         eq_refl))
           (Some 5%float) [1%float] 1 Nat.lt_0_1 eq_refl).
Defined.

(** *** The aggregation *)

Section BatchStatistics.

Local Open Scope R_scope.

Lemma escaped_le_length (radius : R) (distances : list R) :
  (escaped radius distances <= length distances)%nat.
Proof. unfold escaped. apply filter_length_le. Qed.

Lemma escaped_all (radius : R) (distances : list R) :
  escaped radius distances = length distances
  <-> Forall (fun d => radius <= d) distances.
Proof.
  unfold escaped. induction distances as [| d rest IH]; cbn [filter length].
  - split; [constructor | reflexivity].
  - pose proof (filter_length_le (fun d => Rleb radius d) rest) as Hle.
    destruct (Rleb radius d) eqn:E; cbn [length].
    + apply Rleb_true in E. split.
      * intros [= Hrest]. constructor; [exact E | now apply IH].
      * intros Hall. inversion Hall; subst. f_equal. now apply IH.
    + apply Rleb_false in E. split.
      * intros Hlen. lia.
      * intros Hall. inversion Hall; subst. lra.
Qed.

Lemma escaped_none (radius : R) (distances : list R) :
  escaped radius distances = 0%nat
  <-> Forall (fun d => d < radius) distances.
Proof.
  unfold escaped. induction distances as [| d rest IH]; cbn [filter length].
  - split; [constructor | reflexivity].
  - destruct (Rleb radius d) eqn:E; cbn [length].
    + apply Rleb_true in E. split.
      * discriminate.
      * intros Hall. inversion Hall; subst. lra.
    + apply Rleb_false in E. split.
      * intros Hrest. constructor; [exact E | now apply IH].
      * intros Hall. inversion Hall; subst. now apply IH.
Qed.

Lemma sum_bounds (lo hi : R) (distances : list R) :
  Forall (fun d => lo <= d <= hi) distances ->
  lo * INR (length distances) <= sum distances <= hi * INR (length distances).
Proof.
  unfold sum. induction 1 as [| d rest Hd _ IH]; cbn [fold_right length].
  - cbn [INR]. lra.
  - rewrite S_INR. lra.
Qed.

End BatchStatistics.

Section BatchRanges.

Local Open Scope R_scope.

Variables (radius : R) (distances : list R).
Hypothesis nonempty : distances <> [].

Lemma batch_length_pos : 0 < INR (length distances).
Proof. apply lt_0_INR. destruct distances; [contradiction | cbn; lia]. Qed.

Lemma escaped_quotient :
  0 <= INR (escaped radius distances) / INR (length distances) <= 1.
Proof.
  pose proof batch_length_pos as Hlen.
  pose proof (escaped_le_length radius distances) as Hle. apply le_INR in Hle.
  pose proof (pos_INR (escaped radius distances)) as Hpos. split.
  - apply Rmult_le_pos; [lra | apply Rlt_le, Rinv_0_lt_compat; lra].
  - apply (Rmult_le_reg_r (INR (length distances))); [lra |]. unfold Rdiv.
    rewrite Rmult_assoc, Rinv_l by lra. lra.
Qed.

Lemma percentEscaped_range :
  0 <= percentEscaped (aggregate radius (List.map Some distances)) <= 100.
Proof.
  destruct (aggregate_exact radius distances) as [_ ->].
  pose proof escaped_quotient. lra.
Qed.

Lemma averageDistance_range (lo hi : R) :
  Forall (fun d => lo <= d <= hi) distances ->
  lo <= averageDistance (aggregate radius (List.map Some distances)) <= hi.
Proof.
  intros Hall. destruct (aggregate_exact radius distances) as [-> _].
  pose proof batch_length_pos as Hlen. pose proof (sum_bounds Hall) as [Hlo Hhi].
  split; (apply (Rmult_le_reg_r (INR (length distances))); [lra |]); unfold Rdiv;
    rewrite Rmult_assoc, Rinv_l by lra; lra.
Qed.

Lemma percentEscaped_quotient (q : R) :
  percentEscaped (aggregate radius (List.map Some distances)) = 100 * q
  <-> INR (escaped radius distances) = q * INR (length distances).
Proof.
  destruct (aggregate_exact radius distances) as [_ ->].
  pose proof batch_length_pos as Hlen. split.
  - intros E. assert (Eq : INR (escaped radius distances) / INR (length distances) = q)
      by lra.
    rewrite <- Eq. field. lra.
  - intros ->. field. lra.
Qed.

End BatchRanges.

(** X11. In exact arithmetic, for a non-empty batch: [percentEscaped]
    lies between 0 and 100; it is 100 exactly when every distance is at
    or beyond the radius and 0 exactly when none is; and
    [averageDistance] lies between any two bounds that every distance
    lies between. *)
Theorem aggregate_statistics_bounds (radius : R) (distances : list R) :
  distances <> [] ->
  let r := aggregate radius (List.map Some distances) in
  (0 <= percentEscaped r <= 100)%R
  /\ (percentEscaped r = 100%R <-> Forall (fun d => (radius <= d)%R) distances)
  /\ (percentEscaped r = 0%R <-> Forall (fun d => (d < radius)%R) distances)
  /\ (forall lo hi : R,
         Forall (fun d => (lo <= d <= hi)%R) distances ->
         (lo <= averageDistance r <= hi)%R).
Proof.
  intros Hne r. unfold r.
  split; [now apply percentEscaped_range | split; [| split]].
  - rewrite <- escaped_all. replace 100%R with (100 * 1)%R by lra.
    rewrite (percentEscaped_quotient radius Hne 1), Rmult_1_l.
    split; [apply INR_eq | now intros ->].
  - rewrite <- escaped_none. replace 0%R with (100 * 0)%R at 1 by lra.
    rewrite (percentEscaped_quotient radius Hne 0), Rmult_0_l.
    split; [intros E; now apply INR_eq | now intros ->].
  - intros lo hi. now apply averageDistance_range.
Qed.

Lemma aggregate_statistics_bounds_witness :
  [1; 2; 3; 4]%R <> []
  /\ (0 <= percentEscaped (aggregate 3%R (List.map Some [1; 2; 3; 4]%R)) <= 100)%R.
Proof.
  assert (Hne : [1; 2; 3; 4]%R <> []) by discriminate.
  split; [exact Hne |].
  exact (proj1 (@aggregate_statistics_bounds 3%R [1; 2; 3; 4]%R Hne)).
Defined.

(** X12. An empty batch ([sampleSize = 0]): no angle is read, and the
    statistics are quotients by a zero length; in binary64 both
    [averageDistance] and [percentEscaped] are NaN. *)
Theorem empty_batch_statistics_are_NaN :
  (forall (num : Type) (N : Number num) (W : Type) (thetaStram : Iterable W num)
          (radius : num) (w : W),
      simulate 0 thetaStram radius w = Some (aggregate radius [], w))
  /\ (forall (cos64 sin64 : float -> float) (radius : float),
         aggregate (H := Binary64 cos64 sin64) radius []
         = {| radius := radius;
              averageDistance := PrimFloat.nan;
              percentEscaped := PrimFloat.nan |}).
Proof.
  split.
  - reflexivity.
  - intros cos64 sin64 radius. reflexivity.
Qed.

(** *** The sweep over the radii *)

Section Sweep.

Context {num : Type} `{Number num}.

Lemma results_app {W} (sampleSize : nat) (thetaStram : Iterable W num)
    (l1 l2 : list num) :
  forall w,
    results sampleSize thetaStram (l1 ++ l2) w
    = match results sampleSize thetaStram l1 w with
      | Some (rs1, w1) =>
          match results sampleSize thetaStram l2 w1 with
          | Some (rs2, w2) => Some (rs1 ++ rs2, w2)
          | None => None
          end
      | None => None
      end.
Proof.
  induction l1 as [| r rest IH]; intros w; cbn [app results]; unfold bind, ret.
  - destruct (results sampleSize thetaStram l2 w) as [[rs2 w2] |]; reflexivity.
  - destruct (simulate sampleSize thetaStram r w) as [[r1 w0] |]; [| reflexivity].
    fold (@results num H W). rewrite IH.
    destruct (results sampleSize thetaStram rest w0) as [[rs1 w1] |]; [| reflexivity].
    destruct (results sampleSize thetaStram l2 w1) as [[rs2 w2] |]; reflexivity.
Qed.

Lemma results_radii {W} (sampleSize : nat) (thetaStram : Iterable W num)
    (radiusStream : list num) :
  forall w rs w',
    results sampleSize thetaStram radiusStream w = Some (rs, w') ->
    List.map (fun r => radius r) rs = radiusStream.
Proof.
  induction radiusStream as [| r rest IH]; intros w rs w'; cbn [results]; unfold bind, ret.
  - intros [= <- _]. reflexivity.
  - unfold simulate at 1. unfold bind, ret.
    destruct (take (createDistanceStream 5 thetaStram (Some r)) sampleSize w)
      as [[distances w0] |]; [| discriminate].
    fold (@results num H W).
    destruct (results sampleSize thetaStram rest w0) as [[rs1 w1] |] eqn:E; [| discriminate].
    intros [= <- _]. cbn [List.map radius aggregate]. f_equal. eapply IH, E.
Qed.

Lemma simulate_sequence (a : nat -> num) (sampleSize : nat) (r : num) (i : nat) :
  simulate sampleSize (sequenceGenerator a) r i
  = Some (aggregate r (batch a r sampleSize i), i + sampleSize * 5).
Proof.
  unfold simulate, bind, ret. now rewrite take_createDistanceStream_sequence.
Qed.

Lemma results_sequence (a : nat -> num) (sampleSize : nat) (radiusStream : list num) :
  forall i j,
    results sampleSize (sequenceGenerator a) radiusStream (i + j * (sampleSize * 5))
    = Some (List.map
              (fun '(k, r) => aggregate r (batch a r sampleSize (i + k * (sampleSize * 5))))
              (combine (seq j (length radiusStream)) radiusStream),
            i + (j + length radiusStream) * (sampleSize * 5)).
Proof.
  induction radiusStream as [| r rest IH]; intros i j; cbn [results]; unfold bind, ret.
  - cbn. now rewrite Nat.add_0_r.
  - rewrite simulate_sequence. fold (@results num H nat).
    replace (i + j * (sampleSize * 5) + sampleSize * 5)
      with (i + S j * (sampleSize * 5)) by lia.
    rewrite IH. cbn [length seq combine List.map]. do 2 f_equal. lia.
Qed.

End Sweep.

(** X13. The sweep simulates one batch per radius, in the order of the
    radii and each labelled with its radius, all reading the one stream
    of angles: the results for [l1 ++ l2] are those for [l1] followed by
    those for [l2] started where [l1] left the stream. On a generator of
    angles [a i, a (i + 1), ...] the [k]-th radius reads the
    [sampleSize * 5] angles from position [i + k * (sampleSize * 5)],
    shared with no other radius, and the sweep leaves the generator
    [length radiusStream * (sampleSize * 5)] angles further. *)
Theorem results_one_batch_per_radius :
  (forall (num : Type) (N : Number num) (W : Type) (sampleSize : nat)
          (thetaStram : Iterable W num) (l1 l2 : list num) (w : W),
      results sampleSize thetaStram (l1 ++ l2) w
      = (rs1 <- results sampleSize thetaStram l1 ;;
         rs2 <- results sampleSize thetaStram l2 ;;
         ret (rs1 ++ rs2)) w)
  /\ (forall (num : Type) (N : Number num) (W : Type) (sampleSize : nat)
             (thetaStram : Iterable W num) (radiusStream : list num) (w : W),
         match results sampleSize thetaStram radiusStream w with
         | Some (rs, _) => List.map (fun r => radius r) rs = radiusStream
         | None => True
         end)
  /\ (forall (num : Type) (N : Number num) (a : nat -> num) (sampleSize : nat)
             (radiusStream : list num) (i : nat),
         results sampleSize (sequenceGenerator a) radiusStream i
         = Some (List.map
                   (fun '(k, r) =>
                      aggregate r (batch a r sampleSize (i + k * (sampleSize * 5))))
                   (combine (seq 0 (length radiusStream)) radiusStream),
                 i + length radiusStream * (sampleSize * 5))).
Proof.
  split; [| split].
  - intros num N W sampleSize thetaStram l1 l2 w. rewrite results_app. unfold bind, ret.
    destruct (results sampleSize thetaStram l1 w) as [[rs1 w1] |]; [| reflexivity].
    destruct (results sampleSize thetaStram l2 w1) as [[rs2 w2] |]; reflexivity.
  - intros num N W sampleSize thetaStram radiusStream w.
    destruct (results sampleSize thetaStram radiusStream w) as [[rs w'] |] eqn:E;
      [| exact I].
    eapply results_radii, E.
  - intros num N a sampleSize radiusStream i.
    pose proof (results_sequence a sampleSize radiusStream i 0) as E.
    cbn [Nat.mul Nat.add] in E. rewrite Nat.add_0_r in E. exact E.
Qed.

(** X14. Without a significant figure there is no radius: for
    [significantFigures <= 0] the bound [steps * n] of the loop is below
    its first index, in exact arithmetic at most [1 / 2], and
    [createRadiusStream] yields nothing; in binary64 so for
    [significantFigures = 0]. *)
Theorem createRadiusStream_empty_without_figures :
  (forall (significantFigures : Z) (fuel : nat),
      (significantFigures <= 0)%Z ->
      0 < fuel ->
      createRadiusStream (H := Exact) fuel significantFigures = Some [])
  /\ (forall cos64 sin64 : float -> float,
         createRadiusStream (H := Binary64 cos64 sin64) 1 0 = Some []).
Proof.
  split.
  - intros sf fuel Hsf Hfuel. destruct fuel as [| fuel]; [lia |].
    unfold createRadiusStream. cbn [radius_loop of_Z pow div mul leb Exact].
    change (IZR steps) with 5%R.
    destruct (sf - 1)%Z as [| p | p] eqn:E; try lia.
    cbn [powerRZ].
    assert (Hpow : (10 <= 10 ^ Pos.to_nat p)%R).
    { destruct (Pos.to_nat p) as [| m] eqn:Em; [lia |].
      cbn [Rpow_def.pow]. pose proof (pow_R1_Rle 10 m ltac:(lra)). lra. }
    assert (Hinv : (/ 10 ^ Pos.to_nat p <= / 10)%R) by (apply Rinv_le_contravar; lra).
    now rewrite (proj2 (Rleb_false 1 (5 * / 10 ^ Pos.to_nat p))) by lra.
  - intros cos64 sin64. vm_compute. reflexivity.
Qed.

Lemma createRadiusStream_empty_without_figures_witness :
  (0 <= 0)%Z /\ 0 < 1 /\ createRadiusStream (H := Exact) 1 0 = Some [].
Proof.
  split; [lia | split; [exact Nat.lt_0_1 |]].
  exact (proj1 createRadiusStream_empty_without_figures 0%Z 1 ltac:(lia) Nat.lt_0_1).
Defined.

(** *** The run *)

Lemma take_advance {A} (it : Iterable nat A) (c : nat) :
  (forall w v w', pull it w = Some (v, w') -> w + c <= w') ->
  forall n w vs w', take it n w = Some (vs, w') -> w + n * c <= w'.
Proof.
  intros Hpull. induction n as [| n IH]; intros w vs w'.
  - cbn. intros [= _ <-]. lia.
  - rewrite take_S. destruct (pull it w) as [[v w1] |] eqn:E1; [| discriminate].
    destruct (take it n w1) as [[vs1 w2] |] eqn:E2; [| discriminate].
    intros [= _ <-]. apply Hpull in E1. apply IH in E2. lia.
Qed.

Section SamplerRun.

Local Open Scope R_scope.

Variable random : nat -> R.
Hypothesis random_uniform : forall i, 0 <= random i < 1.

Lemma pull_createThetaStream_advance (fuel calls calls' : nat) (v : option R) :
  pull (createThetaStream random fuel) calls = Some (v, calls') ->
  (calls + 2 <= calls')%nat.
Proof.
  intros E. pose proof (theta_next_spec random fuel calls) as Hspec.
  cbn [pull createThetaStream] in E. rewrite E in Hspec.
  destruct v as [theta |]; [| contradiction].
  destruct Hspec as (k & _ & _ & _ & _ & ->). lia.
Qed.

(** One path against a radius above 0, drawn from the sampler. *)
Lemma pull_path_sampler (fuel : nat) (r : R) (calls calls' : nat) (v : option R) :
  0 < r ->
  pull (createDistanceStream 5 (createThetaStream random fuel) (Some r)) calls
  = Some (v, calls') ->
  (exists d, v = Some d /\ 0 <= d <= 5 /\ (r = 5 -> d < 5))
  /\ (calls + 10 <= calls')%nat.
Proof.
  intros Hr Hpull. split.
  - assert (Hfive : r = 5 -> exists d, v = Some d /\ d < 5).
    { intros ->. exact (@pull_createDistanceStream_below_five random random_uniform fuel calls calls' v Hpull). }
    rewrite pull_createDistanceStream in Hpull.
    destruct (take (createThetaStream random fuel) 5 calls) as [[thetaArray w] |] eqn:E;
      [| discriminate].
    injection Hpull as <- _.
    pose proof (take_length _ _ _ E) as Hlen.
    apply (take_Forall (createThetaStream random fuel)
             (fun v => exists theta, v = Some theta /\ 0 <= theta < PI)) in E;
      [| intros w0 v0 w0'; apply (@pull_createThetaStream_range random random_uniform)].
    apply Forall_defined in E. destruct E as (angles & -> & _).
    rewrite length_map in Hlen.
    destruct (@fold_step_limited r angles Hr 0 ltac:(lra) ltac:(lra)) as (Hbound & _).
    cbn zeta in Hbound. rewrite Hlen in Hbound. cbn [INR] in Hbound.
    eexists. split; [reflexivity |]. unfold reduce. cbn [of_Z Exact].
    split; [lra |]. intros E5. destruct (Hfive E5) as (d & [= <-] & Hd). exact Hd.
  - rewrite pull_createDistanceStream in Hpull.
    destruct (take (createThetaStream random fuel) 5 calls) as [[thetaArray w] |] eqn:E;
      [| discriminate].
    injection Hpull as _ <-.
    apply (@take_advance R (createThetaStream random fuel) 2) in E; [lia |].
    intros w0 v0 w0'. apply pull_createThetaStream_advance.
Qed.

(** One batch against a radius above 0, drawn from the sampler. *)
Lemma simulate_sampler (fuel n : nat) (r : R) (calls calls' : nat)
    (res : SimulationResults R) :
  (0 < n)%nat -> 0 < r ->
  simulate n (createThetaStream random fuel) r calls = Some (res, calls') ->
  radius res = r
  /\ 0 <= averageDistance res <= 5
  /\ 0 <= percentEscaped res <= 100
  /\ (r = 5 -> percentEscaped res = 0)
  /\ (calls + n * 10 <= calls')%nat.
Proof.
  intros Hn Hr. unfold simulate, bind, ret.
  destruct (take (createDistanceStream 5 (createThetaStream random fuel) (Some r)) n calls)
    as [[distances w] |] eqn:E; [| discriminate].
  intros [= <- <-]. split; [reflexivity |].
  pose proof (take_length _ _ _ E) as Hlen.
  assert (Hcalls : (calls + n * 10 <= w)%nat).
  { eapply take_advance; [| exact E].
    intros w0 v0 w0' Hpull. exact (proj2 (@pull_path_sampler fuel r w0 w0' v0 Hr Hpull)). }
  assert (Hall : Forall (fun v => exists d, v = Some d
                                            /\ (0 <= d <= 5 /\ (r = 5 -> d < 5)))
                        distances).
  { eapply take_Forall; [| exact E].
    intros w0 v0 w0' Hpull. exact (proj1 (@pull_path_sampler fuel r w0 w0' v0 Hr Hpull)). }
  assert (Hfive : r = 5 -> percentEscaped (aggregate r distances) = 0).
  { intros E5. apply aggregate_none_escaped.
    eapply Forall_impl; [| exact Hall].
    intros v (d & -> & _ & Hd). exists d. split; [reflexivity |]. rewrite E5. now apply Hd. }
  apply Forall_defined in Hall. destruct Hall as (ds & -> & Hds).
  rewrite length_map in Hlen.
  assert (Hne : ds <> []) by (intros ->; cbn in Hlen; lia).
  split; [| split; [| split; [exact Hfive | exact Hcalls]]].
  - apply averageDistance_range; [exact Hne |].
    eapply Forall_impl; [| exact Hds]. now intros d [Hd _].
  - now apply percentEscaped_range.
Qed.

(** The sweep over radii above 0, drawn from the sampler. *)
Lemma results_sampler (fuel n : nat) (radiusStream : list R) :
  (0 < n)%nat ->
  Forall (fun r => 0 < r) radiusStream ->
  forall calls rs calls',
    results n (createThetaStream random fuel) radiusStream calls = Some (rs, calls') ->
    Forall (fun res => 0 <= averageDistance res <= 5
                       /\ 0 <= percentEscaped res <= 100
                       /\ (radius res = 5 -> percentEscaped res = 0)) rs
    /\ (calls + length radiusStream * (n * 10) <= calls')%nat.
Proof.
  intros Hn. induction 1 as [| r rest Hr _ IH]; intros calls rs calls';
    cbn [results]; unfold bind, ret.
  - intros [= <- <-]. split; [constructor | cbn; lia].
  - destruct (simulate n (createThetaStream random fuel) r calls) as [[res w] |] eqn:E;
      [| discriminate].
    destruct (results n (createThetaStream random fuel) rest w) as [[rs1 w1] |] eqn:E1;
      [| discriminate].
    intros [= <- <-].
    destruct (@simulate_sampler fuel n r calls w res Hn Hr E)
      as (Hradius & Havg & Hpct & Hfive & Hcalls).
    destruct (IH _ _ _ E1) as [Hall Hcalls1].
    split; [constructor; [| exact Hall] | cbn [length]; lia].
    rewrite Hradius. auto.
Qed.

End SamplerRun.

(** X15. The run, in exact arithmetic with every [Math.random()] in
    [[0, 1)]: if the sweep of [writeResults] returns, [data.results] holds
    one entry per radius [0.01, 0.02, ..., 5], in that order; every
    [averageDistance] lies in [[0, 5]] and every [percentEscaped] in
    [[0, 100]]; the entry for the radius 5 has [percentEscaped = 0]; and
    the sweep has made at least [500 * sampleSize * 10] calls of
    [Math.random()], two or more for each of the five angles of each
    path. *)
Theorem data_results_of_the_run
    (random : nat -> R) (fuel calls calls' : nat) (rs : list (SimulationResults R)) :
  (forall i, (0 <= random i < 1)%R) ->
  500 < fuel ->
  data_results random fuel calls = Some (rs, calls') ->
  List.map (fun res => radius res) rs
  = List.map (fun i => (INR i / 100)%R) (seq 1 500)
  /\ Forall (fun res => (0 <= averageDistance res <= 5)%R
                        /\ (0 <= percentEscaped res <= 100)%R
                        /\ (radius res = 5%R -> percentEscaped res = 0%R)) rs
  /\ calls + 500 * (sampleSize * 10) <= calls'.
Proof.
  intros Hrandom Hfuel. unfold data_results.
  assert (Hcount : 5 * 10 ^ Z.to_nat (significantFigures - 1) = 500) by reflexivity.
  pose proof (@createRadiusStream_exact significantFigures fuel
                ltac:(unfold significantFigures; lia)) as Hradius.
  cbn zeta in Hradius. rewrite Hcount in Hradius. rewrite (Hradius Hfuel).
  set (radii := List.map _ (seq 1 500)).
  intros Hrun.
  assert (Hradii : radii = List.map (fun i => (INR i / 100)%R) (seq 1 500)).
  { apply map_ext. intros i. unfold significantFigures. cbn [Z.sub Z.opp Z.pos_sub Z.add].
    cbn [powerRZ]. change (Pos.to_nat 2) with 2%nat. cbn [Rpow_def.pow]. field. }
  assert (Hpos : Forall (fun r => (0 < r)%R) radii).
  { rewrite Hradii. apply Forall_forall. intros r Hr.
    apply in_map_iff in Hr. destruct Hr as (i & <- & Hi). apply in_seq in Hi.
    assert (0 < INR i)%R by (apply lt_0_INR; lia). lra. }
  assert (Hn : 0 < sampleSize) by (unfold sampleSize; lia).
  destruct (@results_sampler random Hrandom fuel sampleSize radii Hn Hpos calls rs calls' Hrun)
    as [Hall Hcalls].
  split; [| split; [exact Hall |]].
  - rewrite <- Hradii. eapply results_radii, Hrun.
  - unfold radii in Hcalls. rewrite length_map, length_seq in Hcalls. exact Hcalls.
Qed.

Lemma results_total {num} `{Number num} {W} (n : nat) (thetaStram : Iterable W num) :
  (forall w, exists v w', pull thetaStram w = Some (v, w')) ->
  forall (radiusStream : list num) (w : W),
    exists rs w', results n thetaStram radiusStream w = Some (rs, w').
Proof.
  intros Htheta.
  assert (Hpath : forall (r : num) (w : W), exists v w',
             pull (createDistanceStream 5 thetaStram (Some r)) w = Some (v, w')).
  { intros r w. rewrite pull_createDistanceStream.
    destruct (take_total _ Htheta 5 w) as (thetaArray & w' & ->). now eexists _, _. }
  induction radiusStream as [| r rest IH]; intros w; cbn [results]; unfold bind, ret.
  - now eexists _, _.
  - unfold simulate at 1. unfold bind, ret.
    destruct (take_total _ (Hpath r) n w) as (distances & w1 & ->).
    destruct (IH w1) as (rs & w2 & ->). now eexists _, _.
Qed.

Lemma data_results_of_the_run_witness :
  (forall i : nat, (0 <= (fun _ : nat => 1 / 2) i < 1)%R)
  /\ 500 < 501
  /\ exists (rs : list (SimulationResults R)) (calls' : nat),
       data_results (fun _ => (1 / 2)%R) 501 0 = Some (rs, calls')
       /\ List.map (fun res => radius res) rs
          = List.map (fun i => (INR i / 100)%R) (seq 1 500)
       /\ 0 + 500 * (sampleSize * 10) <= calls'.
Proof.
  assert (Hdraws : forall i : nat, (0 <= (fun _ : nat => 1 / 2) i < 1)%R)
    by (intros i; cbn; lra).
  assert (Hfuel : 500 < 501) by (apply Nat.ltb_lt; reflexivity).
  split; [exact Hdraws | split; [exact Hfuel |]].
  assert (Htheta : forall w, exists v w',
             pull (createThetaStream (fun _ => (1 / 2)%R) 501) w = Some (v, w')).
  { intros w. eexists _, _. cbn [pull createThetaStream].
    apply (theta_next_first_accepted (fun _ => (1 / 2)%R) (k := 0)).
    - apply Nat.ltb_lt. reflexivity.
    - intros j Hj. lia.
    - unfold accepted, coin, candidate. cbn [leb mul Math_sin Math_PI Exact].
      apply Rleb_true.
      replace (1 / 2 * PI)%R with (PI / 2)%R by lra. rewrite sin_PI2. lra. }
  assert (Hrun : exists rs calls',
             data_results (fun _ => (1 / 2)%R) 501 0 = Some (rs, calls')).
  { unfold data_results.
    destruct (createRadiusStream 501 significantFigures) as [radiusStream |] eqn:E.
    - apply results_total. exact Htheta.
    - exfalso.
      pose proof (@createRadiusStream_exact significantFigures 501
                    ltac:(unfold significantFigures; lia)) as Hradius.
      cbn zeta in Hradius.
      rewrite Hradius in E; [discriminate | apply Nat.ltb_lt; reflexivity]. }
  destruct Hrun as (rs & calls' & Hrun). exists rs, calls'.
  split; [exact Hrun |].
  destruct (@data_results_of_the_run (fun _ => (1 / 2)%R) 501 0 calls' rs Hdraws Hfuel Hrun)
    as (Hradii & _ & Hcalls).
  split; [exact Hradii | exact Hcalls].
Defined.

(** *** An array for a stream of angles *)

Lemma reduce_zero_angles (n : nat) :
  fold_left (step (H := Exact) None) (repeat (Some 0%R) n) 0%R
  = (if Nat.even n then 0%R else 1%R)
  /\ fold_left (step (H := Exact) None) (repeat (Some 0%R) n) 1%R
     = (if Nat.even n then 1%R else 0%R).
Proof.
  assert (H01 : step (H := Exact) None 0%R (Some 0%R) = 1%R).
  { change (step None 0%R (Some 0%R)) with (calculateDistance 0%R 0%R).
    apply calculateDistance_from_origin. }
  assert (H10 : step (H := Exact) None 1%R (Some 0%R) = 0%R).
  { change (step None 1%R (Some 0%R)) with (calculateDistance 1%R 0%R).
    rewrite calculateDistance_towards_origin.
    replace (1 - 1)%R with 0%R by lra. apply Rabs_R0. }
  induction n as [| n [IH0 IH1]]; [split; reflexivity |].
  cbn [repeat fold_left]. rewrite H01, H10, IH0, IH1, Nat.even_succ, <- Nat.negb_even.
  destruct (Nat.even n); split; reflexivity.
Qed.

(** X16. An array passed as [thetaStream] is asked for a fresh iterator
    at every angle: every step of every path reads the array's first
    angle, and no path differs from another; an empty array supplies
    [undefined] angles only. In exact arithmetic, with no radius limit,
    the array [[0, ...]] makes the path step back and forth between the
    distances 1 and 0. *)
Theorem array_thetaStream_repeats_first_angle :
  (forall (num : Type) (N : Number num) (W : Type) (theta : num) (rest : list num)
          (stepCount : nat) (radiusLimit : option num) (n : nat) (w : W),
      take (createDistanceStream stepCount (JSArray (theta :: rest)) radiusLimit) n w
      = Some (repeat (Some (reduce radiusLimit (repeat (Some theta) stepCount))) n, w))
  /\ (forall (num : Type) (N : Number num) (W : Type) (stepCount : nat)
             (radiusLimit : option num) (w : W),
         pull (createDistanceStream stepCount (JSArray []) radiusLimit) w
         = Some (Some (reduce radiusLimit (repeat None stepCount)), w))
  /\ (forall (W : Type) (rest : list R) (stepCount : nat) (w : W),
         pull (createDistanceStream stepCount (JSArray (0%R :: rest)) None) w
         = Some (Some (if Nat.even stepCount then 0%R else 1%R), w)).
Proof.
  split; [| split].
  - intros num N W theta rest stepCount radiusLimit n w.
    induction n as [| n IH]; [reflexivity |].
    rewrite take_S, pull_createDistanceStream, take_JSArray, IH. reflexivity.
  - intros num N W stepCount radiusLimit w.
    now rewrite pull_createDistanceStream, take_JSArray.
  - intros W rest stepCount w.
    rewrite pull_createDistanceStream, take_JSArray. cbn [nth_error].
    unfold reduce. cbn [of_Z Exact]. now rewrite (proj1 (reduce_zero_angles stepCount)).
Qed.

(** *** Radii within the first step *)

Lemma aggregate_repeat (radius c : R) (n : nat) :
  0 < n ->
  (radius <= c)%R ->
  averageDistance (aggregate radius (List.map Some (repeat c n))) = c
  /\ percentEscaped (aggregate radius (List.map Some (repeat c n))) = 100%R.
Proof.
  intros Hn Hr.
  destruct (aggregate_exact radius (repeat c n)) as [-> ->].
  rewrite repeat_length.
  assert (Hsum : sum (repeat c n) = (c * INR n)%R).
  { unfold sum. clear. induction n as [| n IH]; [cbn; lra |].
    cbn [repeat fold_right]. rewrite IH, S_INR. lra. }
  assert (Hesc : escaped radius (repeat c n) = n).
  { unfold escaped. clear - Hr.
    induction n as [| n IH]; [reflexivity |]. cbn [repeat filter].
    rewrite (proj2 (Rleb_true radius c)) by exact Hr. cbn [length]. now rewrite IH. }
  rewrite Hsum, Hesc.
  assert (Hpos : (0 < INR n)%R) by now apply lt_0_INR.
  split; field; lra.
Qed.

Lemma Forall_eq_repeat {A} (x : A) (l : list A) :
  Forall (fun v => v = x) l -> l = repeat x (length l).
Proof. induction 1 as [| v vs -> _ IH]; [reflexivity |]. cbn. now rewrite <- IH. Qed.

Lemma reduce_within_first_step (radius theta : R) (rest : list (option R)) :
  (0 < radius <= 1)%R ->
  reduce (Some radius) (Some theta :: rest) = 1%R.
Proof.
  intros [Hlow Hhigh]. unfold reduce. cbn [fold_left of_Z Exact].
  rewrite step_below_limit by exact Hlow.
  rewrite calculateDistance_from_origin.
  apply fold_step_frozen. unfold reached, geb. cbn [leb Exact]. now apply Rleb_true.
Qed.

(** X17. A radius of at most one step is reached by the first step, which
    from the origin lands at distance 1 whatever its angle: in exact
    arithmetic for [0 < radius <= 1], and in binary64 for a finite
    cosine, every path is frozen at the distance 1; a batch drawn from
    the sampler then has [averageDistance = 1] and [percentEscaped = 100]. *)
Theorem radius_within_first_step :
  (forall (radius theta : R) (rest : list (option R)),
      (0 < radius <= 1)%R ->
      reduce (Some radius) (Some theta :: rest) = 1%R)
  /\ (forall (random : nat -> R) (fuel n calls calls' : nat) (radius : R)
             (res : SimulationResults R),
         (0 < radius <= 1)%R ->
         0 < n ->
         simulate n (createThetaStream random fuel) radius calls = Some (res, calls') ->
         averageDistance res = 1%R /\ percentEscaped res = 100%R)
  /\ (forall (cos64 sin64 : float -> float) (radius theta : float)
             (rest : list (option float)),
         PrimFloat.leb radius 0 = false ->
         PrimFloat.leb radius 1 = true ->
         is_finite64 (cos64 theta) = true ->
         reduce (H := Binary64 cos64 sin64) (Some radius) (Some theta :: rest) = 1%float).
Proof.
  split; [| split].
  - intros. now apply reduce_within_first_step.
  - intros random fuel n calls calls' radius res Hr Hn.
    unfold simulate, bind, ret.
    destruct (take (createDistanceStream 5 (createThetaStream random fuel) (Some radius))
                n calls) as [[distances w] |] eqn:E; [| discriminate].
    intros [= <- _].
    pose proof (take_length _ _ _ E) as Hlen.
    assert (Hone : Forall (fun v => v = Some 1%R) distances).
    { eapply take_Forall; [| exact E].
      intros w0 v w0'. rewrite pull_createDistanceStream.
      destruct (take (createThetaStream random fuel) 5 w0) as [[thetaArray w1] |] eqn:E5;
        [| discriminate].
      intros [= <- _]. f_equal.
      rewrite take_S in E5. cbn [pull createThetaStream] in E5.
      pose proof (theta_next_spec random fuel w0) as Hspec.
      destruct (theta_next random fuel w0) as [[[theta |] w2] |];
        [| contradiction | discriminate].
      destruct (take (createThetaStream random fuel) 4 w2) as [[vs w3] |];
        [| discriminate].
      injection E5 as <- _. now apply reduce_within_first_step. }
    apply Forall_eq_repeat in Hone. rewrite Hlen in Hone. rewrite Hone.
    change (repeat (Some 1%R) n) with (repeat (Some 1%R) n).
    replace (repeat (Some 1%R) n) with (List.map Some (repeat 1%R n))
      by (clear; induction n as [| n IH]; [reflexivity | cbn; now rewrite IH]).
    apply aggregate_repeat; [exact Hn | lra].
  - intros cos64 sin64 radius theta rest Hr0 Hr1 Hcos.
    unfold reduce. cbn [fold_left]. unfold step at 2. unfold reached, geb.
    cbn [leb of_Z Binary64 float_of_Z to_number]. change PrimFloat.zero with 0%float.
    rewrite Hr0.
    rewrite (calculateDistance_binary64_from_origin cos64 sin64 theta Hcos).
    apply fold_step_frozen. unfold reached, geb. cbn [leb Binary64]. exact Hr1.
Qed.

Lemma radius_within_first_step_witness :
  (0 < 1 / 2 <= 1)%R
  /\ reduce (Some (1 / 2)%R) (Some PI :: [Some PI; Some PI]) = 1%R
  /\ PrimFloat.leb 0.5 0 = false
  /\ PrimFloat.leb 0.5 1 = true
  /\ is_finite64 (-1) = true
  /\ reduce (H := Straight64) (Some 0.5%float) (Some float_PI :: [Some float_PI]) = 1%float.
Proof.
  destruct radius_within_first_step as (Hexact & _ & Hbinary).
  assert (Hr : (0 < 1 / 2 <= 1)%R) by lra.
  split; [exact Hr | split; [| split; [reflexivity | split; [reflexivity | split]]]].
  - exact (Hexact (1 / 2)%R PI [Some PI; Some PI] Hr).
  - reflexivity.
  - exact (Hbinary (fun _ => (-1)%float) (fun _ => 1%float) 0.5%float float_PI
             [Some float_PI] eq_refl eq_refl eq_refl).
Defined.

(** *** The console *)

Section Console.

Context {num : Type} `{Number num}.

Lemma results_logged_spec {W} (sampleSize : nat) (thetaStram : Iterable W num)
    (radiusStream : list num) :
  forall (w : W) (console : list (num * W)),
    match results_logged sampleSize thetaStram radiusStream (w, console) with
    | Some (rs, (w', console')) =>
        results sampleSize thetaStram radiusStream w = Some (rs, w')
        /\ exists lines, console' = console ++ lines
                         /\ List.map fst lines = radiusStream
    | None => results sampleSize thetaStram radiusStream w = None
    end.
Proof.
  induction radiusStream as [| r rest IH]; intros w console; cbn [results_logged results].
  - unfold ret. split; [reflexivity |]. exists []. now rewrite app_nil_r.
  - unfold bind, ret.
    destruct (simulate sampleSize thetaStram r w) as [[res w1] |]; [| reflexivity].
    specialize (IH w1 (console ++ [(r, w)])).
    destruct (results_logged sampleSize thetaStram rest (w1, console ++ [(r, w)]))
      as [[rs [w2 console2]] |].
    + destruct IH as (-> & lines & -> & Hlines). split; [reflexivity |].
      exists ((r, w) :: lines). rewrite <- app_assoc. cbn. now rewrite Hlines.
    + now rewrite IH.
Qed.

Lemma results_logged_sequence (a : nat -> num) (sampleSize : nat)
    (radiusStream : list num) :
  forall (i j : nat) (console : list (num * nat)),
    results_logged sampleSize (sequenceGenerator a) radiusStream
      (i + j * (sampleSize * 5), console)
    = match results sampleSize (sequenceGenerator a) radiusStream
              (i + j * (sampleSize * 5)) with
      | Some (rs, w') =>
          Some (rs, (w', console
                         ++ List.map (fun '(k, r) => (r, i + k * (sampleSize * 5)))
                                     (combine (seq j (length radiusStream))
                                              radiusStream)))
      | None => None
      end.
Proof.
  induction radiusStream as [| r rest IH]; intros i j console;
    cbn [results_logged results].
  - unfold ret. cbn. now rewrite app_nil_r.
  - unfold bind, ret. rewrite simulate_sequence.
    replace (i + j * (sampleSize * 5) + sampleSize * 5)
      with (i + S j * (sampleSize * 5)) by lia.
    rewrite IH.
    destruct (results sampleSize (sequenceGenerator a) rest (i + S j * (sampleSize * 5)))
      as [[rs w'] |]; [| reflexivity].
    cbn [length seq combine List.map]. now rewrite <- app_assoc.
Qed.

End Console.

(** X18. The console. The sweep prints one line per radius, in the order
    of the radii, and the console changes nothing in the results. Each
    line is printed before its batch reads an angle and after the batches
    before it have read theirs: on a generator of angles the line of the
    [k]-th radius is printed with the generator at position
    [i + k * (sampleSize * 5)]. *)
Theorem console_names_each_radius_before_its_batch :
  (forall (num : Type) (N : Number num) (W : Type) (sampleSize : nat)
          (thetaStram : Iterable W num) (radiusStream : list num)
          (w : W) (console : list (num * W)),
      match results_logged sampleSize thetaStram radiusStream (w, console) with
      | Some (rs, (w', console')) =>
          results sampleSize thetaStram radiusStream w = Some (rs, w')
          /\ exists lines, console' = console ++ lines
                           /\ List.map fst lines = radiusStream
      | None => results sampleSize thetaStram radiusStream w = None
      end)
  /\ (forall (num : Type) (N : Number num) (a : nat -> num) (sampleSize : nat)
             (radiusStream : list num) (i : nat),
         exists rs,
           results_logged sampleSize (sequenceGenerator a) radiusStream (i, [])
           = Some (rs, (i + length radiusStream * (sampleSize * 5),
                        List.map (fun '(k, r) => (r, i + k * (sampleSize * 5)))
                                 (combine (seq 0 (length radiusStream)) radiusStream)))).
Proof.
  split.
  - intros. apply results_logged_spec.
  - intros num N a sampleSize radiusStream i.
    pose proof (results_logged_sequence a sampleSize radiusStream i 0 []) as E.
    pose proof (results_sequence a sampleSize radiusStream i 0) as Er.
    cbn [Nat.mul Nat.add] in E, Er. rewrite Nat.add_0_r in E, Er.
    rewrite Er in E. cbn [app] in E. eexists. exact E.
Qed.

(** *** Paths in binary64 *)

Section RoundedPaths.

Local Unset Implicit Arguments.
Local Open Scope Z_scope.

Lemma scaled_pow2_52 (k : Z) : -1074 <= k -> scaled (2 ^ 52) (k - 52) = 2 ^ (k + bias).
Proof.
  intros Hk. pose proof bias_ge. rewrite scaled_pow2 by lia.
  apply (f_equal (Z.pow 2)). lia.
Qed.

(** The square root of a positive float up to [2 ^ (2 * K)] is at most
    [2 ^ K]. *)
Lemma SFsqrt_upto (m : positive) (e K : Z) :
  -1074 <= e ->
  -1021 <= K <= 1023 ->
  scaled (Z.pos m) e <= 2 ^ (2 * K + bias) ->
  bounded_by false 0 0 (2 ^ 52) (K - 52) (SFsqrt prec emax (S754_finite false m e)).
Proof.
  intros He HK Hval. pose proof bias_ge as Hbias.
  cbn [SFsqrt]. unfold SFsqrt_core_binary.
  set (d := Zdigits2 (Z.pos m)).
  set (e' := Z.min (SpecFloat.fexp prec emax (Z.div2 (d + e + 1))) (Z.div2 e)).
  set (s := e - 2 * e').
  assert (Hd : 2 ^ (d - 1) <= Z.pos m) by (apply Zdigits2_ge; lia).
  assert (Hdpos : 0 < d) by (unfold d; cbn; lia).
  assert (Hde : d - 1 + e <= 2 * K).
  { assert (Hle : 2 ^ (d - 1 + (e + bias)) <= 2 ^ (2 * K + bias)).
    { eapply Z.le_trans; [| exact Hval]. unfold scaled.
      rewrite (Z.pow_add_r 2 (d - 1) (e + bias)) by lia.
      pose proof (pow2_pos (e + bias) ltac:(lia)). nia. }
    apply (Z.pow_le_mono_r_iff 2) in Hle; lia. }
  pose proof (div2_bounds (d + e + 1)) as Hhalf1.
  pose proof (div2_bounds e) as Hhalf2.
  assert (He'up : e' <= K - 52).
  { unfold e', SpecFloat.fexp, SpecFloat.emin, prec, emax. lia. }
  assert (He'low : -1074 <= e').
  { unfold e', SpecFloat.fexp, SpecFloat.emin, prec, emax. lia. }
  assert (Hs : 0 <= s) by (unfold s, e'; lia).
  set (m' := match s with
             | 0 => Z.pos m
             | Z.pos _ => Z.shiftl (Z.pos m) s
             | Z.neg _ => 0
             end).
  assert (Hm' : m' = Z.pos m * 2 ^ s).
  { unfold m'. destruct s as [| p | p] eqn:Es.
    - cbn. lia.
    - now rewrite Z.shiftl_mul_pow2 by lia.
    - lia. }
  pose proof (Z.sqrtrem_spec m' ltac:(rewrite Hm'; pose proof (pow2_pos s Hs); nia)) as Hroot.
  destruct (Z.sqrtrem m') as [q r].
  destruct Hroot as [Hsq Hr].
  assert (Hq : 0 <= q) by lia.
  set (X := 2 ^ (K - e')).
  assert (HX : 0 < X) by (apply pow2_pos; lia).
  assert (HXX : X * X = 2 ^ (2 * K - 2 * e')).
  { unfold X. rewrite <- Z.pow_add_r by lia. apply (f_equal (Z.pow 2)). lia. }
  assert (Hm'X : m' <= X * X).
  { rewrite HXX, Hm'.
    assert (H2 : 2 ^ (2 * K - 2 * e') * 2 ^ (2 * e' + bias) = 2 ^ (2 * K + bias)).
    { rewrite <- Z.pow_add_r by lia. apply (f_equal (Z.pow 2)). lia. }
    assert (H3 : 2 ^ s * 2 ^ (2 * e' + bias) = 2 ^ (e + bias)).
    { rewrite <- Z.pow_add_r by lia. apply (f_equal (Z.pow 2)). unfold s. lia. }
    pose proof (pow2_pos (2 * e' + bias) ltac:(lia)) as Hp.
    unfold scaled in Hval. rewrite <- H2, <- H3 in Hval.
    apply (Z.mul_le_mono_pos_r _ _ (2 ^ (2 * e' + bias))); [exact Hp |]. lia. }
  assert (HqX : q <= X) by nia.
  assert (Hscaled : scaled (2 ^ 52) (K - 52) = X * 2 ^ (e' + bias)).
  { rewrite scaled_pow2_52 by lia. unfold X.
    rewrite <- Z.pow_add_r by lia. apply (f_equal (Z.pow 2)). lia. }
  pose proof (pow2_pos (e' + bias) ltac:(lia)) as Hp.
  apply round_bounds; try lia.
  - rewrite scaled_zero. apply scaled_nonneg. exact Hq.
  - rewrite Hscaled. unfold scaled.
    destruct (Z_lt_le_dec q X) as [Hlt | Hge]; [left; nia | right].
    assert (Hr0 : r = 0) by nia.
    rewrite Hr0. cbn [Z.eqb]. split; [reflexivity | nia].
Qed.

Lemma SFsqrt_bounds_upto (x : spec_float) (k : Z) :
  0 <= k <= 500 ->
  bounded_by false 0 0 (2 ^ 52) (2 * k - 50) x ->
  bounded_by false 0 0 (2 ^ 52) (k - 51) (SFsqrt prec emax x).
Proof.
  intros Hk Hx. pose proof bias_ge as Hbias.
  destruct x as [s | s | | s m e]; cbn [bounded_by] in Hx; try contradiction.
  - reflexivity.
  - destruct Hx as (-> & [_ Hx1] & Hx2).
    replace (k - 51) with (k + 1 - 52) by lia.
    apply SFsqrt_upto; [lia | lia |].
    replace (2 * k - 50) with (2 * k + 2 - 52) in Hx1 by lia.
    rewrite scaled_pow2_52 in Hx1 by lia.
    now replace (2 * (k + 1) + bias) with (2 * k + 2 + bias) by lia.
Qed.

(** [d * d] for [d] up to [2 ^ k]. *)
Lemma SFmul_square_upto (md : positive) (ed : Z) (m1 : positive) (e1 : Z)
    (k PL eL : Z) :
  0 <= k <= 500 ->
  scaled (Z.pos m1) e1 = scaled (Z.pos md) ed ->
  scaled (Z.pos md) ed <= 2 ^ (k + bias) ->
  -1074 <= ed <= k - 52 -> -1074 <= e1 <= ed ->
  0 <= PL < 2 ^ 53 -> -1074 <= eL ->
  scaled PL eL * 2 ^ bias <= scaled (Z.pos md) ed * scaled (Z.pos md) ed ->
  bounded_by false PL eL (2 ^ 52) (2 * k - 52)
    (SFmul prec emax (S754_finite false md ed) (S754_finite false m1 e1)).
Proof.
  intros Hk H1 Hup Hed He1 HPL HeL Hlow. cbn [SFmul xorb].
  pose proof bias_ge as HG.
  pose proof (scaled_mul (Z.pos md) ed (Z.pos m1) e1 ltac:(lia) ltac:(lia)) as Hprod.
  rewrite H1, <- Pos2Z.inj_mul in Hprod.
  pose proof (pow2_pos bias ltac:(lia)) as HpG.
  pose proof (scaled_pos (Z.pos md) ed ltac:(lia) ltac:(lia)) as Hv.
  set (v := scaled (Z.pos md) ed) in *.
  set (w := scaled (Z.pos (md * m1)) (ed + e1)) in *.
  apply round_bounds; try lia.
  - fold w. nia.
  - right. split; [reflexivity |]. fold w.
    replace (2 * k - 52) with (2 * k - 52) by lia.
    rewrite (scaled_pow2_52 (2 * k)) by lia.
    assert (Hsq : v * v <= 2 ^ (k + bias) * 2 ^ (k + bias))
      by (apply Z.mul_le_mono_nonneg; lia).
    assert (Hpow : 2 ^ (k + bias) * 2 ^ (k + bias) = 2 ^ (2 * k + bias) * 2 ^ bias).
    { rewrite <- !Z.pow_add_r by lia. apply (f_equal (Z.pow 2)). lia. }
    pose proof (pow2_pos (2 * k + bias) ltac:(lia)). nia.
Qed.

(** [1 + a] for [a] up to [2 ^ (2 * k)]. *)
Lemma SFadd_one_upto (a : spec_float) (k PL eL Pb eb : Z) :
  0 <= k <= 500 ->
  bounded_by false PL eL (2 ^ 52) (2 * k - 52) a ->
  0 <= PL ->
  0 < Pb < 2 ^ 53 -> -1074 <= eb ->
  scaled Pb eb <= 2 ^ bias + scaled PL eL ->
  bounded_by false Pb eb (2 ^ 52) (2 * k - 51) (SFadd prec emax one_SF a).
Proof.
  intros Hk Ha HPL HPb Heb Hlow. pose proof bias_ge as HG.
  assert (Hup : 2 ^ bias + scaled (2 ^ 52) (2 * k - 52) <= scaled (2 ^ 52) (2 * k - 51)).
  { rewrite (scaled_pow2_52 (2 * k)) by lia.
    replace (2 * k - 51) with (2 * k + 1 - 52) by lia.
    rewrite (scaled_pow2_52 (2 * k + 1)) by lia.
    replace (2 * k + 1 + bias) with (2 * k + bias + 1) by lia.
    rewrite <- pow2_double by lia.
    pose proof (pow2_le bias (2 * k + bias) ltac:(lia)). lia. }
  destruct a as [sa | sa | | sa ma ea]; cbn [bounded_by] in Ha; try contradiction.
  - subst PL. rewrite scaled_zero in Hlow. unfold one_SF. cbn [SFadd bounded_by].
    rewrite scaled_one. split; [reflexivity |]. split; [| lia].
    split; [lia |]. pose proof (scaled_nonneg (2 ^ 52) (2 * k - 52) ltac:(lia)). lia.
  - destruct Ha as (-> & [Ha1 Ha2] & Ha3). unfold one_SF.
    apply SFadd_finite; try lia. rewrite scaled_one. lia.
Qed.

(** [b - x] for [x] of magnitude at most [b], with [b] up to
    [2 ^ (2 * k + 1)]. *)
Lemma SFsub_within_upto (mB : positive) (eB : Z) (x : spec_float) (sx : bool)
    (k P eP : Z) :
  0 <= k <= 500 ->
  scaled P eP <= scaled (Z.pos mB) eB <= scaled (2 ^ 52) (2 * k - 51) ->
  -1074 <= eB <= 2 * k - 51 ->
  bounded_by sx 0 0 P eP x ->
  bounded_by false 0 0 (2 ^ 52) (2 * k - 50) (SFsub prec emax (S754_finite false mB eB) x).
Proof.
  intros Hk [HB1 HB2] HeB Hx. pose proof bias_ge as HG.
  assert (Hup : scaled (2 ^ 52) (2 * k - 51) + scaled (2 ^ 52) (2 * k - 51)
                = scaled (2 ^ 52) (2 * k - 50)).
  { replace (2 * k - 51) with (2 * k + 1 - 52) by lia.
    replace (2 * k - 50) with (2 * k + 2 - 52) by lia.
    rewrite !scaled_pow2_52 by lia. rewrite pow2_double by lia.
    apply (f_equal (Z.pow 2)). lia. }
  pose proof (scaled_nonneg (2 ^ 52) (2 * k - 51) ltac:(lia)) as Hnn.
  pose proof (scaled_nonneg P eP) as HnnP.
  destruct x as [s | s | | s mx ex]; cbn [bounded_by] in Hx; try contradiction.
  - cbn [SFsub bounded_by]. split; [reflexivity |]. split; [| lia].
    split; [rewrite scaled_zero; apply scaled_nonneg; lia | lia].
  - destruct Hx as (-> & [_ Hx1] & Hx2).
    apply SFsub_finite; try lia.
Qed.

Lemma bounded_by_one_SF_upto (k : Z) :
  0 <= k <= 500 -> bounded_by false 0 0 (2 ^ 52) (2 * k - 50) one_SF.
Proof.
  intros Hk. unfold one_SF. cbn [bounded_by]. pose proof bias_ge as HG.
  split; [reflexivity |]. split; [| lia].
  replace (2 * k - 50) with (2 * k + 2 - 52) by lia.
  rewrite scaled_one, scaled_zero, scaled_pow2_52 by lia.
  split; [apply Z.pow_nonneg; lia | apply pow2_le; lia].
Qed.

(** The chain of roundings from a positive [d <= 2 ^ k]. *)
Lemma distance_SF_from_upto (md : positive) (ed : Z) (c : spec_float) (k PL eL : Z) :
  0 <= k <= 500 ->
  Z.pos md < 2 ^ 53 -> -1074 <= ed <= k - 52 ->
  scaled (Z.pos md) ed <= 2 ^ (k + bias) ->
  (exists sc, bounded_by sc 0 0 4503599627370496 (-52) c) ->
  0 <= PL < 2 ^ 53 -> -1074 <= eL ->
  scaled PL eL * 2 ^ bias <= scaled (Z.pos md) ed * scaled (Z.pos md) ed ->
  scaled (Z.pos md) (ed + 1) <= 2 ^ bias + scaled PL eL ->
  bounded_by false 0 0 (2 ^ 52) (k - 51)
    (SFsqrt prec emax
       (SFsub prec emax
          (SFadd prec emax one_SF
             (SFmul prec emax (S754_finite false md ed)
                (SFmul prec emax (S754_finite false md ed) one_SF)))
          (SFmul prec emax (SFmul prec emax two_SF (S754_finite false md ed)) c))).
Proof.
  intros Hk Hmd Hed Hup Hc HPL HeL Hsq Hone. pose proof bias_ge as HG.
  destruct (SFmul_one md ed Hmd ltac:(lia)) as (m1 & e1 & -> & Hv1 & He1).
  destruct (SFmul_two md ed Hmd ltac:(lia)) as (mC & eC & -> & HvC & HeC).
  pose proof (SFmul_square_upto md ed m1 e1 k PL eL Hk Hv1 Hup Hed He1 HPL HeL Hsq) as HA.
  pose proof (SFadd_one_upto _ k PL eL (Z.pos md) (ed + 1) Hk HA (proj1 HPL)
                ltac:(lia) ltac:(lia) Hone) as HB.
  destruct (bounded_by_finite false (Z.pos md) (ed + 1) (2 ^ 52) (2 * k - 51) _
              ltac:(lia) HB) as (mB & eB & -> & HvB & HeB).
  destruct (SFmul_within_one mC eC c (Z.pos md) (ed + 1)
              ltac:(lia) ltac:(lia) ltac:(lia) ltac:(lia) Hc) as [sD HD].
  apply SFsqrt_bounds_upto; [exact Hk |].
  apply (SFsub_within_upto mB eB _ sD k (Z.pos md) (ed + 1));
    [exact Hk | exact HvB | lia | exact HD].
Qed.

(** One step from a double [0 <= d <= 2 ^ k] with a cosine in [[-1, 1]]
    is a double [0 <= d' <= 2 ^ (k + 1)]. *)
Lemma distance_SF_upto (d c : spec_float) (k : Z) :
  0 <= k <= 500 ->
  SpecFloat.valid_binary prec emax d = true ->
  bounded_by false 0 0 (2 ^ 52) (k - 52) d ->
  (exists sc, bounded_by sc 0 0 4503599627370496 (-52) c) ->
  bounded_by false 0 0 (2 ^ 52) (k - 51)
    (SFsqrt prec emax
       (SFsub prec emax
          (SFadd prec emax one_SF (SFmul prec emax d (SFmul prec emax d one_SF)))
          (SFmul prec emax (SFmul prec emax two_SF d) c))).
Proof.
  intros Hk Hvd Hd Hc. pose proof bias_ge as HG.
  destruct d as [sd | sd | | sd md ed]; cbn [bounded_by] in Hd; try contradiction.
  - (* from the origin *)
    apply SFsqrt_bounds_upto; [exact Hk |]. destruct Hc as [sc Hc].
    destruct c as [s | s | | s m e]; cbn [bounded_by] in Hc; try contradiction;
      destruct sd; exact (bounded_by_one_SF_upto k Hk).
  - destruct Hd as (-> & [_ Hup] & Hed').
    destruct (valid_finite false md ed Hvd) as (Hmd & Hed & Hnormal).
    rewrite scaled_pow2_52 in Hup by lia.
    pose proof (scaled_pos (Z.pos md) ed ltac:(lia) ltac:(lia)) as Hv.
    pose proof (scaled_succ (Z.pos md) ed ltac:(lia)) as Htwice.
    pose proof (pow2_pos bias ltac:(lia)) as HpG.
    destruct (Z_le_gt_dec ed (-54)) as [Hsmall | Hbig];
      [| destruct (Z_le_gt_dec ed (-1)) as [Hmid | Hlarge]].
    + apply (distance_SF_from_upto md ed c k 0 0); try assumption; try lia.
      * rewrite scaled_zero. nia.
      * rewrite scaled_zero, Z.add_0_r. unfold scaled.
        apply Z.le_trans with (2 ^ 53 * 2 ^ (ed + 1 + bias)).
        -- apply Z.mul_le_mono_nonneg_r; [apply Z.pow_nonneg; lia | lia].
        -- rewrite <- Z.pow_add_r by lia. apply pow2_le. lia.
    + specialize (Hnormal ltac:(lia)).
      assert (Hpk : 2 ^ (- ed - 1) <= 2 ^ 52) by (apply pow2_le; lia).
      pose proof (pow2_pos (- ed - 1) ltac:(lia)) as Hkpos.
      assert (HL : scaled (Z.pos md - 2 ^ (- ed - 1)) (ed + 1)
                   = 2 * scaled (Z.pos md) ed - 2 ^ bias).
      { rewrite scaled_sub, Htwice, scaled_pow2 by lia.
        now replace (- ed - 1 + (ed + 1) + bias) with bias by lia. }
      apply (distance_SF_from_upto md ed c k (Z.pos md - 2 ^ (- ed - 1)) (ed + 1));
        try assumption; try lia.
      rewrite HL. set (v := scaled (Z.pos md) ed) in *. set (t := 2 ^ bias) in *.
      assert (0 <= (v - t) * (v - t)) by apply Z.square_nonneg. lia.
    + specialize (Hnormal ltac:(lia)).
      assert (Hv2 : 2 * 2 ^ bias <= scaled (Z.pos md) ed).
      { unfold scaled. apply Z.le_trans with (2 ^ 52 * 2 ^ bias); [lia |].
        apply Z.mul_le_mono_nonneg; try lia. apply pow2_le. lia. }
      apply (distance_SF_from_upto md ed c k (Z.pos md) (ed + 1)); try assumption; try lia.
      rewrite Htwice. set (v := scaled (Z.pos md) ed) in *. set (t := 2 ^ bias) in *. nia.
Qed.

End RoundedPaths.

Section RoundedFold.

Variables cos64 sin64 : float -> float.

Lemma bounded_by_up (e1 e2 : Z) (x : spec_float) :
  (-1074 <= e1 <= e2)%Z ->
  bounded_by false 0 0 (2 ^ 52) e1 x ->
  bounded_by false 0 0 (2 ^ 52) e2 x.
Proof.
  intros He Hx. pose proof bias_ge as Hbias.
  destruct x as [s | s | | s m e]; cbn [bounded_by] in *; try contradiction.
  - reflexivity.
  - destruct Hx as (-> & [Hx0 Hx1] & Hx2). split; [reflexivity |]. split; [| lia].
    split; [exact Hx0 |]. eapply Z.le_trans; [exact Hx1 |].
    rewrite !scaled_pow2 by lia. apply pow2_le. lia.
Qed.

Lemma Prim2SF_calculateDistance (p theta : float) :
  Prim2SF (calculateDistance (H := Binary64 cos64 sin64) p theta)
  = SFsqrt prec emax
      (SFsub prec emax
         (SFadd prec emax one_SF
            (SFmul prec emax (Prim2SF p) (SFmul prec emax (Prim2SF p) one_SF)))
         (SFmul prec emax (SFmul prec emax two_SF (Prim2SF p)) (Prim2SF (cos64 theta)))).
Proof.
  unfold calculateDistance. cbn.
  rewrite sqrt_spec, sub_spec, add_spec, !mul_spec.
  rewrite Prim2SF_one, Prim2SF_two. reflexivity.
Qed.

Lemma calculateDistance_binary64_upto (p theta : float) (k : Z) :
  (0 <= k <= 500)%Z ->
  bounded_by false 0 0 (2 ^ 52) (k - 52) (Prim2SF p) ->
  PrimFloat.leb (-1) (cos64 theta) = true ->
  PrimFloat.leb (cos64 theta) 1 = true ->
  bounded_by false 0 0 (2 ^ 52) (k - 51)
    (Prim2SF (calculateDistance (H := Binary64 cos64 sin64) p theta)).
Proof.
  intros Hk Hp Hc0 Hc1.
  rewrite leb_spec in Hc0, Hc1.
  rewrite Prim2SF_minus_one in Hc0. rewrite Prim2SF_one in Hc1.
  pose proof (within_one (Prim2SF (cos64 theta)) (Prim2SF_valid (cos64 theta)) Hc0 Hc1)
    as Hc.
  rewrite Prim2SF_calculateDistance.
  exact (distance_SF_upto (Prim2SF p) (Prim2SF (cos64 theta)) k Hk (Prim2SF_valid p) Hp Hc).
Qed.

Lemma fold_step_binary64_upto (radiusLimit : option float) (angles : list float) :
  Forall (fun theta => PrimFloat.leb (-1) (cos64 theta) = true
                       /\ PrimFloat.leb (cos64 theta) 1 = true) angles ->
  forall (k : Z) (p : float),
    (0 <= k)%Z ->
    (k + Z.of_nat (length angles) <= 500)%Z ->
    bounded_by false 0 0 (2 ^ 52) (k - 52) (Prim2SF p) ->
    bounded_by false 0 0 (2 ^ 52) (k + Z.of_nat (length angles) - 52)
      (Prim2SF (fold_left (step (H := Binary64 cos64 sin64) radiusLimit)
                          (List.map Some angles) p)).
Proof.
  induction 1 as [| theta rest [Hc0 Hc1] _ IH]; intros k p Hk Hlen Hp;
    cbn [List.map fold_left length] in *.
  - now rewrite Z.add_0_r.
  - rewrite Nat2Z.inj_succ in *.
    replace (k + Z.succ (Z.of_nat (length rest)) - 52)%Z
      with (k + 1 + Z.of_nat (length rest) - 52)%Z by lia.
    apply IH; [lia | lia |].
    replace (k + 1 - 52)%Z with (k - 51)%Z by lia.
    unfold step. destruct (reached p radiusLimit).
    + apply (@bounded_by_up (k - 52)%Z); [lia | exact Hp].
    + cbn [to_number]. apply calculateDistance_binary64_upto; [lia | assumption ..].
Qed.

Lemma bounded_by_finite_nonneg (e : Z) (x : float) :
  bounded_by false 0 0 (2 ^ 52) e (Prim2SF x) ->
  is_finite64 x = true /\ PrimFloat.leb 0 x = true.
Proof.
  unfold is_finite64. rewrite leb_spec, Prim2SF_zero.
  destruct (Prim2SF x) as [s | s | | s m e']; cbn [bounded_by]; try contradiction.
  - intros _. split; reflexivity.
  - intros (-> & _). split; reflexivity.
Qed.

Lemma reduce_binary64_finite (radiusLimit : option float) (angles : list float) :
  Forall (fun theta => PrimFloat.leb (-1) (cos64 theta) = true
                       /\ PrimFloat.leb (cos64 theta) 1 = true) angles ->
  length angles <= 500 ->
  is_finite64 (reduce (H := Binary64 cos64 sin64) radiusLimit (List.map Some angles)) = true
  /\ PrimFloat.leb 0 (reduce (H := Binary64 cos64 sin64) radiusLimit (List.map Some angles))
     = true.
Proof.
  intros Hcos Hlen.
  apply (@bounded_by_finite_nonneg (0 + Z.of_nat (length angles) - 52)%Z).
  unfold reduce. apply fold_step_binary64_upto; [exact Hcos | lia | lia |].
  cbn [of_Z Binary64 float_of_Z]. change (Prim2SF PrimFloat.zero) with (S754_zero false).
  reflexivity.
Qed.

End RoundedFold.

(** X19. Paths in binary64. For any radius limit and up to 500 angles at
    which [Math.cos] returns a double in [[-1, 1]], the composed distance
    is a finite double [>= 0]: no step's radicand rounds below zero and
    nothing overflows, whether or when the path is frozen. So every
    distance that [createDistanceStream] yields for [stepCount <= 500]
    from a generator of such angles is finite and [>= 0]. *)
Theorem paths_stay_finite_in_binary64 :
  (forall (cos64 sin64 : float -> float) (radiusLimit : option float)
          (angles : list float),
      Forall (fun theta => PrimFloat.leb (-1) (cos64 theta) = true
                           /\ PrimFloat.leb (cos64 theta) 1 = true) angles ->
      length angles <= 500 ->
      let d := reduce (H := Binary64 cos64 sin64) radiusLimit (List.map Some angles) in
      is_finite64 d = true /\ PrimFloat.leb 0 d = true)
  /\ (forall (cos64 sin64 : float -> float) (radiusLimit : option float)
             (a : nat -> float) (stepCount i : nat),
         (forall j, PrimFloat.leb (-1) (cos64 (a j)) = true
                    /\ PrimFloat.leb (cos64 (a j)) 1 = true) ->
         stepCount <= 500 ->
         exists d : float,
           pull (createDistanceStream (H := Binary64 cos64 sin64) stepCount
                   (sequenceGenerator a) radiusLimit) i
           = Some (Some d, i + stepCount)
           /\ is_finite64 d = true /\ PrimFloat.leb 0 d = true).
Proof.
  split.
  - intros cos64 sin64 radiusLimit angles Hcos Hlen d.
    now apply reduce_binary64_finite.
  - intros cos64 sin64 radiusLimit a stepCount i Hcos Hlen.
    rewrite pull_createDistanceStream, take_sequenceGenerator.
    eexists. split; [reflexivity |].
    rewrite <- (map_map a Some).
    apply reduce_binary64_finite.
    + apply Forall_forall. intros theta Hin.
      apply in_map_iff in Hin. destruct Hin as (j & <- & _). apply Hcos.
    + now rewrite length_map, length_seq.
Qed.

Lemma paths_stay_finite_in_binary64_witness :
  Forall (fun theta => PrimFloat.leb (-1) (-1) = true /\ PrimFloat.leb (-1) 1 = true)
         [float_PI; float_PI; float_PI]
  /\ 3 <= 500
  /\ is_finite64 (reduce (H := Straight64) (Some 2%float)
                    (List.map Some [float_PI; float_PI; float_PI])) = true
  /\ PrimFloat.leb 0 (reduce (H := Straight64) (Some 2%float)
                        (List.map Some [float_PI; float_PI; float_PI])) = true.
Proof.
  assert (Hcos : Forall (fun theta : float =>
                           PrimFloat.leb (-1) ((fun _ => (-1)%float) theta) = true
                           /\ PrimFloat.leb ((fun _ => (-1)%float) theta) 1 = true)
                        [float_PI; float_PI; float_PI])
    by (repeat constructor).
  assert (Hlen : length [float_PI; float_PI; float_PI] <= 500) by (cbn; lia).
  split; [exact Hcos | split; [exact Hlen |]].
  exact (proj1 paths_stay_finite_in_binary64 (fun _ => (-1)%float) (fun _ => 1%float)
           (Some 2%float) [float_PI; float_PI; float_PI] Hcos Hlen).
Defined.

Section SampledPaths64.

Variables cos64 sin64 : float -> float.
Variable random : nat -> float.

Hypothesis random_uniform :
  forall i, PrimFloat.leb 0 (random i) = true /\ PrimFloat.ltb (random i) 1 = true.
Hypothesis cos64_range :
  forall x, PrimFloat.leb 0 x = true -> PrimFloat.leb x float_PI = true ->
            PrimFloat.leb (-1) (cos64 x) = true /\ PrimFloat.leb (cos64 x) 1 = true.

Lemma pull_createThetaStream_cos64 (fuel calls calls' : nat) (v : option float) :
  pull (createThetaStream (H := Binary64 cos64 sin64) random fuel) calls = Some (v, calls') ->
  exists theta, v = Some theta
                /\ (PrimFloat.leb (-1) (cos64 theta) = true
                    /\ PrimFloat.leb (cos64 theta) 1 = true).
Proof.
  intros E.
  pose proof (theta_next_spec (H := Binary64 cos64 sin64) random fuel calls) as Hspec.
  cbn [pull createThetaStream] in E. rewrite E in Hspec.
  destruct v as [theta |]; [| contradiction].
  destruct Hspec as (k & _ & _ & _ & -> & _).
  eexists. split; [reflexivity |].
  unfold candidate. cbn [mul Math_PI Binary64].
  destruct (random_uniform (calls + 2 * k)) as [H0 H1].
  destruct (mul_PI_range H0 H1) as [Hlow Hhigh].
  now apply cos64_range.
Qed.

Lemma pull_path_binary64 (fuel : nat) (radiusLimit : option float)
    (calls calls' : nat) (v : option float) :
  pull (createDistanceStream (H := Binary64 cos64 sin64) 5
          (createThetaStream (H := Binary64 cos64 sin64) random fuel) radiusLimit) calls
  = Some (v, calls') ->
  exists d, v = Some d /\ (is_finite64 d = true /\ PrimFloat.leb 0 d = true).
Proof.
  rewrite pull_createDistanceStream.
  destruct (take (createThetaStream (H := Binary64 cos64 sin64) random fuel) 5 calls)
    as [[thetaArray w] |] eqn:E; [| discriminate].
  intros [= <- _]. eexists. split; [reflexivity |].
  pose proof (take_length _ _ _ E) as Hlen.
  apply (take_Forall (createThetaStream (H := Binary64 cos64 sin64) random fuel)
           (fun v => exists theta, v = Some theta
                                   /\ (PrimFloat.leb (-1) (cos64 theta) = true
                                       /\ PrimFloat.leb (cos64 theta) 1 = true))) in E;
    [| intros w0 v0 w0'; apply pull_createThetaStream_cos64].
  apply Forall_defined in E. destruct E as (angles & -> & Hangles).
  rewrite length_map in Hlen.
  apply reduce_binary64_finite; [exact Hangles | lia].
Qed.

End SampledPaths64.

(** X20. The distances of the program in binary64. With every
    [Math.random()] a double in [[0, 1)] and [Math.cos] returning a
    double in [[-1, 1]] on the doubles of [[0, Math.PI]], every angle of
    the sampler has such a cosine, and every distance of every batch,
    against any radius, is a finite double [>= 0]: never NaN, never
    [Infinity]. *)
Theorem sampled_distances_are_finite_in_binary64
    (cos64 sin64 : float -> float) (random : nat -> float)
    (fuel n calls calls' : nat) (radiusLimit : option float)
    (distances : list (option float)) :
  (forall i, PrimFloat.leb 0 (random i) = true /\ PrimFloat.ltb (random i) 1 = true) ->
  (forall x, PrimFloat.leb 0 x = true -> PrimFloat.leb x float_PI = true ->
             PrimFloat.leb (-1) (cos64 x) = true /\ PrimFloat.leb (cos64 x) 1 = true) ->
  take (createDistanceStream (H := Binary64 cos64 sin64) 5
          (createThetaStream (H := Binary64 cos64 sin64) random fuel) radiusLimit) n calls
  = Some (distances, calls') ->
  Forall (fun v => exists d, v = Some d
                             /\ (is_finite64 d = true /\ PrimFloat.leb 0 d = true))
         distances.
Proof.
  intros Hrandom Hcos Hrun.
  eapply take_Forall; [| exact Hrun].
  intros w v w'. now apply pull_path_binary64.
Qed.

Lemma sampled_distances_are_finite_in_binary64_witness :
  (forall i : nat, PrimFloat.leb 0 ((fun _ => 0.5%float) i) = true
                   /\ PrimFloat.ltb ((fun _ => 0.5%float) i) 1 = true)
  /\ (forall x : float, PrimFloat.leb 0 x = true -> PrimFloat.leb x float_PI = true ->
                        PrimFloat.leb (-1) ((fun _ => (-1)%float) x) = true
                        /\ PrimFloat.leb ((fun _ => (-1)%float) x) 1 = true)
  /\ take (createDistanceStream (H := Straight64) 5
             (createThetaStream (H := Straight64) (fun _ => 0.5%float) 1) (Some 3%float)) 2 0
     = Some ([Some 3%float; Some 3%float], 20)
  /\ Forall (fun v => exists d, v = Some d
                                /\ (is_finite64 d = true /\ PrimFloat.leb 0 d = true))
            [Some 3%float; Some 3%float].
Proof.
  assert (Hrandom : forall i : nat, PrimFloat.leb 0 ((fun _ => 0.5%float) i) = true
                                    /\ PrimFloat.ltb ((fun _ => 0.5%float) i) 1 = true)
    by (intros i; split; reflexivity).
  assert (Hcos : forall x : float,
             PrimFloat.leb 0 x = true -> PrimFloat.leb x float_PI = true ->
             PrimFloat.leb (-1) ((fun _ => (-1)%float) x) = true
             /\ PrimFloat.leb ((fun _ => (-1)%float) x) 1 = true)
    by (intros x _ _; split; reflexivity).
  assert (Hrun : take (createDistanceStream (H := Straight64) 5
                         (createThetaStream (H := Straight64) (fun _ => 0.5%float) 1)
                         (Some 3%float)) 2 0
                 = Some ([Some 3%float; Some 3%float], 20))
    by (vm_compute; reflexivity).
  split; [exact Hrandom | split; [exact Hcos | split; [exact Hrun |]]].
  exact (@sampled_distances_are_finite_in_binary64
           (fun _ => (-1)%float) (fun _ => 1%float) (fun _ => 0.5%float)
           1 2 0 20 (Some 3%float) [Some 3%float; Some 3%float] Hrandom Hcos Hrun).
Defined.
